(** * GitHistory: the commit-feed widget of src/components/git.tsx

    A shallow embedding of the React component [GitHistory]: the fetch
    pipeline of [fetchCommits] over JSON payloads, the component state, the
    tree it renders with the click handlers attached to it, the two effects
    on the document, and the two interval timers on a simulated clock.  The
    payloads are arbitrary JSON: where the code converts a value of the
    payload or hands it to React, the conversion that throws and the render
    that fails are part of the embedding. *)

From stdpp Require Import gmap strings list sorting.
From Stdlib Require Import ZArith Lia Permutation Sorted.

Set Warnings "-register-all".
Open Scope string_scope.
Open Scope list_scope.
Open Scope Z_scope.

(** ** JavaScript values read from a response body *)

(** What [response.json()] can resolve to.  A number keeps its literal: the
    component never computes with one. *)
Inductive json : Type :=
| JNull
| JBool (b : bool)
| JNumber (lit : string)
| JString (s : string)
| JArray (items : list json)
| JObject (fields : list (string * json)).

(** A JavaScript value as the component sees it: [None] is [undefined]. *)
Definition jsval : Type := option json.

Inductive JsError : Type :=
| TypeError
| SyntaxError
| NetworkError
| StatusError (status : Z)
| ShapeError.

(** The completion of an expression or of an awaited promise: a value, or an
    exception thrown (a promise rejected). *)
Inductive completion (A : Type) : Type :=
| Return (a : A)
| Throw (e : JsError).
Arguments Return {A} a.
Arguments Throw {A} e.

Definition bind {A B : Type} (c : completion A) (k : A -> completion B)
  : completion B :=
  match c with
  | Return a => k a
  | Throw e => Throw e
  end.

(** [try { c } catch (error) { h error }] *)
Definition try_catch {A : Type} (c : completion A)
    (h : JsError -> completion A) : completion A :=
  match c with
  | Return a => Return a
  | Throw e => h e
  end.

Notation "'let*' x ':=' c 'in' k" := (bind c (fun x => k))
  (at level 10, x name, c at level 100, k at level 200).

Fixpoint mapM {A B : Type} (f : A -> completion B) (l : list A)
  : completion (list B) :=
  match l with
  | [] => Return []
  | x :: l' => let* y := f x in let* ys := mapM f l' in Return (y :: ys)
  end.

(** [array.map(async (x, i) => ...)] under [Promise.all]: every call runs, the
    results keep the order of the array, one rejection rejects the whole. *)
Fixpoint mapM_from {A B : Type} (f : nat -> A -> completion B) (i : nat)
    (l : list A) : completion (list B) :=
  match l with
  | [] => Return []
  | x :: l' =>
      let* y := f i x in let* ys := mapM_from f (S i) l' in Return (y :: ys)
  end.

(** The own property [k] of an object parsed from JSON: of duplicate keys the
    last one stays. *)
Fixpoint own_property (k : string) (fields : list (string * json)) : jsval :=
  match fields with
  | [] => None
  | (k', v) :: rest =>
      match own_property k rest with
      | Some w => Some w
      | None => if String.eqb k k' then Some v else None
      end
  end.

(** [v.k] for the property names the component reads ([full_name], [sha],
    [commit], [message], [author], [date]): none of them is inherited, so a
    primitive or an array has it [undefined]; reading a property of [null] or
    of [undefined] throws. *)
Definition get_prop (v : jsval) (k : string) : completion jsval :=
  match v with
  | None | Some JNull => Throw TypeError
  | Some (JObject fields) => Return (own_property k fields)
  | Some _ => Return None
  end.

(** The conversion of a value to a primitive, as a template literal, [new
    Date(v)] and the key of an element make it.  An object is converted by
    its [toString]; what a JSON object holds under that name is no function,
    so the conversion of an object with an own property [toString] throws,
    and so does that of an array that holds such an object, since an array is
    converted by joining its items.  Every other value converts. *)
Fixpoint converts (v : json) : bool :=
  match v with
  | JObject fields =>
      match own_property "toString" fields with
      | Some _ => false
      | None => true
      end
  | JArray items => forallb converts items
  | _ => true
  end.

Definition primitive_ok (v : jsval) : bool :=
  match v with
  | Some j => converts j
  | None => true
  end.

Definition to_primitive (v : jsval) : completion unit :=
  if primitive_ok v then Return tt else Throw TypeError.

(** ** Commits *)

(** A [Date]: its time value in milliseconds, [None] for an invalid date
    (whose [getTime()] is NaN). *)
Definition Date : Type := option Z.

(** [interface Commit].  The fields hold what the payload held: the interface
    is not checked at run time. *)
Record Commit : Type := mkCommit {
  id : jsval;
  message : jsval;
  repo : jsval;
  timestamp : Date
}.

(** An HTTP response: [ok], [status], and what [json()] resolves to. *)
Record Response : Type := mkResponse {
  ok : bool;
  status : Z;
  body : completion json
}.

(** The remote API during one poll cycle.  The commits URL is built from
    [repo.full_name]; the index of the repository in the list is kept too, so
    that two requests for one name may be answered differently. *)
Record Network : Type := mkNetwork {
  reposCall : completion Response;
  commitsCall : nat -> jsval -> completion Response
}.

(** ** [Array.prototype.sort] with a comparator *)

Section Sort.
Context {A : Type}.
(** The comparator; [None] is NaN, which sort takes for [+0]. *)
Variable compareFn : A -> A -> option Z.

Definition sort_compare (a b : A) : Z :=
  match compareFn a b with
  | Some v => v
  | None => 0
  end.

Definition comes_first (a b : A) : bool := sort_compare a b <=? 0.

Fixpoint insert_sorted (x : A) (l : list A) : list A :=
  match l with
  | [] => [x]
  | y :: l' => if comes_first x y then x :: y :: l'
               else y :: insert_sorted x l'
  end.

(** The sort is stable: of two elements that compare equal the one that
    was first stays first.  While the comparator is consistent (here: while
    no date is invalid) the language fixes the result, and this is it.  Once
    the comparator returns NaN the order is left to the engine: what follows
    is then one of the orders it may give, the same elements in any case, and
    the properties that speak of the order assume valid dates. *)
Fixpoint js_sort (l : list A) : list A :=
  match l with
  | [] => []
  | x :: l' => insert_sorted x (js_sort l')
  end.
End Sort.

(** ** The fetch pipeline *)

Section Pipeline.
(** [new Date(v)] for a value that converts to a primitive: parsing a date
    string is left to the engine. *)
Variable newDate : jsval -> Date.

(** Lines 83-88: the arrow mapped over the commits of one repository.  [new
    Date] converts its argument to a primitive first. *)
Definition toCommit (repo : json) (commit : json) : completion Commit :=
  let* sha := get_prop (Some commit) "sha" in
  let* c := get_prop (Some commit) "commit" in
  let* msg := get_prop c "message" in
  let* name := get_prop (Some repo) "full_name" in
  let* c' := get_prop (Some commit) "commit" in
  let* author := get_prop c' "author" in
  let* date := get_prop author "date" in
  let* _ := to_primitive date in
  Return {| id := sha; message := msg; repo := name;
            timestamp := newDate date |}.

(** [commits.map(f)]: only an array has a [map] to call. *)
Definition array_map {B : Type} (f : json -> completion B) (v : json)
  : completion (list B) :=
  match v with
  | JArray items => mapM f items
  | _ => Throw TypeError
  end.

(** Lines 62-96: the async arrow run for each repository.  The URL and the
    two warnings are template literals that hold [repo.full_name]: reading
    it throws when the list held a [null], and making it a string throws
    when it does not convert.  The [catch] block does both for its warning,
    so for such an entry it throws again. *)
Definition fetchRepoCommits (net : Network) (i : nat) (repo : json)
  : completion (list Commit) :=
  try_catch
    (let* name := get_prop (Some repo) "full_name" in
     let* _ := to_primitive name in
     let* commitsResponse := commitsCall net i name in
     if negb (ok commitsResponse) then
       let* name' := get_prop (Some repo) "full_name" in
       let* _ := to_primitive name' in
       let* _ := body commitsResponse in
       Return []
     else
       let* commits := body commitsResponse in
       array_map (toCommit repo) commits)
    (fun _ =>
       let* name := get_prop (Some repo) "full_name" in
       let* _ := to_primitive name in
       Return []).

(** [(a, b) => b.timestamp.getTime() - a.timestamp.getTime()].  Time values
    are integers below 2^53 in size, so the sign of the floating-point
    difference is the sign of the exact one. *)
Definition byTimestampDesc (a b : Commit) : option Z :=
  match timestamp b, timestamp a with
  | Some tb, Some ta => Some (tb - ta)
  | _, _ => None
  end.

(** Lines 99-102. *)
Definition flattenedCommits (allCommits : list (list Commit)) : list Commit :=
  take 25 (js_sort byTimestampDesc (concat allCommits)).

(** Lines 39-102: the [try] block of [fetchCommits] up to the list it hands
    to [setCommits]. *)
Definition fetchCommits_try (net : Network) : completion (list Commit) :=
  let* response := reposCall net in
  if negb (ok response) then Throw (StatusError (status response))
  else
    let* repos := body response in
    match repos with
    | JArray items =>
        let* allCommits := mapM_from (fetchRepoCommits net) 0 items in
        Return (flattenedCommits allCommits)
    | _ => Throw ShapeError
    end.
End Pipeline.

(** ** Component state *)

(** The eight [useState] cells of [GitHistory]. *)
Record State : Type := mkState {
  commits : list Commit;
  loading : bool;
  error : option string;
  isRefreshing : bool;
  isBlinking : bool;
  lastUpdated : Z;
  isFullscreen : bool;
  isMinimized : bool
}.

Definition setCommits (v : list Commit) (s : State) : State :=
  mkState v (loading s) (error s) (isRefreshing s) (isBlinking s)
    (lastUpdated s) (isFullscreen s) (isMinimized s).
Definition setLoading (v : bool) (s : State) : State :=
  mkState (commits s) v (error s) (isRefreshing s) (isBlinking s)
    (lastUpdated s) (isFullscreen s) (isMinimized s).
Definition setError (v : option string) (s : State) : State :=
  mkState (commits s) (loading s) v (isRefreshing s) (isBlinking s)
    (lastUpdated s) (isFullscreen s) (isMinimized s).
Definition setIsRefreshing (v : bool) (s : State) : State :=
  mkState (commits s) (loading s) (error s) v (isBlinking s)
    (lastUpdated s) (isFullscreen s) (isMinimized s).
Definition setIsBlinking (v : bool) (s : State) : State :=
  mkState (commits s) (loading s) (error s) (isRefreshing s) v
    (lastUpdated s) (isFullscreen s) (isMinimized s).
Definition setLastUpdated (v : Z) (s : State) : State :=
  mkState (commits s) (loading s) (error s) (isRefreshing s) (isBlinking s)
    v (isFullscreen s) (isMinimized s).
Definition setIsFullscreen (v : bool) (s : State) : State :=
  mkState (commits s) (loading s) (error s) (isRefreshing s) (isBlinking s)
    (lastUpdated s) v (isMinimized s).
Definition setIsMinimized (v : bool) (s : State) : State :=
  mkState (commits s) (loading s) (error s) (isRefreshing s) (isBlinking s)
    (lastUpdated s) (isFullscreen s) v.

(** The initial values of the cells, [new Date()] being the time of the first
    render. *)
Definition initialState (t : Z) : State :=
  mkState [] true None false false t false false.

Section Settle.
Variable newDate : jsval -> Date.

(** Lines 104-110: what [fetchCommits] does to the state once its [try]
    block has run, through [setCommits] and [setLoading], or in the [catch]
    through [setError] and [setLoading]. *)
Definition settle (net : Network) (s : State) : State :=
  match fetchCommits_try newDate net with
  | Return flattened => setLoading false (setCommits flattened s)
  | Throw _ =>
      setLoading false (setError (Some "Failed to load commit history") s)
  end.
End Settle.

(** ** The rendered tree *)

(** The parent's [onClose] is known by a handle; calling it is recorded. *)
Definition callback : Type := nat.

Record Props : Type := mkProps { onClose : option callback }.

(** A click as a handler sees it.  An element is named by its path from the
    root of the rendered tree, the child indices in order. *)
Record MouseEvent : Type := mkMouseEvent {
  target : list nat;
  currentTarget : list nat
}.

(** What a handler does: it calls setters with values it closed over at
    render time, and it calls the parent. *)
Inductive Action : Type :=
| SetIsFullscreen (v : bool)
| SetIsMinimized (v : bool)
| Invoke (f : callback).

(** The JSX the component returns, without the class names that do not
    depend on the state.  [Value] is an embedded [{expression}]. *)
Inductive Node : Type :=
| Element (tag : string) (className : string)
    (onClick : option (MouseEvent -> list Action)) (disabled : bool)
    (children : list Node)
| Text (s : string)
| Value (v : jsval)
| TimeString (t : Z)
| DateString (d : Date).

(** An element without a class name that depends on the state. *)
Definition noClass : string := EmptyString.

Definition div (children : list Node) : Node :=
  Element "div" noClass None false children.
Definition span (children : list Node) : Node :=
  Element "span" noClass None false children.

Section Render.
Variable props : Props.

(** Lines 142-149. *)
Definition handleClickOutside (e : MouseEvent) : list Action :=
  match onClose props with
  | Some f => if decide (target e = currentTarget e) then [Invoke f] else []
  | None => []
  end.

(** Lines 151-155. *)
Definition handleClose (_ : MouseEvent) : list Action :=
  match onClose props with
  | Some f => [Invoke f]
  | None => []
  end.

(** Lines 159-165: the [keydown] listener. *)
Definition handleEscapeKey (key : string) : list Action :=
  if String.eqb key "Escape" then
    match onClose props with
    | Some f => [Invoke f]
    | None => []
    end
  else [].

Definition panelClass (s : State) : string :=
  if isFullscreen s then "fixed inset-4" else "w-[750px] max-h-[60vh]".

Definition titleLabel (s : State) : Node :=
  div [ Element "GitCommit"
          (if isBlinking s then "text-green-500" else "text-gray-500")
          None false [];
        span [Text "Git Commit History"];
        span [Text "(Last updated: "; TimeString (lastUpdated s); Text ")"] ].

Definition fullscreenGlyph (s : State) : Node :=
  Text (if isFullscreen s then "□" else "⊡").

Definition closeButton : Node :=
  Element "button" noClass (Some handleClose) false [Text "×"].

Definition skeletonRow : Node :=
  div [ div [div []; div []]; div [div []] ].

(** Lines 175-231. *)
Definition loadingView (s : State) : Node :=
  Element "div" noClass (Some handleClickOutside) false
    [ Element "div" (panelClass s) None false
        [ div [ titleLabel s;
                div [ Element "button" noClass None true [fullscreenGlyph s];
                      closeButton ] ];
          div (repeat skeletonRow 10) ] ].

(** Lines 235-248. *)
Definition errorView (msg : string) : Node :=
  div [ div [ div [ div [ span [Text "Error"] ] ];
              div [Text msg] ] ].

(** Lines 252-259. *)
Definition minimizedView : Node :=
  Element "div" noClass (Some (fun _ => [SetIsMinimized false])) false
    [Text "Commit History"].

Definition commitRow (c : Commit) : Node :=
  div [ div [ span [Value (repo c)]; span [DateString (timestamp c)] ];
        div [Value (message c)] ].

(** Lines 262-323. *)
Definition normalView (s : State) : Node :=
  Element "div" noClass (Some handleClickOutside) false
    [ Element "div" (panelClass s) None false
        [ div [ titleLabel s;
                div [ Element "button" noClass
                        (Some (fun _ =>
                                 [SetIsFullscreen (negb (isFullscreen s))]))
                        false [fullscreenGlyph s];
                      closeButton ] ];
          div (map commitRow (commits s)) ] ].

(** [if (error)]: [null] and the empty string are falsy. *)
Definition truthy (e : option string) : bool :=
  match e with
  | Some msg => negb (String.eqb msg EmptyString)
  | None => false
  end.

(** Lines 174-323: the four returns of the component, in their order. *)
Definition render (s : State) : Node :=
  if loading s then loadingView s
  else if truthy (error s) then errorView (default EmptyString (error s))
  else if isMinimized s then minimizedView
  else normalView s.

(** Line 308: [key={commit.id}] makes the key of each row a string as the
    row is created. *)
Definition keyed (s : State) : completion unit :=
  let* _ := mapM (fun c => to_primitive (id c)) (commits s) in Return tt.

(** The component function as React calls it: it returns the tree, or
    throws while it creates the rows of the normal view. *)
Definition GitHistory (s : State) : completion Node :=
  if loading s then Return (loadingView s)
  else if truthy (error s) then
    Return (errorView (default EmptyString (error s)))
  else if isMinimized s then Return minimizedView
  else let* _ := keyed s in Return (normalView s).
End Render.

(** ** What React renders *)

(** An embedded value as a child: a string or a number is shown, [null],
    [undefined] and a boolean show nothing, an array shows its items; an
    object parsed from JSON is no valid child, and React throws on it. *)
Fixpoint valid_child (v : json) : bool :=
  match v with
  | JObject _ => false
  | JArray items => forallb valid_child items
  | _ => true
  end.

(** The tree holds no child that React refuses. *)
Fixpoint renderable (n : Node) : bool :=
  match n with
  | Element _ _ _ _ children => forallb renderable children
  | Value (Some v) => valid_child v
  | _ => true
  end.

(** ** Clicks *)

Fixpoint node_at (n : Node) (path : list nat) : option Node :=
  match path with
  | [] => Some n
  | i :: rest =>
      match n with
      | Element _ _ _ _ children =>
          match children !! i with
          | Some child => node_at child rest
          | None => None
          end
      | _ => None
      end
  end.

(** The click bubbles from the target to the root: the handler of each
    element on the way runs, the innermost first. *)
Fixpoint bubble (n : Node) (here rest clicked : list nat) : list Action :=
  match n with
  | Element _ _ handler _ children =>
      let own :=
        match handler with
        | Some f => f {| target := clicked; currentTarget := here |}
        | None => []
        end in
      match rest with
      | [] => own
      | i :: rest' =>
          match children !! i with
          | Some child => bubble child (here ++ [i]) rest' clicked ++ own
          | None => []
          end
      end
  | _ => []
  end.

(** A click on the element at [path].  Text is no target of its own, and a
    disabled button gets no click event. *)
Definition click (root : Node) (path : list nat) : list Action :=
  match node_at root path with
  | Some (Element _ _ _ false _) => bubble root [] path path
  | _ => []
  end.

Definition act (a : Action) (s : State) : State :=
  match a with
  | SetIsFullscreen v => setIsFullscreen v s
  | SetIsMinimized v => setIsMinimized v s
  | Invoke _ => s
  end.

Definition invoked (a : Action) : list callback :=
  match a with
  | Invoke f => [f]
  | _ => []
  end.

(** The state after the actions, and the parent callbacks called. *)
Definition perform (actions : list Action) (s : State) : State :=
  foldl (fun s a => act a s) s actions.
Definition invocations (actions : list Action) : list callback :=
  concat (map invoked actions).

(** ** The document, the timers and the mounted component *)

(** What a timer runs when it falls due: the callback of [blinkInterval]
    (lines 114-118) and the timeout it sets; [fetchCommits] for
    [fetchInterval] (line 121); the part of a poll cycle that follows its
    awaits (lines 99-111), kept with the timers though the network sets it
    off; and the timeout of line 111. *)
Inductive Task : Type :=
| BlinkTick
| BlinkOff
| FetchTick
| FetchSettled (cycle : nat)
| RefreshOff.

(** A pending [setTimeout] or [setInterval] ([every] is its period). *)
Record Timer : Type := mkTimer {
  due : Z;
  every : option Z;
  task : Task
}.

(** A [keydown] listener on the document: [handleEscapeKey] closed over the
    props it was created under. *)
Inductive Listener : Type :=
| EscapeListener (p : Props).

#[global] Instance Props_eq_dec : EqDecision Props.
Proof. solve_decision. Defined.
#[global] Instance Listener_eq_dec : EqDecision Listener.
Proof. solve_decision. Defined.
#[global] Instance Task_eq_dec : EqDecision Task.
Proof. solve_decision. Defined.

Definition listen (l : Listener) (key : string) : list Action :=
  match l with
  | EscapeListener p => handleEscapeKey p key
  end.

Fixpoint remove_first (l : Listener) (ls : list Listener) : list Listener :=
  match ls with
  | [] => []
  | l' :: rest => if decide (l = l') then rest else l' :: remove_first l rest
  end.

(** The simulated clock in milliseconds, the component's state ([None] once
    it is unmounted), [document.body.style], the [keydown] listeners of the
    document, the pending timers in the order they were set, the number of
    poll cycles started, and the calls made to the parent, oldest first. *)
Record World : Type := mkWorld {
  now : Z;
  component : option State;
  body_style : gmap string string;
  keydown_listeners : list Listener;
  timers : list Timer;
  cycles : nat;
  called : list callback
}.

(** Lines 129-140: the effect on [isFullscreen] and its cleanup. *)
Definition fullscreenEffect (fullscreen : bool) (style : gmap string string)
  : gmap string string :=
  if fullscreen then <["overflow" := "hidden"]> style
  else <["overflow" := "auto"]> style.
Definition fullscreenCleanup (style : gmap string string)
  : gmap string string :=
  <["overflow" := "auto"]> style.

(** A state update on the mounted component.  The effect of lines 129-140
    depends on [isFullscreen]: when that changed, its cleanup runs and then
    the effect again.  An unmounted component takes no update.  The render
    that follows the updates of a callback is [rerender] below. *)
Definition setState (f : State -> State) (w : World) : World :=
  match component w with
  | Some s =>
      let s' := f s in
      mkWorld (now w) (Some s')
        (if Bool.eqb (isFullscreen s) (isFullscreen s') then body_style w
         else fullscreenEffect (isFullscreen s')
                (fullscreenCleanup (body_style w)))
        (keydown_listeners w) (timers w) (cycles w) (called w)
  | None => w
  end.

Definition addTimer (tm : Timer) (w : World) : World :=
  mkWorld (now w) (component w) (body_style w) (keydown_listeners w)
    (timers w ++ [tm]) (cycles w) (called w).

Definition record_calls (fs : list callback) (w : World) : World :=
  mkWorld (now w) (component w) (body_style w) (keydown_listeners w)
    (timers w) (cycles w) (called w ++ fs).

(** Where the component runs: the engine's [Date], the API as the [n]-th
    poll cycle finds it, the time that cycle takes to settle, and the props
    the parent passes. *)
Record Env : Type := mkEnv {
  newDate : jsval -> Date;
  api : nat -> Network;
  latency : nat -> nat;
  props : Props
}.

Section Lifecycle.
Variable env : Env.

(** Lines 36-37 and 111: a call of [fetchCommits].  It sets [isRefreshing]
    at once; what follows its awaits runs when the cycle has settled. *)
Definition fetchCommits (w : World) : World :=
  let w' := setState (setIsRefreshing true) w in
  mkWorld (now w') (component w') (body_style w') (keydown_listeners w')
    (timers w' ++ [mkTimer (now w' + Z.of_nat (latency env (cycles w'))) None
                     (FetchSettled (cycles w'))])
    (S (cycles w')) (called w').

(** The callbacks of the timers: lines 114-118 for [BlinkTick] and
    [BlinkOff], [fetchCommits] for [FetchTick], lines 104-111 for
    [FetchSettled], line 111 for [RefreshOff]. *)
Definition callback_of (k : Task) (w : World) : World :=
  match k with
  | BlinkTick =>
      addTimer (mkTimer (now w + 1000) None BlinkOff)
        (setState (setLastUpdated (now w))
           (setState (setIsBlinking true) w))
  | BlinkOff => setState (setIsBlinking false) w
  | FetchTick => fetchCommits w
  | FetchSettled n =>
      addTimer (mkTimer (now w + 1000) None RefreshOff)
        (setState (settle (newDate env) (api env n)) w)
  | RefreshOff => setState (setIsRefreshing false) w
  end.

(** A timer falls due: an interval is set again one period on, then the
    callback runs. *)
Definition fire (tm : Timer) (w : World) : World :=
  callback_of (task tm)
    match every tm with
    | Some period => addTimer (mkTimer (due tm + period) (every tm) (task tm)) w
    | None => w
    end.

(** The cleanups of the three effects (lines 123-126, 137-139, 169-171). *)
Definition unmount (w : World) : World :=
  match component w with
  | Some _ =>
      mkWorld (now w) None (fullscreenCleanup (body_style w))
        (remove_first (EscapeListener (props env)) (keydown_listeners w))
        (List.filter
           (fun tm => negb (bool_decide (task tm = FetchTick)
                            || bool_decide (task tm = BlinkTick)))
           (timers w))
        (cycles w) (called w)
  | None => w
  end.

(** After the state updates of a callback React renders the component
    again.  When the component function throws, or returns a tree with a
    child that React refuses, the render fails; no error boundary is set up
    around the component, so React unmounts it, which runs the cleanups. *)
Definition rerender (w : World) : World :=
  match component w with
  | Some s =>
      match GitHistory (props env) s with
      | Return tree => if renderable tree then w else unmount w
      | Throw _ => unmount w
      end
  | None => w
  end.

(** An interval that the cleanup of lines 123-126 has cleared: it fires no
    more, also when it was due in the millisecond of the unmount. *)
Definition cleared (w : World) (tm : Timer) : bool :=
  match component w with
  | Some _ => false
  | None => bool_decide (task tm = FetchTick)
            || bool_decide (task tm = BlinkTick)
  end.

(** A timer that was due: unless the cleanup has cleared it, it fires, and
    what its callback updated is rendered. *)
Definition expire (w : World) (tm : Timer) : World :=
  if cleared w tm then w else rerender (fire tm w).

(** The clock moves on one millisecond and the timers due by then expire,
    in the order they were set. *)
Definition tick (w : World) : World :=
  let t := now w + 1 in
  foldl expire
    (mkWorld t (component w) (body_style w) (keydown_listeners w)
       (List.filter (fun tm => negb (due tm <=? t)) (timers w))
       (cycles w) (called w))
    (List.filter (fun tm => due tm <=? t) (timers w)).

(** The first render, which shows the skeleton, and the three effects
    (lines 35-127, 129-140, 158-172) at time [t]. *)
Definition mount (t : Z) (style : gmap string string)
    (listeners : list Listener) : World :=
  let w0 :=
    mkWorld t (Some (initialState t)) style listeners
      [mkTimer (t + 3000) (Some 3000) BlinkTick] 0 [] in
  let w1 := addTimer (mkTimer (t + 300000) (Some 300000) FetchTick)
              (fetchCommits w0) in
  mkWorld (now w1) (component w1) (fullscreenEffect false (body_style w1))
    (keydown_listeners w1 ++ [EscapeListener (props env)]) (timers w1)
    (cycles w1) (called w1).

(** A click on the element at [path] of what is rendered: the handlers
    run, then the render. *)
Definition userClick (path : list nat) (w : World) : World :=
  match component w with
  | Some s =>
      let actions := click (render (props env) s) path in
      rerender
        (record_calls (invocations actions) (setState (perform actions) w))
  | None => w
  end.

(** A key pressed anywhere in the document: the listeners run.  The
    listener of the component calls no setter, so nothing is rendered
    again. *)
Definition keyDown (key : string) (w : World) : World :=
  let actions := concat (map (fun l => listen l key) (keydown_listeners w)) in
  record_calls (invocations actions) (setState (perform actions) w).

Inductive Event : Type :=
| Tick
| Click (path : list nat)
| KeyDown (key : string).

Definition step (w : World) (e : Event) : World :=
  match e with
  | Tick => tick w
  | Click path => userClick path w
  | KeyDown key => keyDown key w
  end.

Definition run (events : list Event) (w : World) : World :=
  foldl step w events.
End Lifecycle.

(** ** Vocabulary of the properties *)

(** [repo.full_name] of a list entry that is not [null]. *)
Definition full_name (repo : json) : jsval :=
  match repo with
  | JObject fields => own_property "full_name" fields
  | _ => None
  end.

(** A repository of the list: an entry that is not [null] and whose
    [full_name] converts to a string, so that the URL of its commits can be
    written. *)
Definition repository (repo : json) : Prop :=
  repo <> JNull /\ primitive_ok (full_name repo) = true.

(** A commits request that failed: [fetch] threw, or the response is not a
    success. *)
Definition failed (r : completion Response) : Prop :=
  match r with
  | Throw _ => True
  | Return response => ok response = false
  end.

(** The date of a commit is valid. *)
Definition valid_date (c : Commit) : Prop := is_Some (timestamp c).

(** [a] is at least as recent as [b]; [a] is more recent than [b]. *)
Definition not_older (a b : Commit) : Prop :=
  exists ta tb, timestamp a = Some ta /\ timestamp b = Some tb /\ tb <= ta.
Definition newer (a b : Commit) : Prop :=
  exists ta tb, timestamp a = Some ta /\ timestamp b = Some tb /\ tb < ta.

(** Most recent first, equal timestamps allowed; most recent first with no
    two neighbours of one timestamp. *)
Definition descending (l : list Commit) : Prop := StronglySorted not_older l.
Definition strictly_descending (l : list Commit) : Prop := Sorted newer l.

(** A payload that is not a sequence. *)
Definition not_a_sequence (v : json) : Prop := forall items, v <> JArray items.

(** The paths of the two buttons of the title bar. *)
Definition fullscreenButton : list nat := [0; 0; 1; 0]%nat.
Definition closeGlyph : list nat := [0; 0; 1; 1]%nat.

(** What a handler that dismisses does. *)
Definition closeActions (props : Props) : list Action :=
  match onClose props with
  | Some f => [Invoke f]
  | None => []
  end.

(** A subtree without click handlers. *)
Definition inert (n : Node) : Prop :=
  forall path tag cls h d kids,
    node_at n path = Some (Element tag cls h d kids) -> h = None.

(** The shape the loading view and the normal view share: the backdrop, the
    panel, the title bar with its label and two buttons, and the content. *)
Definition layout (props : Props) (cls : string) (label : Node)
    (h : option (MouseEvent -> list Action)) (dis : bool) (glyph : string)
    (content : Node) : Node :=
  Element "div" noClass (Some (handleClickOutside props)) false
    [ Element "div" cls None false
        [ div [ label;
                div [ Element "button" noClass h dis [Text glyph];
                      closeButton props ] ];
          content ] ].

(** The four view states, as [render] tells them apart. *)
Inductive View : Type := Loading | Error | Minimized | Normal.

Definition view (s : State) : View :=
  if loading s then Loading
  else if truthy (error s) then Error
  else if isMinimized s then Minimized
  else Normal.

(** The state after a click on the element at [path], and after a key. *)
Definition afterClick (props : Props) (path : list nat) (s : State) : State :=
  perform (click (render props s) path) s.
Definition afterKey (props : Props) (key : string) (s : State) : State :=
  perform (handleEscapeKey props key) s.

(** The timers of the blink indicator. *)
Definition is_blink (k : Task) : bool :=
  match k with
  | BlinkTick | BlinkOff => true
  | _ => false
  end.

Definition blinkTimers (w : World) : list Timer :=
  List.filter (fun tm => is_blink (task tm)) (timers w).

(** The state update a timer's callback makes at time [t], the timer an
    interval sets again, and the timers a callback sets. *)
Definition task_update (env : Env) (t : Z) (k : Task) : State -> State :=
  match k with
  | BlinkTick => fun s => setLastUpdated t (setIsBlinking true s)
  | BlinkOff => setIsBlinking false
  | FetchTick => setIsRefreshing true
  | FetchSettled n => settle (newDate env) (api env n)
  | RefreshOff => setIsRefreshing false
  end.

Definition rearmed (tm : Timer) : list Timer :=
  match every tm with
  | Some period => [mkTimer (due tm + period) (every tm) (task tm)]
  | None => []
  end.

Definition spawned (env : Env) (t : Z) (n : nat) (k : Task) : list Timer :=
  match k with
  | BlinkTick => [mkTimer (t + 1000) None BlinkOff]
  | FetchTick => [mkTimer (t + Z.of_nat (latency env n)) None (FetchSettled n)]
  | FetchSettled _ => [mkTimer (t + 1000) None RefreshOff]
  | _ => []
  end.

(** The blink indicator and the label, with the timers that drive them. *)
Definition blink_state (w : World) : option (bool * Z) :=
  (fun s => (isBlinking s, lastUpdated s)) <$> component w.

Definition blink_part (w : World) : option (bool * Z) * list Timer :=
  (blink_state w, blinkTimers w).

(** What a timer that falls due at [t] does to them. *)
Definition fire_blink (t : Z) (b : option (bool * Z) * list Timer)
    (tm : Timer) : option (bool * Z) * list Timer :=
  match task tm with
  | BlinkTick =>
      ((fun _ => (true, t)) <$> fst b,
       snd b ++ rearmed tm ++ [mkTimer (t + 1000) None BlinkOff])
  | BlinkOff => ((fun p => (false, snd p)) <$> fst b, snd b ++ rearmed tm)
  | _ => b
  end.

(** Between two firings of the blink interval, [k] of them past since the
    mount at [t0]: the indicator is on for the first second after a firing,
    the label shows the time of the last firing, and the interval and the
    pending switch-off are the only blink timers. *)
Definition blink_inv (t0 : Z) (w : World) : Prop :=
  exists k s,
    0 <= k /\ component w = Some s /\
    t0 + 3000 * k <= now w < t0 + 3000 * (k + 1) /\
    isBlinking s = (1 <=? k) && (now w <? t0 + 3000 * k + 1000) /\
    lastUpdated s = (if k =? 0 then t0 else t0 + 3000 * k) /\
    blinkTimers w =
      mkTimer (t0 + 3000 * (k + 1)) (Some 3000) BlinkTick ::
      (if isBlinking s then [mkTimer (t0 + 3000 * k + 1000) None BlinkOff]
       else []).

(** What no timer changes. *)
Definition static_part (w : World)
  : option (bool * bool) * gmap string string * list Listener * list callback :=
  ((fun s => (isFullscreen s, isMinimized s)) <$> component w,
   body_style w, keydown_listeners w, called w).

(** The document as the mounted component keeps it: [overflow] follows
    [isFullscreen], no other style has changed since the mount, the Escape
    listener is the last one added, and the component is not minimized. *)
Definition static_inv (props : Props) (style0 : gmap string string)
    (listeners0 : list Listener) (w : World) : Prop :=
  exists s,
    component w = Some s /\
    isMinimized s = false /\
    body_style w !! "overflow"
      = Some (if isFullscreen s then "hidden" else "auto") /\
    (forall k, k <> "overflow" -> body_style w !! k = style0 !! k) /\
    keydown_listeners w = listeners0 ++ [EscapeListener props].

(** The milliseconds that pass during a sequence of events. *)
Fixpoint ticks (events : list Event) : Z :=
  match events with
  | [] => 0
  | Tick :: rest => 1 + ticks rest
  | _ :: rest => ticks rest
  end.

(** An embedded value that React takes as a child, and a commit whose row
    can be created and shown. *)
Definition child_ok (v : jsval) : bool :=
  match v with
  | Some j => valid_child j
  | None => true
  end.
Definition showable (c : Commit) : bool :=
  primitive_ok (id c) && child_ok (repo c) && child_ok (message c).

(** The render of a state succeeds. *)
Definition renders (props : Props) (s : State) : bool :=
  match GitHistory props s with
  | Return tree => renderable tree
  | Throw _ => false
  end.

(** The mounted component shows a tree that React has rendered. *)
Definition rendered (props : Props) (w : World) : Prop :=
  forall s, component w = Some s -> renders props s = true.

(** The events as they go while every render succeeds, so that no cleanup
    runs: the timers due fire one after the other, the handlers of a click
    run. *)
Definition elapse (env : Env) (w : World) : World :=
  let t := now w + 1 in
  foldl (fun w tm => fire env tm w)
    (mkWorld t (component w) (body_style w) (keydown_listeners w)
       (List.filter (fun tm => negb (due tm <=? t)) (timers w))
       (cycles w) (called w))
    (List.filter (fun tm => due tm <=? t) (timers w)).

Definition handled (env : Env) (path : list nat) (w : World) : World :=
  match component w with
  | Some s =>
      let actions := click (render (props env) s) path in
      record_calls (invocations actions) (setState (perform actions) w)
  | None => w
  end.

Definition advance (env : Env) (w : World) (e : Event) : World :=
  match e with
  | Tick => elapse env w
  | Click path => handled env path w
  | KeyDown key => keyDown key w
  end.

(** A timer that is not one of the two intervals. *)
Definition one_shot (tm : Timer) : Prop :=
  task tm <> BlinkTick /\ task tm <> FetchTick.

(** The document and the timers as the cleanups leave them, after a mount
    that found the style [style0] and the listeners [listeners0]:
    [overflow] is [auto], no other style has changed, the Escape listener is
    removed, and no interval is pending. *)
Definition left_behind (props : Props) (style0 : gmap string string)
    (listeners0 : list Listener) (w : World) : Prop :=
  body_style w !! "overflow" = Some "auto" /\
  (forall k, k <> "overflow" -> body_style w !! k = style0 !! k) /\
  keydown_listeners w
    = remove_first (EscapeListener props)
        (listeners0 ++ [EscapeListener props]) /\
  Forall one_shot (timers w).

(** ** Sample payloads *)

(** A [Date] constructor that knows three ISO dates. *)
Definition sampleDate (v : jsval) : Date :=
  match v with
  | Some (JString d) =>
      if String.eqb d "2024-01-02T00:00:00Z" then Some 1704153600000
      else if String.eqb d "2024-01-03T00:00:00Z" then Some 1704240000000
      else if String.eqb d "2024-01-04T00:00:00Z" then Some 1704326400000
      else None
  | _ => None
  end.

Definition sampleRepo (name : string) : json :=
  JObject [("full_name", JString name)].

Definition sampleCommit (sha msg date : string) : json :=
  JObject [("sha", JString sha);
           ("commit", JObject [("message", JString msg);
                               ("author", JObject [("date", JString date)])])].

Definition success (v : json) : completion Response :=
  Return (mkResponse true 200 (Return v)).

(** Two repositories: the commits of [a/x] cannot be fetched, [b/y] has
    three, two of them of one timestamp. *)
Definition sampleNet : Network :=
  mkNetwork
    (success (JArray [sampleRepo "a/x"; sampleRepo "b/y"]))
    (fun _ name =>
       match name with
       | Some (JString n) =>
           if String.eqb n "b/y" then
             success (JArray [sampleCommit "c1" "fix" "2024-01-02T00:00:00Z";
                              sampleCommit "c2" "feat" "2024-01-03T00:00:00Z";
                              sampleCommit "c3" "docs" "2024-01-02T00:00:00Z"])
           else Throw NetworkError
       | _ => Throw NetworkError
       end).

Definition c1 : Commit :=
  mkCommit (Some (JString "c1")) (Some (JString "fix"))
    (Some (JString "b/y")) (Some 1704153600000).
Definition c2 : Commit :=
  mkCommit (Some (JString "c2")) (Some (JString "feat"))
    (Some (JString "b/y")) (Some 1704240000000).
Definition c3 : Commit :=
  mkCommit (Some (JString "c3")) (Some (JString "docs"))
    (Some (JString "b/y")) (Some 1704153600000).

(** Three commits of one repository, the middle one without a valid date. *)
Definition undatedCommits : list Commit :=
  [ mkCommit (Some (JString "d1")) None (Some (JString "a/x")) (Some 5);
    mkCommit (Some (JString "d2")) None (Some (JString "a/x")) None;
    mkCommit (Some (JString "d3")) None (Some (JString "a/x")) (Some 7) ].

(** The repository list holds a [null]. *)
Definition nullEntryNet : Network :=
  mkNetwork (success (JArray [JNull])) (fun _ _ => Throw NetworkError).



(** The repository list comes back as an object. *)
Definition objectNet : Network :=
  mkNetwork
    (success (JObject [("message", JString "Bad credentials")]))
    (fun _ _ => Throw NetworkError).

(** A parent that passes callback 7, over the API of [sampleNet] or of
    [objectNet]; every cycle settles within a millisecond. *)
Definition sampleEnv : Env :=
  mkEnv sampleDate (fun _ => sampleNet) (fun _ => 1%nat) (mkProps (Some 7%nat)).
Definition objectEnv : Env :=
  mkEnv sampleDate (fun _ => objectNet) (fun _ => 1%nat) (mkProps (Some 7%nat)).

(** One repository, whose only commit has an object for its message. *)
Definition objectMessageNet : Network :=
  mkNetwork
    (success (JArray [sampleRepo "a/x"]))
    (fun _ _ =>
       success
         (JArray
            [JObject
               [("sha", JString "c7");
                ("commit",
                 JObject [("message", JObject [("text", JString "fix")]);
                          ("author",
                           JObject
                             [("date", JString "2024-01-02T00:00:00Z")])])]])).

Definition objectMessageEnv : Env :=
  mkEnv sampleDate (fun _ => objectMessageNet) (fun _ => 1%nat)
    (mkProps (Some 7%nat)).

(** One millisecond after the mount the first cycle has settled: into the
    normal view, or into the error view. *)
Definition normalWorld : World :=
  run sampleEnv [Tick] (mount sampleEnv 0 ∅ []).
Definition errorWorld : World :=
  run objectEnv [Tick] (mount objectEnv 0 ∅ []).

(** Or into a commit row that React refuses. *)
Definition crashedWorld : World :=
  run objectMessageEnv [Tick] (mount objectMessageEnv 0 ∅ []).

(** The states of those two worlds. *)
Definition normalState : State :=
  settle sampleDate sampleNet (setIsRefreshing true (initialState 0)).
Definition errorState : State :=
  settle sampleDate objectNet (setIsRefreshing true (initialState 0)).

(** A state in which the component is minimized. *)
Definition minimizedState : State :=
  mkState [] false None false false 0 false true.

(** ** Vocabulary of the further properties *)

(** The repository-list call failed before a payload could be looked at:
    [fetch] threw, the status is not a success, or the body is no JSON. *)
Definition enumeration_failed (r : completion Response) : Prop :=
  match r with
  | Throw _ => True
  | Return response => ok response = false \/ exists e, body response = Throw e
  end.

(** [null] or [undefined]: what has no properties to read. *)
Definition nullish (v : jsval) : bool :=
  match v with
  | None | Some JNull => true
  | Some _ => false
  end.

(** The value a property read gives when it does not throw. *)
Definition field (k : string) (v : jsval) : jsval :=
  match v with
  | Some (JObject fields) => own_property k fields
  | _ => None
  end.

(** The commits request of a repository was answered, but not with a list
    of commits that can all be read. *)
Definition unreadable (newDate : jsval -> Date) (repo : json)
    (response : Response) : Prop :=
  (exists e, body response = Throw e) \/
  (exists payload, body response = Return payload /\ not_a_sequence payload) \/
  (exists items bad e,
     body response = Return (JArray items) /\ bad ∈ items /\
     toCommit newDate repo bad = Throw e).

(** Commits of the timestamp [t]. *)
Definition at_time (t : Z) (c : Commit) : bool :=
  bool_decide (timestamp c = Some t).

(** The repository list is refused: a 401 with a JSON message. *)
Definition unauthorizedNet : Network :=
  mkNetwork
    (Return (mkResponse false 401
               (Return (JObject [("message", JString "Bad credentials")]))))
    (fun _ _ => Throw NetworkError).

(** A commit whose author is [null]. *)
Definition authorlessCommit : json :=
  JObject [("sha", JString "c9");
           ("commit", JObject [("message", JString "wip"); ("author", JNull)])].

(** One repository, whose second commit has no author. *)
Definition authorlessNet : Network :=
  mkNetwork
    (success (JArray [sampleRepo "a/x"]))
    (fun _ _ =>
       success (JArray [sampleCommit "c1" "fix" "2024-01-02T00:00:00Z";
                        authorlessCommit])).

(** Every repository of the list got a failing answer. *)
Definition all_failed (net : Network) (items : list json) : Prop :=
  forall i r, items !! i = Some r ->
    repository r /\ failed (commitsCall net i (full_name r)).

(** No commits request gets through. *)
Definition deafNet : Network :=
  mkNetwork
    (success (JArray [sampleRepo "a/x"; sampleRepo "b/y"]))
    (fun _ _ => Throw NetworkError).

(** The timer of [fetchInterval]. *)
Definition is_fetch_tick (k : Task) : bool :=
  match k with
  | FetchTick => true
  | _ => false
  end.

Definition fetchTimers (w : World) : list Timer :=
  List.filter (fun tm => is_fetch_tick (task tm)) (timers w).

(** The poll cycles started, with the timer that starts the next. *)
Definition poll_part (w : World) : nat * list Timer :=
  (cycles w, fetchTimers w).

Definition fire_poll (p : nat * list Timer) (tm : Timer) : nat * list Timer :=
  if is_fetch_tick (task tm) then (S (fst p), snd p ++ rearmed tm) else p.

(** Between two firings of the fetch interval, [k] of them past since the
    mount at [t0]: one cycle was started at the mount and one at each
    firing, and the interval is pending once. *)
Definition poll_inv (t0 : Z) (w : World) : Prop :=
  exists k,
    0 <= k /\
    t0 + 300000 * k <= now w < t0 + 300000 * (k + 1) /\
    Z.of_nat (cycles w) = k + 1 /\
    fetchTimers w = [mkTimer (t0 + 300000 * (k + 1)) (Some 300000) FetchTick].

(** What the fetch side never undoes: once [loading] is off it stays off,
    and once the error view is on it stays on. *)
Definition keeps_view (g : State -> State) : Prop :=
  forall s,
    (loading s = false -> loading (g s) = false) /\
    (view s = Error -> view (g s) = Error).

(** [<GitHistory />] as [Content] renders it (content.tsx, line 13): no
    [onClose]. *)
Definition contentProps : Props := mkProps None.

(** The unmounted component: no state, no listener, no interval. *)
Definition unmounted (w : World) : Prop :=
  component w = None /\ keydown_listeners w = [] /\
  Forall one_shot (timers w).

(** The timers that stand for poll cycles in flight. *)
Definition is_settle (k : Task) : bool :=
  match k with
  | FetchSettled _ => true
  | _ => false
  end.

Definition settleTimers (w : World) : list Timer :=
  List.filter (fun tm => is_settle (task tm)) (timers w).

(** The cells a poll cycle writes. *)
Definition fetched (s : State) : bool * list Commit * option string :=
  (loading s, commits s, error s).

(** A timer that neither starts nor ends a poll cycle. *)
Definition bystander (tm : Timer) : Prop :=
  is_settle (task tm) = false /\ is_fetch_tick (task tm) = false.

(** The first five minutes after the mount at [t0], the first cycle
    settling [n0] ms in: before that the skeleton is shown and the cycle is
    the only one in flight; from then on the cells hold what that cycle
    gave, and until the interval fires nothing is in flight. *)
Definition first_cycle_inv (env : Env) (t0 n0 : Z) (w : World) : Prop :=
  exists s,
    component w = Some s /\
    (now w < t0 + n0 ->
     fetched s = (true, [], None) /\
     settleTimers w
       = [mkTimer (t0 + Z.of_nat (latency env 0)) None (FetchSettled 0)]) /\
    (t0 + n0 <= now w -> loading s = false) /\
    (t0 + n0 <= now w < t0 + 300000 -> settleTimers w = []) /\
    (t0 + n0 <= now w <= t0 + 300000 ->
     fetched s
     = fetched (settle (newDate env) (api env 0) (initialState t0))).

(** When the first poll cycle settles, in ms after the mount: a timer never
    fires in the millisecond it is set. *)
Definition first_settle (env : Env) : Z := Z.max 1 (Z.of_nat (latency env 0)).

(** * Properties *)

(** ** Sorting *)

Section SortFacts.
Context {A : Type}.
Variable compareFn : A -> A -> option Z.

Lemma insert_sorted_perm (x : A) (l : list A) :
  Permutation (insert_sorted compareFn x l) (x :: l).
Proof.
  induction l as [|y l IH]; simpl; [reflexivity|].
  destruct (comes_first compareFn x y); [reflexivity|].
  rewrite IH. apply perm_swap.
Qed.

Lemma js_sort_perm (l : list A) : Permutation (js_sort compareFn l) l.
Proof.
  induction l as [|x l IH]; simpl; [reflexivity|].
  rewrite insert_sorted_perm. now apply perm_skip.
Qed.

Lemma js_sort_length (l : list A) : length (js_sort compareFn l) = length l.
Proof. apply Permutation_length, js_sort_perm. Qed.

(** On a list where the comparator orders every two elements one way or the
    other, and transitively, the result is in order. *)
Variable R : A -> A -> Prop.
Variable P : A -> Prop.
Hypothesis R_trans : forall a b c, R a b -> R b c -> R a c.
Hypothesis first_R :
  forall a b, P a -> P b -> comes_first compareFn a b = true -> R a b.
Hypothesis later_R :
  forall a b, P a -> P b -> comes_first compareFn a b = false -> R b a.

Lemma insert_sorted_ordered (x : A) (l : list A) :
  P x -> Forall P l -> StronglySorted R l ->
  StronglySorted R (insert_sorted compareFn x l).
Proof.
  intros Hx HP Hs. induction Hs as [|y l Hs IH Hy]; simpl.
  - repeat constructor.
  - apply Forall_cons in HP as [Py HP].
    destruct (comes_first compareFn x y) eqn:E.
    + constructor; [now constructor|].
      constructor; [now apply first_R|].
      eapply Forall_impl; [exact Hy|].
      intros z Hz. eapply R_trans; [|exact Hz]. now apply first_R.
    + constructor; [now apply IH|].
      eapply Permutation_Forall; [symmetry; apply insert_sorted_perm|].
      constructor; [now apply later_R | exact Hy].
Qed.

Lemma js_sort_ordered (l : list A) :
  Forall P l -> StronglySorted R (js_sort compareFn l).
Proof.
  induction l as [|x l IH]; simpl; intros HP; [constructor|].
  apply Forall_cons in HP as [Px HP].
  apply insert_sorted_ordered; auto.
  eapply Permutation_Forall; [symmetry; apply js_sort_perm | exact HP].
Qed.
End SortFacts.

Lemma StronglySorted_take {A : Type} (R : A -> A -> Prop) (n : nat)
    (l : list A) :
  StronglySorted R l -> StronglySorted R (take n l).
Proof.
  intros Hs. revert n. induction Hs as [|x l Hs IH Hx]; intros [|n]; simpl;
    try constructor; auto.
  now apply Forall_take.
Qed.

(** ** The merged list *)

Lemma not_older_trans (a b c : Commit) :
  not_older a b -> not_older b c -> not_older a c.
Proof.
  intros (ta & tb & Ha & Hb & Hab) (tb' & tc & Hb' & Hc & Hbc).
  exists ta, tc. repeat split; auto.
  rewrite Hb in Hb'. injection Hb' as <-. lia.
Qed.

Lemma comes_first_not_older (a b : Commit) :
  valid_date a -> valid_date b ->
  comes_first byTimestampDesc a b = true -> not_older a b.
Proof.
  intros [ta Ha] [tb Hb]. unfold comes_first, sort_compare, byTimestampDesc.
  rewrite Ha, Hb. intros H%Z.leb_le. exists ta, tb. repeat split; auto. lia.
Qed.

Lemma comes_later_not_older (a b : Commit) :
  valid_date a -> valid_date b ->
  comes_first byTimestampDesc a b = false -> not_older b a.
Proof.
  intros [ta Ha] [tb Hb]. unfold comes_first, sort_compare, byTimestampDesc.
  rewrite Ha, Hb. intros H%Z.leb_gt. exists tb, ta. repeat split; auto. lia.
Qed.

Lemma flattenedCommits_length (allCommits : list (list Commit)) :
  (length (flattenedCommits allCommits) <= 25)%nat.
Proof. unfold flattenedCommits. rewrite length_take. lia. Qed.

Lemma flattenedCommits_descending (allCommits : list (list Commit)) :
  Forall valid_date (concat allCommits) ->
  descending (flattenedCommits allCommits).
Proof.
  intros Hv. apply StronglySorted_take.
  apply js_sort_ordered with (P := valid_date); auto.
  - apply not_older_trans.
  - apply comes_first_not_older.
  - apply comes_later_not_older.
Qed.

(** An invalid date makes the comparator NaN, and the order is lost: here
    the oldest commit stays first. *)
Example invalid_date_breaks_order :
  flattenedCommits [undatedCommits] = undatedCommits.
Proof. reflexivity. Qed.

(** What reaches [setCommits] is the merged list of the per-repository
    results. *)
Lemma fetchCommits_try_flattened newDate net response items allCommits :
  reposCall net = Return response -> ok response = true ->
  body response = Return (JArray items) ->
  mapM_from (fetchRepoCommits newDate net) 0 items = Return allCommits ->
  fetchCommits_try newDate net = Return (flattenedCommits allCommits).
Proof.
  intros H1 H2 H3 H4. unfold fetchCommits_try.
  rewrite H1. simpl. rewrite H2. simpl. rewrite H3. simpl. now rewrite H4.
Qed.

Lemma settle_success newDate net s l :
  fetchCommits_try newDate net = Return l ->
  settle newDate net s = setLoading false (setCommits l s).
Proof. intros H. unfold settle. now rewrite H. Qed.

Lemma settle_failure newDate net s e :
  fetchCommits_try newDate net = Throw e ->
  settle newDate net s =
  setLoading false (setError (Some "Failed to load commit history") s).
Proof. intros H. unfold settle. now rewrite H. Qed.

(** ** One repository *)

Lemma get_full_name (repo : json) :
  repo <> JNull -> get_prop (Some repo) "full_name" = Return (full_name repo).
Proof. intros H. destruct repo; simpl; try reflexivity. congruence. Qed.

Lemma to_primitive_ok v : primitive_ok v = true -> to_primitive v = Return tt.
Proof. intros H. unfold to_primitive. now rewrite H. Qed.

Lemma fetchRepoCommits_failed newDate net i repo :
  repository repo -> failed (commitsCall net i (full_name repo)) ->
  fetchRepoCommits newDate net i repo = Return [].
Proof.
  intros [Hr Hp] Hf. unfold fetchRepoCommits.
  rewrite (get_full_name repo Hr). simpl.
  rewrite (to_primitive_ok _ Hp). simpl.
  destruct (commitsCall net i (full_name repo)) as [response|e]; simpl in *.
  - rewrite Hf. simpl. now destruct (body response).
  - reflexivity.
Qed.



(** An entry that is no repository is another matter.  For a [null],
    reading its [full_name] throws in the [try] block and again in the
    [catch] block; for a name that does not convert, writing the URL throws
    and then writing the warning.  The promise of that entry is rejected and
    the cycle ends in the error state. *)
Lemma fetchRepoCommits_null newDate net i :
  fetchRepoCommits newDate net i JNull = Throw TypeError.
Proof. reflexivity. Qed.

Lemma fetchRepoCommits_unconverted newDate net i repo :
  primitive_ok (full_name repo) = false ->
  fetchRepoCommits newDate net i repo = Throw TypeError.
Proof.
  intros Hp. destruct repo; try discriminate. unfold fetchRepoCommits.
  simpl in *. unfold to_primitive. now rewrite Hp.
Qed.

Example null_entry_fails_cycle :
  error (settle sampleDate nullEntryNet (initialState 0))
  = Some "Failed to load commit history".
Proof. reflexivity. Qed.


(** ** The poll cycle *)

Ltac walk :=
  repeat match goal with
         | |- context [node_at _ ?p] =>
             is_var p; destruct p as [|[|[|[|?]]] p]; simpl
         | H : context [node_at _ ?p] |- _ =>
             is_var p; destruct p as [|[|[|[|?]]] p]; simpl in H
         end.

Lemma sample_cycle :
  fetchCommits_try sampleDate sampleNet = Return [c2; c1; c3].
Proof. vm_compute. reflexivity. Qed.

Lemma errorView_has_no_commit_row (msg : string) (path : list nat)
    (c : Commit) :
  node_at (errorView msg) path <> Some (commitRow c).
Proof. unfold errorView, commitRow, div, span. walk; congruence. Qed.

(** C1, in the form that holds: for every collection of per-repository
    commit results of a poll cycle, the list handed to the display is the
    flattened, sorted, truncated sequence; it has at most 25 entries, and
    when every fetched commit has a valid date it is sorted descending by
    timestamp, commits of equal timestamp allowed. *)
Theorem C1_displayed_list_bounded_descending
    newDate net response items allCommits s :
  reposCall net = Return response -> ok response = true ->
  body response = Return (JArray items) ->
  mapM_from (fetchRepoCommits newDate net) 0 items = Return allCommits ->
  commits (settle newDate net s) = flattenedCommits allCommits /\
  (length (commits (settle newDate net s)) <= 25)%nat /\
  (Forall valid_date (concat allCommits) ->
   descending (commits (settle newDate net s))).
Proof.
  intros H1 H2 H3 H4.
  rewrite (settle_success _ _ _ _
             (fetchCommits_try_flattened _ _ _ _ _ H1 H2 H3 H4)).
  simpl. split; [reflexivity|]. split.
  - apply flattenedCommits_length.
  - apply flattenedCommits_descending.
Qed.

(** C1 on the sample API. *)
Lemma C1_displayed_list_witness :
  commits (settle sampleDate sampleNet (initialState 0)) = [c2; c1; c3] /\
  descending (commits (settle sampleDate sampleNet (initialState 0))).
Proof.
  destruct (C1_displayed_list_bounded_descending sampleDate sampleNet
              (mkResponse true 200
                 (Return (JArray [sampleRepo "a/x"; sampleRepo "b/y"])))
              [sampleRepo "a/x"; sampleRepo "b/y"] [[]; [c1; c2; c3]]
              (initialState 0) eq_refl eq_refl eq_refl eq_refl)
    as (Heq & _ & Hsorted).
  split.
  - rewrite Heq. vm_compute. reflexivity.
  - apply Hsorted. simpl. repeat constructor; eexists; reflexivity.
Defined.

(** C1 as stated fails: two commits of one timestamp are both displayed, so
    the list is not strictly descending. *)
Lemma C1_counterexample_equal_timestamps :
  commits (settle sampleDate sampleNet (initialState 0)) = [c2; c1; c3] /\
  ~ strictly_descending
      (commits (settle sampleDate sampleNet (initialState 0))).
Proof.
  assert (E : commits (settle sampleDate sampleNet (initialState 0))
              = [c2; c1; c3]) by (vm_compute; reflexivity).
  split; [exact E|]. rewrite E. unfold strictly_descending. intros H.
  inversion H as [|? ? Htail _]; subst.
  inversion Htail as [|? ? _ Hhd]; subst.
  inversion Hhd as [|? ? (ta & tb & Ha & Hb & Hlt)]; subst.
  simpl in Ha, Hb. injection Ha as <-. injection Hb as <-. lia.
Qed.




(** C3: when the repository-list call returns a payload that is not a
    sequence, the cycle takes its [catch] branch, the widget shows the error
    view with the static message, and no commit entry is rendered. *)
Theorem C3_non_sequence_payload_gives_error_view
    newDate net props response payload s :
  reposCall net = Return response ->
  body response = Return payload ->
  not_a_sequence payload ->
  (exists e, fetchCommits_try newDate net = Throw e) /\
  loading (settle newDate net s) = false /\
  error (settle newDate net s) = Some "Failed to load commit history" /\
  render props (settle newDate net s)
    = errorView "Failed to load commit history" /\
  (forall path c,
     node_at (render props (settle newDate net s)) path <> Some (commitRow c)).
Proof.
  intros H1 H2 Hshape.
  assert (Hthrow : exists e, fetchCommits_try newDate net = Throw e).
  { unfold fetchCommits_try. rewrite H1. simpl.
    destruct (ok response); simpl; [|eauto].
    rewrite H2. simpl. destruct payload; eauto.
    now destruct (Hshape items). }
  destruct Hthrow as [e He]. rewrite (settle_failure _ _ _ _ He).
  split; [eauto|]. repeat split.
  intros path c. apply errorView_has_no_commit_row.
Qed.

(** C3 on a repository list that comes back as an object. *)
Lemma C3_non_sequence_payload_witness :
  render (mkProps None) (settle sampleDate objectNet (initialState 0))
  = errorView "Failed to load commit history".
Proof.
  refine (proj1 (proj2 (proj2 (proj2
    (C3_non_sequence_payload_gives_error_view sampleDate objectNet
       (mkProps None)
       (mkResponse true 200
          (Return (JObject [("message", JString "Bad credentials")])))
       (JObject [("message", JString "Bad credentials")])
       (initialState 0) eq_refl eq_refl _))))).
  intros items. discriminate.
Defined.

(** C4, in the form that holds: a poll cycle that completes successfully
    updates the displayed commit list and clears the loading state, and
    leaves the error state as it was; an error view entered by an earlier
    failed cycle stays after it. *)
Theorem C4_success_keeps_error_state newDate net props s l :
  fetchCommits_try newDate net = Return l ->
  commits (settle newDate net s) = l /\
  loading (settle newDate net s) = false /\
  error (settle newDate net s) = error s /\
  (truthy (error s) = true ->
   render props (settle newDate net s)
     = errorView (default EmptyString (error s))).
Proof.
  intros H. rewrite (settle_success _ _ _ _ H). simpl. repeat split.
  intros He. unfold render. simpl. now rewrite He.
Qed.

(** C4 on the sample API, from the initial state. *)
Lemma C4_success_keeps_error_witness :
  commits (settle sampleDate sampleNet (initialState 0)) = [c2; c1; c3] /\
  loading (settle sampleDate sampleNet (initialState 0)) = false /\
  error (settle sampleDate sampleNet (initialState 0)) = None.
Proof.
  destruct (C4_success_keeps_error_state sampleDate sampleNet (mkProps None)
              (initialState 0) [c2; c1; c3] sample_cycle)
    as (H1 & H2 & H3 & _).
  auto.
Defined.

(** C4 as stated fails: after a failed cycle, a successful one leaves the
    error set and the error view on screen. *)
Lemma C4_counterexample_error_survives_success :
  fetchCommits_try sampleDate sampleNet = Return [c2; c1; c3] /\
  error (settle sampleDate sampleNet
           (settle sampleDate objectNet (initialState 0)))
    = Some "Failed to load commit history" /\
  render (mkProps None)
    (settle sampleDate sampleNet
       (settle sampleDate objectNet (initialState 0)))
    = errorView "Failed to load commit history".
Proof. repeat split; vm_compute; reflexivity. Qed.

Ltac bool_arith :=
  repeat match goal with
         | |- context [?a <=? ?b] => destruct (Z.leb_spec a b)
         | |- context [?a <? ?b] => destruct (Z.ltb_spec a b)
         | |- context [?a =? ?b] => destruct (Z.eqb_spec a b)
         end;
  simpl; try reflexivity; try lia; try discriminate.

(** ** Clicks on the rendered tree *)

Lemma inert_element tag cls d kids :
  Forall inert kids -> inert (Element tag cls None d kids).
Proof.
  intros Hk [|i path] t c h d' k; simpl.
  - congruence.
  - destruct (kids !! i) as [child|] eqn:E; [|discriminate].
    intros H. eapply (Forall_lookup_1 _ _ _ _ Hk E), H.
Qed.

Lemma inert_leaf n :
  (forall tag cls h d kids, n <> Element tag cls h d kids) -> inert n.
Proof.
  intros Hn [|i path] t c h d k; simpl.
  - intros [= ->]. now destruct (Hn t c h d k).
  - destruct n; try discriminate.
    now destruct (Hn tag className onClick disabled children).
Qed.

Ltac inert_tac :=
  repeat first
    [ apply inert_element
    | match goal with |- Forall _ _ => constructor end
    | apply inert_leaf; discriminate ].

Lemma inert_titleLabel s : inert (titleLabel s).
Proof. unfold titleLabel, div, span. inert_tac. Qed.

Lemma inert_commitRow c : inert (commitRow c).
Proof. unfold commitRow, div, span. inert_tac. Qed.

Lemma inert_skeletonRow : inert skeletonRow.
Proof. unfold skeletonRow, div. inert_tac. Qed.

Lemma inert_rows cs : inert (div (map commitRow cs)).
Proof.
  apply inert_element, Forall_forall. intros n Hn.
  apply list_elem_of_fmap in Hn as (c & -> & _). apply inert_commitRow.
Qed.

Lemma inert_skeleton k : inert (div (repeat skeletonRow k)).
Proof.
  apply inert_element, Forall_forall. intros n Hn%list_elem_of_In.
  apply repeat_spec in Hn as ->. apply inert_skeletonRow.
Qed.

Lemma inert_child tag cls h d kids i child :
  inert (Element tag cls h d kids) -> kids !! i = Some child -> inert child.
Proof.
  intros Hn E path t c h' d' k H. apply (Hn (i :: path) t c h' d' k).
  simpl. now rewrite E.
Qed.

Lemma bubble_inert n here rest clicked :
  inert n -> bubble n here rest clicked = [].
Proof.
  revert n here. induction rest as [|i rest IH]; intros n here Hn;
    destruct n as [t c h d kids| | | |]; simpl; auto.
  - now rewrite (Hn [] t c h d kids eq_refl).
  - rewrite (Hn [] t c h d kids eq_refl).
    destruct (kids !! i) as [child|] eqn:E; [|reflexivity].
    rewrite (IH child); [reflexivity|]. eapply inert_child; eauto.
Qed.

Lemma click_inert n path : inert n -> click n path = [].
Proof.
  intros Hn. unfold click.
  destruct (node_at n path) as [[? ? ? [] ?| | | |]|]; auto using bubble_inert.
Qed.

Lemma handleClickOutside_backdrop props path :
  handleClickOutside props (mkMouseEvent path path) = closeActions props.
Proof.
  unfold handleClickOutside, closeActions. simpl.
  destruct (onClose props); [|reflexivity]. now rewrite decide_True.
Qed.

Lemma handleClickOutside_inside props i path :
  handleClickOutside props (mkMouseEvent (i :: path) []) = [].
Proof.
  unfold handleClickOutside. simpl.
  destruct (onClose props); reflexivity.
Qed.

Ltac decide_paths :=
  repeat first [ rewrite decide_True by reflexivity
               | rewrite decide_False by discriminate ].

Ltac settle_click :=
  decide_paths;
  cbn [node_at bubble lookup list_lookup div span app closeButton];
  rewrite ?handleClickOutside_inside, ?handleClickOutside_backdrop;
  try (rewrite !bubble_inert by assumption);
  repeat match goal with
         | |- context [match node_at ?n ?p with _ => _ end] =>
             destruct (node_at n p) as [[? ? ? [] ?| | | |]|]
         end;
  try reflexivity.

Lemma click_layout props cls label h dis glyph content path :
  inert label -> inert content ->
  click (layout props cls label h dis glyph content) path =
    if decide (path = []) then closeActions props
    else if decide (path = closeGlyph) then closeActions props
    else if decide (path = fullscreenButton) then
      (if dis then []
       else match h with
            | Some f => f (mkMouseEvent fullscreenButton fullscreenButton)
            | None => []
            end)
    else [].
Proof.
  intros Hlabel Hcontent. unfold click, layout, closeGlyph, fullscreenButton.
  destruct path as [|[|?] p1]; [settle_click| |settle_click].
  destruct p1 as [|[|[|?]] p2]; [settle_click| |settle_click..].
  destruct p2 as [|[|[|?]] p3]; [settle_click..| |settle_click].
  destruct p3 as [|[|[|?]] [|[|?] [|? ?]]]; settle_click.
  all: destruct dis, h; rewrite ?app_nil_r; reflexivity.
Qed.

Lemma loadingView_layout props s :
  loadingView props s =
  layout props (panelClass s) (titleLabel s) None true
    (if isFullscreen s then "□" else "⊡") (div (repeat skeletonRow 10)).
Proof. reflexivity. Qed.

Lemma normalView_layout props s :
  normalView props s =
  layout props (panelClass s) (titleLabel s)
    (Some (fun _ => [SetIsFullscreen (negb (isFullscreen s))])) false
    (if isFullscreen s then "□" else "⊡") (div (map commitRow (commits s))).
Proof. reflexivity. Qed.

Lemma inert_errorView msg : inert (errorView msg).
Proof. unfold errorView, div, span. inert_tac. Qed.

Lemma click_minimizedView path :
  click minimizedView path
  = if decide (path = []) then [SetIsMinimized false] else [].
Proof. destruct path as [|[|?] [|? ?]]; reflexivity. Qed.

Lemma render_view props s :
  render props s =
  match view s with
  | Loading => loadingView props s
  | Error => errorView (default EmptyString (error s))
  | Minimized => minimizedView
  | Normal => normalView props s
  end.
Proof.
  unfold render, view.
  destruct (loading s), (truthy (error s)), (isMinimized s); reflexivity.
Qed.

(** What a click does, by view and by the element clicked. *)
Lemma click_render props s path :
  click (render props s) path =
  match view s with
  | Loading =>
      if decide (path = []) then closeActions props
      else if decide (path = closeGlyph) then closeActions props
      else []
  | Error => []
  | Minimized => if decide (path = []) then [SetIsMinimized false] else []
  | Normal =>
      if decide (path = []) then closeActions props
      else if decide (path = closeGlyph) then closeActions props
      else if decide (path = fullscreenButton)
           then [SetIsFullscreen (negb (isFullscreen s))]
      else []
  end.
Proof.
  rewrite render_view. destruct (view s).
  - rewrite loadingView_layout, click_layout
      by auto using inert_titleLabel, inert_skeleton.
    repeat case_decide; reflexivity.
  - apply click_inert, inert_errorView.
  - apply click_minimizedView.
  - rewrite normalView_layout, click_layout
      by auto using inert_titleLabel, inert_rows.
    reflexivity.
Qed.

Lemma invocations_closeActions props :
  invocations (closeActions props)
  = match onClose props with Some f => [f] | None => [] end.
Proof. unfold closeActions. now destruct (onClose props). Qed.

Lemma perform_closeActions props s : perform (closeActions props) s = s.
Proof. unfold closeActions. now destruct (onClose props). Qed.

Lemma perform_listen l key s : perform (listen l key) s = s.
Proof.
  destruct l as [p]. simpl. unfold handleEscapeKey.
  destruct (String.eqb key "Escape"), (onClose p); reflexivity.
Qed.

Lemma perform_app a b s : perform (a ++ b) s = perform b (perform a s).
Proof. apply foldl_app. Qed.

Lemma perform_listeners ls key s :
  perform (concat (map (fun l => listen l key) ls)) s = s.
Proof.
  induction ls as [|l ls IH]; simpl; [reflexivity|].
  now rewrite perform_app, perform_listen.
Qed.

Lemma act_view a s :
  loading (act a s) = loading s /\ error (act a s) = error s /\
  commits (act a s) = commits s.
Proof. now destruct a. Qed.

Lemma perform_view actions s :
  loading (perform actions s) = loading s /\
  error (perform actions s) = error s /\
  commits (perform actions s) = commits s.
Proof.
  unfold perform. revert s.
  induction actions as [|a l IH]; intros s; simpl; [auto|].
  destruct (IH (act a s)) as (-> & -> & ->). apply act_view.
Qed.

Lemma view_unminimized s :
  view s = Minimized ->
  view (setIsMinimized false s) = Normal.
Proof.
  unfold view. simpl.
  destruct (loading s), (truthy (error s)), (isMinimized s); congruence.
Qed.

Lemma view_setIsFullscreen v s : view (setIsFullscreen v s) = view s.
Proof. reflexivity. Qed.

Lemma afterClick_cases props path s :
  afterClick props path s =
  match view s with
  | Loading | Error => s
  | Minimized => if decide (path = []) then setIsMinimized false s else s
  | Normal =>
      if decide (path = fullscreenButton)
      then setIsFullscreen (negb (isFullscreen s)) s
      else s
  end.
Proof.
  unfold afterClick. rewrite click_render.
  destruct (view s); repeat case_decide; subst;
    rewrite ?perform_closeActions; try reflexivity; discriminate.
Qed.

Lemma afterKey_same props key s : afterKey props key s = s.
Proof. apply (perform_listen (EscapeListener props)). Qed.

Lemma invocations_click props path s :
  invocations (click (render props s) path) =
  match view s with
  | Loading | Normal =>
      if decide (path = [] \/ path = closeGlyph)
      then match onClose props with Some f => [f] | None => [] end
      else []
  | _ => []
  end.
Proof.
  rewrite click_render.
  destruct (view s); repeat case_decide;
    rewrite ?invocations_closeActions; try reflexivity; tauto.
Qed.

Lemma invocations_handleEscapeKey props key :
  invocations (handleEscapeKey props key) =
  if String.eqb key "Escape"
  then match onClose props with Some f => [f] | None => [] end
  else [].
Proof.
  unfold handleEscapeKey.
  destruct (String.eqb key "Escape"), (onClose props); reflexivity.
Qed.

Lemma node_at_closeGlyph props s :
  view s = Loading \/ view s = Normal ->
  node_at (render props s) closeGlyph = Some (closeButton props).
Proof. rewrite render_view. intros [-> | ->]; reflexivity. Qed.

Lemma errorView_elements msg path tag cls h d kids :
  node_at (errorView msg) path = Some (Element tag cls h d kids) ->
  h = None /\ tag <> "button".
Proof.
  unfold errorView, div, span. intros H. walk;
    try discriminate; injection H as <- <- <- <- <-; split; congruence.
Qed.

(** ** The mounted component *)

(** *** State updates *)

Lemma now_setState f w : now (setState f w) = now w.
Proof. unfold setState. destruct (component w); reflexivity. Qed.
Lemma timers_setState f w : timers (setState f w) = timers w.
Proof. unfold setState. destruct (component w); reflexivity. Qed.
Lemma cycles_setState f w : cycles (setState f w) = cycles w.
Proof. unfold setState. destruct (component w); reflexivity. Qed.
Lemma called_setState f w : called (setState f w) = called w.
Proof. unfold setState. destruct (component w); reflexivity. Qed.
Lemma listeners_setState f w :
  keydown_listeners (setState f w) = keydown_listeners w.
Proof. unfold setState. destruct (component w); reflexivity. Qed.
Lemma component_setState f w : component (setState f w) = f <$> component w.
Proof.
  unfold setState. destruct (component w) eqn:E; simpl; [reflexivity|].
  now rewrite E.
Qed.

(** An update that leaves [isFullscreen] alone runs no effect. *)
Lemma body_style_setState f w :
  (forall s, isFullscreen (f s) = isFullscreen s) ->
  body_style (setState f w) = body_style w.
Proof.
  intros Hf. unfold setState. destruct (component w) as [s|]; [|reflexivity].
  simpl. now rewrite Hf, Bool.eqb_reflx.
Qed.

Section WorldFacts.
Variable env : Env.

Lemma settle_fullscreen (newDate : jsval -> Date) n s :
  isFullscreen (settle newDate n s) = isFullscreen s.
Proof. unfold settle. now destruct (fetchCommits_try newDate n). Qed.
Lemma settle_minimized (newDate : jsval -> Date) n s :
  isMinimized (settle newDate n s) = isMinimized s.
Proof. unfold settle. now destruct (fetchCommits_try newDate n). Qed.
Lemma settle_blinking (newDate : jsval -> Date) n s :
  isBlinking (settle newDate n s) = isBlinking s.
Proof. unfold settle. now destruct (fetchCommits_try newDate n). Qed.
Lemma settle_lastUpdated (newDate : jsval -> Date) n s :
  lastUpdated (settle newDate n s) = lastUpdated s.
Proof. unfold settle. now destruct (fetchCommits_try newDate n). Qed.

Lemma task_update_fullscreen t k s :
  isFullscreen (task_update env t k s) = isFullscreen s.
Proof. destruct k; simpl; auto using settle_fullscreen. Qed.
Lemma task_update_minimized t k s :
  isMinimized (task_update env t k s) = isMinimized s.
Proof. destruct k; simpl; auto using settle_minimized. Qed.

Lemma now_fire tm w : now (fire env tm w) = now w.
Proof.
  unfold fire, callback_of, fetchCommits, addTimer.
  destruct (task tm), (every tm); simpl; now rewrite ?now_setState.
Qed.
Lemma listeners_fire tm w :
  keydown_listeners (fire env tm w) = keydown_listeners w.
Proof.
  unfold fire, callback_of, fetchCommits, addTimer.
  destruct (task tm), (every tm); simpl; now rewrite ?listeners_setState.
Qed.
Lemma called_fire tm w : called (fire env tm w) = called w.
Proof.
  unfold fire, callback_of, fetchCommits, addTimer.
  destruct (task tm), (every tm); simpl; now rewrite ?called_setState.
Qed.
Lemma component_fire tm w :
  component (fire env tm w) = task_update env (now w) (task tm) <$> component w.
Proof.
  unfold fire, callback_of, fetchCommits, addTimer.
  destruct (task tm), (every tm); simpl;
    rewrite ?component_setState; simpl; now destruct (component w).
Qed.
Lemma body_style_fire tm w : body_style (fire env tm w) = body_style w.
Proof.
  unfold fire, callback_of, fetchCommits, addTimer.
  destruct (task tm), (every tm); simpl;
    rewrite ?body_style_setState; auto using settle_fullscreen.
Qed.
Lemma timers_fire tm w :
  timers (fire env tm w) =
  timers w ++ rearmed tm ++ spawned env (now w) (cycles w) (task tm).
Proof.
  unfold fire, callback_of, fetchCommits, addTimer, rearmed, spawned.
  destruct (task tm), (every tm); simpl;
    rewrite ?timers_setState, ?now_setState, ?cycles_setState; simpl;
    rewrite <- ?app_assoc, ?app_nil_r; reflexivity.
Qed.
End WorldFacts.

Section TickFacts.
Variable env : Env.

Lemma filter_rearmed f tm :
  List.filter (fun x => f (task x)) (rearmed tm)
  = if f (task tm) then rearmed tm else [].
Proof.
  unfold rearmed. destruct (every tm); simpl; now destruct (f (task tm)).
Qed.

Lemma blink_part_fire tm w :
  blink_part (fire env tm w) = fire_blink (now w) (blink_part w) tm.
Proof.
  unfold blink_part, blink_state, blinkTimers, fire_blink.
  rewrite component_fire, timers_fire, !List.filter_app, filter_rearmed.
  destruct (component w) as [s|]; destruct (task tm) eqn:E; simpl;
    rewrite ?app_nil_r, ?settle_blinking, ?settle_lastUpdated; reflexivity.
Qed.

Lemma now_fired ds w : now (foldl (fun w tm => fire env tm w) w ds) = now w.
Proof.
  revert w. induction ds as [|tm ds IH]; intros w; simpl; [reflexivity|].
  now rewrite IH, now_fire.
Qed.

Lemma blink_part_fired ds w :
  blink_part (foldl (fun w tm => fire env tm w) w ds)
  = foldl (fire_blink (now w)) (blink_part w) ds.
Proof.
  revert w. induction ds as [|tm ds IH]; intros w; simpl; [reflexivity|].
  now rewrite IH, now_fire, blink_part_fire.
Qed.

Lemma fire_blink_filter t b ds :
  foldl (fire_blink t) b ds
  = foldl (fire_blink t) b (List.filter (fun tm => is_blink (task tm)) ds).
Proof.
  revert b. induction ds as [|tm ds IH]; intros b; simpl; [reflexivity|].
  destruct (is_blink (task tm)) eqn:E; simpl; [apply IH|].
  rewrite IH. unfold fire_blink at 2. now destruct (task tm).
Qed.

Lemma filter_comm {A} (f g : A -> bool) l :
  List.filter f (List.filter g l) = List.filter g (List.filter f l).
Proof.
  induction l as [|x l IH]; simpl; [reflexivity|].
  destruct (f x) eqn:Ef, (g x) eqn:Eg; simpl; rewrite ?Ef, ?Eg, IH; reflexivity.
Qed.

Lemma now_elapse w : now (elapse env w) = now w + 1.
Proof. unfold elapse. now rewrite now_fired. Qed.

Lemma blink_part_elapse w :
  blink_part (elapse env w) =
  foldl (fire_blink (now w + 1))
    (blink_state w,
     List.filter (fun tm => negb (due tm <=? now w + 1)) (blinkTimers w))
    (List.filter (fun tm => due tm <=? now w + 1) (blinkTimers w)).
Proof.
  unfold elapse. rewrite blink_part_fired, fire_blink_filter. simpl.
  unfold blinkTimers. f_equal.
  - unfold blink_part, blinkTimers. simpl. f_equal. apply filter_comm.
  - apply filter_comm.
Qed.

Lemma static_part_fire tm w : static_part (fire env tm w) = static_part w.
Proof.
  unfold static_part.
  rewrite component_fire, body_style_fire, listeners_fire, called_fire.
  destruct (component w); simpl; [|reflexivity].
  now rewrite task_update_fullscreen, task_update_minimized.
Qed.

Lemma static_part_elapse w : static_part (elapse env w) = static_part w.
Proof.
  unfold elapse.
  match goal with
  | |- static_part (foldl _ ?w0 ?ds) = _ =>
      transitivity (static_part w0); [|reflexivity]; generalize w0, ds
  end.
  intros w0 ds. revert w0.
  induction ds as [|tm ds IH]; intros w0; simpl; [reflexivity|].
  now rewrite IH, static_part_fire.
Qed.

Lemma blink_state_Some w b l :
  blink_state w = Some (b, l) ->
  exists s, component w = Some s /\ isBlinking s = b /\ lastUpdated s = l.
Proof.
  unfold blink_state. destruct (component w) as [s|]; simpl; [|discriminate].
  intros [= <- <-]. eauto.
Qed.

Lemma blink_inv_elapse t0 w : blink_inv t0 w -> blink_inv t0 (elapse env w).
Proof.
  intros (k & s & Hk & Hs & Hnow & Hb & Hl & Ht).
  pose proof (blink_part_elapse w) as H. rewrite Ht in H.
  unfold blink_state in H. rewrite Hs in H. simpl in H.
  unfold blink_part in H. unfold blink_inv. rewrite now_elapse.
  destruct (Z.leb_spec (t0 + 3000 * (k + 1)) (now w + 1)) as [Hd|Hd];
    simpl in H.
  - (* the interval falls due *)
    assert (Hoff : isBlinking s = false) by (rewrite Hb; bool_arith).
    rewrite Hoff in H. simpl in H. unfold fire_blink, rearmed in H. simpl in H.
    injection H as Hst Ht'.
    apply blink_state_Some in Hst as (s' & Hs' & Hb' & Hl').
    exists (k + 1), s'. rewrite Hb', Hl', Ht'.
    split; [lia|]. split; [exact Hs'|]. split; [lia|].
    split; [bool_arith|]. split; [bool_arith|]. simpl.
    repeat (f_equal; try lia).
  - destruct (isBlinking s) eqn:Hon; simpl in H.
    + apply eq_sym, andb_true_iff in Hb as [Hk1%Z.leb_le Hlt%Z.ltb_lt].
      destruct (Z.leb_spec (t0 + 3000 * k + 1000) (now w + 1)) as [Hd2|Hd2];
        simpl in H.
      * (* the indicator goes off *)
        unfold fire_blink, rearmed in H. simpl in H.
        injection H as Hst Ht'.
        apply blink_state_Some in Hst as (s' & Hs' & Hb' & Hl').
        exists k, s'. rewrite Hb', Hl', Ht'.
        split; [lia|]. split; [exact Hs'|]. split; [lia|].
        split; [bool_arith|]. split; [exact Hl|reflexivity].
      * injection H as Hst Ht'.
        apply blink_state_Some in Hst as (s' & Hs' & Hb' & Hl').
        exists k, s'. rewrite Hb', Hl', Ht'.
        split; [lia|]. split; [exact Hs'|]. split; [lia|].
        split; [bool_arith|]. split; [exact Hl|reflexivity].
    + injection H as Hst Ht'.
      apply blink_state_Some in Hst as (s' & Hs' & Hb' & Hl').
      exists k, s'. rewrite Hb', Hl', Ht'.
      split; [lia|]. split; [exact Hs'|]. split; [lia|].
      split; [|split; [exact Hl|reflexivity]].
      revert Hb. bool_arith.
Qed.
End TickFacts.

Lemma act_blinking a s : isBlinking (act a s) = isBlinking s.
Proof. now destruct a. Qed.
Lemma act_lastUpdated a s : lastUpdated (act a s) = lastUpdated s.
Proof. now destruct a. Qed.

Lemma perform_blinking actions s :
  isBlinking (perform actions s) = isBlinking s.
Proof.
  unfold perform. revert s.
  induction actions as [|a l IH]; intros s; simpl; [reflexivity|].
  now rewrite IH, act_blinking.
Qed.
Lemma perform_lastUpdated actions s :
  lastUpdated (perform actions s) = lastUpdated s.
Proof.
  unfold perform. revert s.
  induction actions as [|a l IH]; intros s; simpl; [reflexivity|].
  now rewrite IH, act_lastUpdated.
Qed.

(** No click handler of the component minimizes it. *)
Lemma click_keeps_unminimized props s path :
  isMinimized s = false ->
  isMinimized (perform (click (render props s) path) s) = false.
Proof.
  intros Hm. rewrite click_render.
  destruct (view s); repeat case_decide;
    rewrite ?perform_closeActions; auto.
Qed.

Lemma fullscreenEffect_overflow b style :
  fullscreenEffect b (fullscreenCleanup style) !! "overflow"
  = Some (if b then "hidden" else "auto").
Proof.
  unfold fullscreenEffect. destruct b; now rewrite lookup_insert_eq.
Qed.

Lemma fullscreenEffect_frame b style k :
  k <> "overflow" ->
  fullscreenEffect b (fullscreenCleanup style) !! k = style !! k.
Proof.
  intros Hk. unfold fullscreenEffect, fullscreenCleanup.
  destruct b; now rewrite !lookup_insert_ne.
Qed.

Lemma fullscreenCleanup_overflow style :
  fullscreenCleanup style !! "overflow" = Some "auto".
Proof. apply lookup_insert_eq. Qed.

Lemma fullscreenCleanup_frame style k :
  k <> "overflow" -> fullscreenCleanup style !! k = style !! k.
Proof. intros Hk. unfold fullscreenCleanup. now rewrite lookup_insert_ne. Qed.

Lemma static_inv_setState props style0 ls0 f w :
  (forall s, isMinimized s = false -> isMinimized (f s) = false) ->
  static_inv props style0 ls0 w -> static_inv props style0 ls0 (setState f w).
Proof.
  intros Hf (s & Hs & Hm & Ho & Hfr & Hl). exists (f s).
  unfold setState. rewrite Hs. simpl.
  split; [reflexivity|]. split; [auto|].
  destruct (Bool.eqb (isFullscreen s) (isFullscreen (f s))) eqn:E.
  - apply Bool.eqb_prop in E. rewrite <- E. auto.
  - split; [apply fullscreenEffect_overflow|]. split; [|exact Hl].
    intros k Hk. rewrite fullscreenEffect_frame by exact Hk. auto.
Qed.

Lemma static_inv_record_calls props style0 ls0 fs w :
  static_inv props style0 ls0 w ->
  static_inv props style0 ls0 (record_calls fs w).
Proof. intros (s & H). exists s. exact H. Qed.

(** *** What React renders *)

Lemma renderable_rows cs :
  forallb renderable (map commitRow cs)
  = forallb (fun c => child_ok (repo c) && child_ok (message c)) cs.
Proof.
  induction cs as [|c cs IH]; [reflexivity|].
  cbn [map forallb]. rewrite IH. f_equal.
  unfold commitRow, div, span, child_ok. simpl.
  destruct (repo c) as [r|], (message c) as [m|]; simpl;
    try destruct (valid_child r); try destruct (valid_child m); reflexivity.
Qed.

Lemma keyed_rows cs :
  mapM (fun c => to_primitive (id c)) cs
  = if forallb (fun c => primitive_ok (id c)) cs
    then Return (map (fun _ => tt) cs)
    else Throw TypeError.
Proof.
  induction cs as [|c cs IH]; [reflexivity|].
  cbn [mapM forallb map]. unfold to_primitive at 1.
  destruct (primitive_ok (id c)); simpl; [|reflexivity].
  rewrite IH. now destruct (forallb _ cs).
Qed.

Lemma forallb_showable cs :
  forallb showable cs
  = forallb (fun c => primitive_ok (id c)) cs
    && forallb (fun c => child_ok (repo c) && child_ok (message c)) cs.
Proof.
  induction cs as [|c cs IH]; [reflexivity|].
  cbn [forallb]. rewrite IH. unfold showable.
  destruct (primitive_ok (id c)), (child_ok (repo c)), (child_ok (message c)),
    (forallb (fun c => primitive_ok (id c)) cs); reflexivity.
Qed.

(** Only the rows of the normal view hold values of the payload. *)
Lemma renders_view props s :
  renders props s
  = match view s with
    | Normal => forallb showable (commits s)
    | _ => true
    end.
Proof.
  unfold renders, GitHistory, view.
  destruct (loading s); [reflexivity|].
  destruct (truthy (error s)); [reflexivity|].
  destruct (isMinimized s); [reflexivity|].
  unfold keyed. rewrite keyed_rows, forallb_showable.
  destruct (forallb (fun c => primitive_ok (id c)) (commits s));
    [|reflexivity].
  unfold normalView, div. cbn [bind renderable forallb].
  rewrite renderable_rows. simpl. now rewrite !andb_true_r.
Qed.

(** What is rendered is the tree of [render]. *)
Lemma GitHistory_render props s tree :
  GitHistory props s = Return tree -> tree = render props s.
Proof.
  unfold GitHistory, render.
  destruct (loading s); [now intros [= <-]|].
  destruct (truthy (error s)); [now intros [= <-]|].
  destruct (isMinimized s); [now intros [= <-]|].
  destruct (keyed s); simpl; [now intros [= <-]|discriminate].
Qed.

Lemma renders_afterClick props path s :
  isMinimized s = false ->
  renders props (afterClick props path s) = renders props s.
Proof.
  intros Hm. rewrite afterClick_cases.
  destruct (view s) eqn:Hv; try reflexivity.
  - unfold view in Hv. rewrite Hm in Hv.
    destruct (loading s), (truthy (error s)); discriminate.
  - case_decide; [|reflexivity].
    now rewrite !renders_view, view_setIsFullscreen.
Qed.

(** *** One-shot timers *)

Lemma cycles_fire env tm w :
  cycles (fire env tm w)
  = if is_fetch_tick (task tm) then S (cycles w) else cycles w.
Proof.
  unfold fire, callback_of, fetchCommits, addTimer.
  destruct (task tm), (every tm); simpl; now rewrite ?cycles_setState.
Qed.

Lemma one_shot_fire env tm w :
  one_shot tm -> Forall one_shot (timers w) ->
  Forall one_shot (timers (fire env tm w)) /\
  cycles (fire env tm w) = cycles w.
Proof.
  intros [Hb Hf] Hw. rewrite timers_fire, cycles_fire. split.
  - apply Forall_app. split; [exact Hw|]. apply Forall_app. split.
    + unfold rearmed. destruct (every tm); repeat constructor; auto.
    + destruct (task tm); simpl; repeat constructor; simpl; congruence.
  - destruct (task tm); simpl; congruence.
Qed.

Lemma Forall_List_filter {A : Type} (P : A -> Prop) (f : A -> bool) l :
  Forall P l -> Forall P (List.filter f l).
Proof.
  induction 1 as [|x l Hx _ IH]; simpl; [constructor|].
  destruct (f x); [constructor|]; auto.
Qed.

Lemma unmount_timers env w :
  is_Some (component w) -> Forall one_shot (timers (unmount env w)).
Proof.
  intros [s Hs]. unfold unmount. rewrite Hs. simpl.
  induction (timers w) as [|tm l IH]; simpl; [constructor|].
  destruct (bool_decide (task tm = FetchTick)) eqn:Hf; simpl; [exact IH|].
  destruct (bool_decide (task tm = BlinkTick)) eqn:Hb; simpl; [exact IH|].
  apply bool_decide_eq_false in Hf, Hb. constructor; [now split|exact IH].
Qed.

Section RunFacts.
Variable env : Env.

Lemma step_Tick w : step env w Tick = tick env w.
Proof. reflexivity. Qed.
Lemma step_Click w path : step env w (Click path) = userClick env path w.
Proof. reflexivity. Qed.
Lemma step_KeyDown w key : step env w (KeyDown key) = keyDown key w.
Proof. reflexivity. Qed.

Lemma advance_Tick w : advance env w Tick = elapse env w.
Proof. reflexivity. Qed.
Lemma advance_Click w path : advance env w (Click path) = handled env path w.
Proof. reflexivity. Qed.
Lemma advance_KeyDown w key : advance env w (KeyDown key) = keyDown key w.
Proof. reflexivity. Qed.

Lemma run_snoc events e w :
  run env (events ++ [e]) w = step env (run env events w) e.
Proof. unfold run. now rewrite foldl_app. Qed.

Lemma setState_id f w : (forall s, f s = s) -> setState f w = w.
Proof.
  intros Hf. unfold setState. destruct w as [n [s|] b k t c cl]; simpl; auto.
  now rewrite Hf, Bool.eqb_reflx.
Qed.

Lemma keyDown_calls key w :
  keyDown key w
  = record_calls
      (invocations (concat (map (fun l => listen l key) (keydown_listeners w))))
      w.
Proof.
  unfold keyDown. f_equal. apply setState_id. intros s. apply perform_listeners.
Qed.

(** *** A render that succeeds changes nothing *)

Lemma rerender_renders w s :
  component w = Some s ->
  rerender env w = if renders (props env) s then w else unmount env w.
Proof.
  intros Hs. unfold rerender, renders. rewrite Hs.
  now destruct (GitHistory (props env) s).
Qed.

Lemma rerender_id w s :
  component w = Some s -> renders (props env) s = true ->
  rerender env w = w.
Proof. intros Hs Hr. now rewrite (rerender_renders w s Hs), Hr. Qed.

Lemma rerender_None w : component w = None -> rerender env w = w.
Proof. intros Hs. unfold rerender. now rewrite Hs. Qed.

Lemma rerender_mounted w s :
  component (rerender env w) = Some s ->
  rerender env w = w /\ renders (props env) s = true.
Proof.
  destruct (component w) as [s0|] eqn:Hs0.
  - rewrite (rerender_renders w s0 Hs0).
    destruct (renders (props env) s0) eqn:Hr.
    + rewrite Hs0. intros [= <-]. auto.
    + unfold unmount. rewrite Hs0. discriminate.
  - rewrite (rerender_None w Hs0), Hs0. discriminate.
Qed.

(** A render that fails runs the cleanups. *)
Lemma rerender_unmounts w s :
  component w = Some s -> component (rerender env w) = None ->
  rerender env w = unmount env w.
Proof.
  intros Hs. rewrite (rerender_renders w s Hs).
  destruct (renders (props env) s); [|reflexivity].
  rewrite Hs. discriminate.
Qed.

Lemma now_unmount w : now (unmount env w) = now w.
Proof. unfold unmount. now destruct (component w). Qed.
Lemma called_unmount w : called (unmount env w) = called w.
Proof. unfold unmount. now destruct (component w). Qed.
Lemma cycles_unmount w : cycles (unmount env w) = cycles w.
Proof. unfold unmount. now destruct (component w). Qed.

Lemma now_rerender w : now (rerender env w) = now w.
Proof.
  destruct (component w) as [s|] eqn:Hs; [|now rewrite rerender_None].
  rewrite (rerender_renders w s Hs).
  destruct (renders _ _); [reflexivity|apply now_unmount].
Qed.
Lemma called_rerender w : called (rerender env w) = called w.
Proof.
  destruct (component w) as [s|] eqn:Hs; [|now rewrite rerender_None].
  rewrite (rerender_renders w s Hs).
  destruct (renders _ _); [reflexivity|apply called_unmount].
Qed.

Lemma rendered_rerender w : rendered (props env) (rerender env w).
Proof. intros s Hs. now apply rerender_mounted in Hs. Qed.

(** *** Timers that expire *)

Lemma expire_mounted w tm s :
  component (expire env w tm) = Some s -> expire env w tm = fire env tm w.
Proof.
  unfold expire, cleared. destruct (component w) as [s0|] eqn:Hs0.
  - intros H. now apply rerender_mounted in H.
  - destruct (_ || _).
    + rewrite Hs0. discriminate.
    + rewrite rerender_None by (now rewrite component_fire, Hs0).
      rewrite component_fire, Hs0. discriminate.
Qed.

Lemma expire_None w tm :
  component w = None -> component (expire env w tm) = None.
Proof.
  intros H. unfold expire, cleared. rewrite H.
  destruct (_ || _); [exact H|].
  rewrite rerender_None; now rewrite component_fire, H.
Qed.

Lemma expired_None ds w :
  component w = None -> component (foldl (expire env) w ds) = None.
Proof.
  revert w. induction ds as [|tm ds IH]; intros w Hw; simpl; [exact Hw|].
  apply IH. now apply expire_None.
Qed.

(** While the component stays mounted, the timers have fired as they do
    when every render succeeds. *)
Lemma expired_mounted ds w s :
  component (foldl (expire env) w ds) = Some s ->
  foldl (expire env) w ds = foldl (fun w tm => fire env tm w) w ds.
Proof.
  revert w. induction ds as [|tm ds IH]; intros w H; simpl in *; [reflexivity|].
  destruct (component (expire env w tm)) as [s1|] eqn:Hs1.
  - rewrite (expire_mounted _ _ _ Hs1) in *. now apply IH.
  - rewrite (expired_None ds _ Hs1) in H. discriminate.
Qed.

Lemma tick_elapse w s :
  component (tick env w) = Some s -> tick env w = elapse env w.
Proof. unfold tick, elapse. apply expired_mounted. Qed.

Lemma now_expire w tm : now (expire env w tm) = now w.
Proof.
  unfold expire. destruct (cleared w tm); [reflexivity|].
  now rewrite now_rerender, now_fire.
Qed.

Lemma called_expire w tm : called (expire env w tm) = called w.
Proof.
  unfold expire. destruct (cleared w tm); [reflexivity|].
  now rewrite called_rerender, called_fire.
Qed.

Lemma expired_keeps {A : Type} (f : World -> A) :
  (forall w tm, f (expire env w tm) = f w) ->
  forall ds w, f (foldl (expire env) w ds) = f w.
Proof.
  intros Hf ds. induction ds as [|tm ds IH]; intros w; simpl; [reflexivity|].
  now rewrite IH, Hf.
Qed.

Lemma now_tick w : now (tick env w) = now w + 1.
Proof. unfold tick. now rewrite (expired_keeps now now_expire). Qed.

Lemma called_tick w : called (tick env w) = called w.
Proof. unfold tick. now rewrite (expired_keeps called called_expire). Qed.

Lemma component_tick_None w :
  component w = None -> component (tick env w) = None.
Proof. intros Hw. unfold tick. now apply expired_None. Qed.

(** Once the component is gone, the timeouts that are left fall due without
    effect. *)
Lemma expire_gone w tm :
  component w = None -> Forall one_shot (timers w) ->
  component (expire env w tm) = None /\
  Forall one_shot (timers (expire env w tm)) /\
  cycles (expire env w tm) = cycles w /\
  body_style (expire env w tm) = body_style w /\
  keydown_listeners (expire env w tm) = keydown_listeners w.
Proof.
  intros Hw Ht. split; [now apply expire_None|].
  unfold expire, cleared. rewrite Hw.
  destruct (bool_decide (task tm = FetchTick)) eqn:Hf; [auto|].
  destruct (bool_decide (task tm = BlinkTick)) eqn:Hb; [auto|]. simpl.
  apply bool_decide_eq_false in Hf, Hb.
  rewrite rerender_None by (now rewrite component_fire, Hw).
  rewrite body_style_fire, listeners_fire.
  destruct (one_shot_fire env tm w) as [H1 H2]; [now split|exact Ht|]. auto.
Qed.

Lemma expired_gone ds w :
  component w = None -> Forall one_shot (timers w) ->
  component (foldl (expire env) w ds) = None /\
  Forall one_shot (timers (foldl (expire env) w ds)) /\
  cycles (foldl (expire env) w ds) = cycles w /\
  body_style (foldl (expire env) w ds) = body_style w /\
  keydown_listeners (foldl (expire env) w ds) = keydown_listeners w.
Proof.
  revert w. induction ds as [|tm ds IH]; intros w Hw Ht; simpl; [auto|].
  destruct (expire_gone w tm Hw Ht) as (H1 & H2 & H3 & H4 & H5).
  destruct (IH _ H1 H2) as (H1' & H2' & H3' & H4' & H5').
  repeat split; auto; congruence.
Qed.

Lemma tick_gone w :
  component w = None -> Forall one_shot (timers w) ->
  component (tick env w) = None /\
  Forall one_shot (timers (tick env w)) /\
  cycles (tick env w) = cycles w /\
  body_style (tick env w) = body_style w /\
  keydown_listeners (tick env w) = keydown_listeners w.
Proof.
  intros Hw Ht. unfold tick.
  match goal with
  | |- context [foldl _ ?w0 ?ds] =>
      destruct (expired_gone ds w0) as (H1 & H2 & H3 & H4 & H5)
  end; [exact Hw|now apply Forall_List_filter|auto].
Qed.

(** The millisecond in which a render throws: the document is left as the
    cleanups leave it, and no interval stays pending. *)
Lemma expired_unmounts ds w s :
  component w = Some s -> component (foldl (expire env) w ds) = None ->
  body_style (foldl (expire env) w ds) = fullscreenCleanup (body_style w) /\
  keydown_listeners (foldl (expire env) w ds)
    = remove_first (EscapeListener (props env)) (keydown_listeners w) /\
  Forall one_shot (timers (foldl (expire env) w ds)).
Proof.
  revert w s. induction ds as [|tm ds IH]; intros w s Hs H; simpl in *.
  - rewrite Hs in H. discriminate.
  - destruct (component (expire env w tm)) as [s1|] eqn:Hs1.
    + destruct (IH _ _ Hs1 H) as (H1 & H2 & H3).
      rewrite (expire_mounted _ _ _ Hs1) in *.
      rewrite body_style_fire in H1. rewrite listeners_fire in H2. auto.
    + assert (Hu : expire env w tm = unmount env (fire env tm w)).
      { unfold expire, cleared in *. rewrite Hs in *.
        apply (rerender_unmounts _ (task_update env (now w) (task tm) s));
          [|exact Hs1].
        now rewrite component_fire, Hs. }
      assert (Hf : component (fire env tm w)
                   = Some (task_update env (now w) (task tm) s))
        by now rewrite component_fire, Hs.
      destruct (expired_gone ds (expire env w tm) Hs1)
        as (_ & H2 & _ & H4 & H5).
      { rewrite Hu. apply unmount_timers. now rewrite Hf. }
      rewrite H4, H5. split; [|split; [|exact H2]];
        rewrite Hu; unfold unmount; rewrite Hf; simpl.
      * now rewrite body_style_fire.
      * now rewrite listeners_fire.
Qed.

Lemma tick_unmounts w s :
  component w = Some s -> component (tick env w) = None ->
  body_style (tick env w) = fullscreenCleanup (body_style w) /\
  keydown_listeners (tick env w)
    = remove_first (EscapeListener (props env)) (keydown_listeners w) /\
  Forall one_shot (timers (tick env w)).
Proof.
  intros Hs Hnone. unfold tick in *.
  match goal with
  | |- context [foldl _ ?w0 ?ds] =>
      destruct (expired_unmounts ds w0 s Hs Hnone) as (H1 & H2 & H3)
  end.
  auto.
Qed.

(** While the render of every state on the way succeeds, the timers
    fire as they do when every render succeeds. *)
Lemma expired_while (Q : State -> Prop) ds w s :
  (forall s, Q s -> renders (props env) s = true) ->
  Forall (fun tm => forall t s, Q s -> Q (task_update env t (task tm) s)) ds ->
  component w = Some s -> Q s ->
  foldl (expire env) w ds = foldl (fun w tm => fire env tm w) w ds.
Proof.
  intros HQ Hds. revert w s.
  induction Hds as [|tm ds Htm _ IH]; intros w s Hs Hq; simpl; [reflexivity|].
  assert (Hf : component (fire env tm w)
               = Some (task_update env (now w) (task tm) s))
    by now rewrite component_fire, Hs.
  assert (He : expire env w tm = fire env tm w).
  { unfold expire, cleared. rewrite Hs.
    apply (rerender_id _ _ Hf). apply HQ. now apply Htm. }
  rewrite He. apply (IH _ _ Hf). now apply Htm.
Qed.

(** *** Clicks *)

Lemma userClick_handled path w s :
  component (userClick env path w) = Some s ->
  userClick env path w = handled env path w.
Proof.
  unfold userClick, handled. destruct (component w); [|reflexivity].
  intros H. now apply rerender_mounted in H.
Qed.

Lemma component_handled path w s :
  component w = Some s ->
  component (handled env path w) = Some (afterClick (props env) path s).
Proof.
  intros Hs. unfold handled. rewrite Hs. simpl.
  now rewrite component_setState, Hs.
Qed.

(** A click whose outcome React renders. *)
Lemma userClick_renderable path w s :
  component w = Some s ->
  renders (props env) (afterClick (props env) path s) = true ->
  userClick env path w = handled env path w.
Proof.
  intros Hs Hr. unfold userClick, handled. rewrite Hs.
  apply (rerender_id _ (afterClick (props env) path s)); [|exact Hr].
  simpl. now rewrite component_setState, Hs.
Qed.

Lemma userClick_unmounts path w s :
  component w = Some s -> component (userClick env path w) = None ->
  userClick env path w = unmount env (handled env path w).
Proof.
  intros Hs. unfold userClick, handled. rewrite Hs.
  apply (rerender_unmounts _ (afterClick (props env) path s)).
  simpl. now rewrite component_setState, Hs.
Qed.

Lemma now_step e w :
  now (step env w e) = now w + match e with Tick => 1 | _ => 0 end.
Proof.
  destruct e as [|path|key]; rewrite ?step_Tick, ?step_Click, ?step_KeyDown.
  - apply now_tick.
  - unfold userClick. destruct (component w); simpl;
      rewrite ?now_rerender; simpl; rewrite ?now_setState; lia.
  - rewrite keyDown_calls. simpl. lia.
Qed.

(** *** Runs *)

Lemma step_advance w e s :
  component (step env w e) = Some s -> step env w e = advance env w e.
Proof.
  destruct e as [|path|key]; [apply tick_elapse|apply userClick_handled|auto].
Qed.

Lemma step_None w e : component w = None -> component (step env w e) = None.
Proof.
  intros Hw. destruct e as [|path|key].
  - now apply component_tick_None.
  - rewrite step_Click. unfold userClick. now rewrite Hw.
  - rewrite step_KeyDown, keyDown_calls. exact Hw.
Qed.

Lemma run_None events w :
  component w = None -> component (run env events w) = None.
Proof.
  intros Hw. induction events as [|e events IH] using rev_ind; [exact Hw|].
  rewrite run_snoc. now apply step_None.
Qed.

(** What every quiet event keeps holds as long as the component is
    mounted. *)
Lemma mounted_run (P : World -> Prop) events w0 s :
  (forall w e, P w -> P (advance env w e)) -> P w0 ->
  component (run env events w0) = Some s -> P (run env events w0).
Proof.
  intros Hstep H0. revert s.
  induction events as [|e events IH] using rev_ind; intros s Hs; [exact H0|].
  rewrite run_snoc in *. rewrite (step_advance _ _ _ Hs). apply Hstep.
  destruct (component (run env events w0)) as [s1|] eqn:Hs1.
  - now apply (IH s1).
  - rewrite (step_None _ e Hs1) in Hs. discriminate.
Qed.

Lemma rendered_expired ds w :
  rendered (props env) w -> rendered (props env) (foldl (expire env) w ds).
Proof.
  revert w. induction ds as [|tm ds IH]; intros w Hw; simpl; [exact Hw|].
  apply IH. unfold expire. destruct (cleared w tm); [exact Hw|].
  apply rendered_rerender.
Qed.

Lemma rendered_step w e :
  rendered (props env) w -> rendered (props env) (step env w e).
Proof.
  intros Hw. destruct e as [|path|key].
  - rewrite step_Tick. unfold tick. apply rendered_expired. exact Hw.
  - rewrite step_Click. unfold userClick.
    destruct (component w); [apply rendered_rerender|exact Hw].
  - rewrite step_KeyDown, keyDown_calls. exact Hw.
Qed.

Lemma rendered_mount t style ls0 :
  rendered (props env) (mount env t style ls0).
Proof. intros s [= <-]. now rewrite renders_view. Qed.

Lemma rendered_run t style ls0 events :
  rendered (props env) (run env events (mount env t style ls0)).
Proof.
  induction events as [|e events IH] using rev_ind.
  - apply rendered_mount.
  - rewrite run_snoc. now apply rendered_step.
Qed.

(** *** The document *)

Lemma static_inv_elapse style0 ls0 w :
  static_inv (props env) style0 ls0 w ->
  static_inv (props env) style0 ls0 (elapse env w).
Proof.
  intros (s & Hs & Hm & Ho & Hfr & Hl).
  pose proof (static_part_elapse env w) as H.
  unfold static_part in H. rewrite Hs in H. simpl in H.
  injection H as Hc Hb Hk _.
  destruct (component (elapse env w)) as [s'|] eqn:Hs'; [|discriminate].
  injection Hc as Hfs Hmin.
  exists s'. rewrite Hb, Hk, Hfs, Hmin. auto.
Qed.

Lemma static_inv_handled style0 ls0 path w :
  static_inv (props env) style0 ls0 w ->
  static_inv (props env) style0 ls0 (handled env path w).
Proof.
  intros H. pose proof H as (s & Hs & Hm & _).
  unfold handled. rewrite Hs.
  apply static_inv_record_calls.
  destruct H as (s1 & Hs1 & Hm1 & Ho & Hfr & Hl).
  exists (perform (click (render (props env) s) path) s).
  unfold setState. rewrite Hs. simpl. rewrite Hs in Hs1. injection Hs1 as <-.
  split; [reflexivity|]. split; [now apply click_keeps_unminimized|].
  destruct (Bool.eqb _ _) eqn:E.
  - apply Bool.eqb_prop in E. rewrite <- E. auto.
  - split; [apply fullscreenEffect_overflow|]. split; [|exact Hl].
    intros k Hk. rewrite fullscreenEffect_frame by exact Hk. auto.
Qed.

Lemma static_inv_keyDown style0 ls0 key w :
  static_inv (props env) style0 ls0 w ->
  static_inv (props env) style0 ls0 (keyDown key w).
Proof. rewrite keyDown_calls. apply static_inv_record_calls. Qed.

Lemma static_inv_advance style0 ls0 e w :
  static_inv (props env) style0 ls0 w ->
  static_inv (props env) style0 ls0 (advance env w e).
Proof.
  destruct e; rewrite ?advance_Tick, ?advance_Click, ?advance_KeyDown;
    auto using static_inv_elapse, static_inv_handled, static_inv_keyDown.
Qed.

Lemma static_inv_mount t style ls0 :
  static_inv (props env) style ls0 (mount env t style ls0).
Proof.
  exists (setIsRefreshing true (initialState t)). simpl.
  repeat split; auto.
  - apply lookup_insert_eq.
  - intros k Hk. now rewrite lookup_insert_ne.
Qed.

Lemma static_inv_run t style ls0 events s :
  component (run env events (mount env t style ls0)) = Some s ->
  static_inv (props env) style ls0 (run env events (mount env t style ls0)).
Proof.
  apply mounted_run; [|apply static_inv_mount].
  intros w e. apply static_inv_advance.
Qed.

(** In a world the mount has led to, a click never makes a render throw:
    it changes no commit. *)
Lemma userClick_reached style0 ls0 path w :
  static_inv (props env) style0 ls0 w -> rendered (props env) w ->
  userClick env path w = handled env path w.
Proof.
  intros (s & Hs & Hm & _) Hr. apply (userClick_renderable _ _ s Hs).
  rewrite renders_afterClick by exact Hm. now apply Hr.
Qed.

Lemma left_behind_unmount style0 ls0 w :
  static_inv (props env) style0 ls0 w ->
  left_behind (props env) style0 ls0 (unmount env w).
Proof.
  intros (s & Hs & _ & _ & Hfr & Hl).
  split; [|split; [|split]].
  - unfold unmount. rewrite Hs. apply fullscreenCleanup_overflow.
  - intros k Hk. unfold unmount. rewrite Hs. simpl.
    rewrite fullscreenCleanup_frame by exact Hk. now apply Hfr.
  - unfold unmount. rewrite Hs. simpl. now rewrite Hl.
  - apply unmount_timers. now rewrite Hs.
Qed.

(** The step in which React unmounts the component. *)
Lemma left_behind_unmounts style0 ls0 w e :
  static_inv (props env) style0 ls0 w ->
  component (step env w e) = None ->
  left_behind (props env) style0 ls0 (step env w e).
Proof.
  intros Hinv Hnone. pose proof Hinv as (s & Hs & _ & _ & Hfr & Hl).
  destruct e as [|path|key].
  - rewrite step_Tick in *.
    destruct (tick_unmounts w s Hs Hnone) as (H1 & H2 & H3).
    split; [|split; [|split]]; [| |now rewrite H2, Hl|exact H3].
    + rewrite H1. apply fullscreenCleanup_overflow.
    + intros k Hk. rewrite H1, fullscreenCleanup_frame by exact Hk.
      now apply Hfr.
  - rewrite step_Click in *. rewrite (userClick_unmounts _ _ _ Hs Hnone).
    apply left_behind_unmount. now apply static_inv_handled.
  - rewrite step_KeyDown, keyDown_calls in Hnone. simpl in Hnone.
    rewrite Hs in Hnone. discriminate.
Qed.

(** The steps after that. *)
Lemma left_behind_step style0 ls0 w e :
  component w = None ->
  left_behind (props env) style0 ls0 w ->
  left_behind (props env) style0 ls0 (step env w e).
Proof.
  intros Hw (Ho & Hfr & Hl & Ht). destruct e as [|path|key].
  - rewrite step_Tick. destruct (tick_gone w Hw Ht) as (_ & H2 & _ & H4 & H5).
    unfold left_behind. now rewrite H4, H5.
  - rewrite step_Click. unfold userClick. rewrite Hw. now repeat split.
  - rewrite step_KeyDown, keyDown_calls. now repeat split.
Qed.

Lemma left_behind_run t style ls0 events :
  component (run env events (mount env t style ls0)) = None ->
  left_behind (props env) style ls0 (run env events (mount env t style ls0)).
Proof.
  induction events as [|e events IH] using rev_ind; [discriminate|].
  rewrite run_snoc.
  destruct (component (run env events (mount env t style ls0))) as [s|] eqn:Hs.
  - apply left_behind_unmounts. now apply (static_inv_run _ _ _ _ s).
  - intros _. apply left_behind_step; auto.
Qed.

(** *** The blink timer *)

Lemma blink_part_setState_perform actions w :
  blink_part (setState (perform actions) w) = blink_part w.
Proof.
  unfold blink_part, blink_state, blinkTimers.
  rewrite component_setState, timers_setState.
  destruct (component w); simpl; [|reflexivity].
  now rewrite perform_blinking, perform_lastUpdated.
Qed.

Lemma blink_inv_ext t0 w w' :
  now w' = now w -> component w' = component w -> timers w' = timers w ->
  blink_inv t0 w -> blink_inv t0 w'.
Proof.
  intros Hn Hc Ht (k & s & H). exists k, s.
  unfold blinkTimers in *. now rewrite Hn, Hc, Ht.
Qed.

Lemma blink_inv_setState_perform t0 actions w :
  blink_inv t0 w -> blink_inv t0 (setState (perform actions) w).
Proof.
  intros (k & s & Hk & Hs & Hnow & Hb & Hl & Ht).
  exists k, (perform actions s).
  rewrite now_setState, component_setState, Hs.
  rewrite perform_blinking, perform_lastUpdated.
  unfold blinkTimers in *. rewrite timers_setState. simpl.
  repeat split; auto; lia.
Qed.

Lemma blink_inv_advance t0 e w :
  blink_inv t0 w -> blink_inv t0 (advance env w e).
Proof.
  destruct e as [|path|key];
    rewrite ?advance_Tick, ?advance_Click, ?advance_KeyDown; intros H.
  - now apply blink_inv_elapse.
  - unfold handled. destruct (component w) as [s|] eqn:Hs; [|exact H].
    apply (blink_inv_ext t0
             (setState (perform (click (render (props env) s) path)) w));
      [reflexivity..|].
    now apply blink_inv_setState_perform.
  - rewrite keyDown_calls. now apply (blink_inv_ext t0 w).
Qed.

Lemma blink_inv_mount t style ls0 : blink_inv t (mount env t style ls0).
Proof.
  exists 0, (setIsRefreshing true (initialState t)). simpl.
  repeat split; lia.
Qed.

Lemma blink_inv_run t style ls0 events s :
  component (run env events (mount env t style ls0)) = Some s ->
  blink_inv t (run env events (mount env t style ls0)).
Proof.
  apply mounted_run; [|apply blink_inv_mount].
  intros w e. apply blink_inv_advance.
Qed.

Lemma ticks_snoc events e :
  ticks (events ++ [e]) = ticks events + match e with Tick => 1 | _ => 0 end.
Proof.
  induction events as [|e' events IH]; simpl.
  - destruct e; lia.
  - destruct e'; rewrite IH; lia.
Qed.

Lemma now_run t style ls0 events :
  now (run env events (mount env t style ls0)) = t + ticks events.
Proof.
  induction events as [|e events IH] using rev_ind.
  - simpl. lia.
  - rewrite run_snoc, now_step, IH, ticks_snoc. lia.
Qed.

Lemma ticks_nonneg events : 0 <= ticks events.
Proof. induction events as [|[] events IH]; simpl; lia. Qed.
End RunFacts.

(** ** The view and the document *)

(** C5, in the form that holds: a click on the minimized chip brings the
    normal view back; the fullscreen toggle is available in the normal view,
    where a click on it flips [isFullscreen] and stays in the normal view; in
    the loading view the button is rendered disabled, and in the loading and
    the error view no click and no key changes the state. *)
Theorem C5_view_transitions_by_user props s :
  (view s = Minimized -> view (afterClick props [] s) = Normal) /\
  (view s = Normal ->
   afterClick props fullscreenButton s
     = setIsFullscreen (negb (isFullscreen s)) s /\
   view (afterClick props fullscreenButton s) = Normal) /\
  (view s = Loading ->
   node_at (render props s) fullscreenButton
     = Some (Element "button" noClass None true [fullscreenGlyph s])) /\
  (view s = Loading \/ view s = Error ->
   forall path, afterClick props path s = s) /\
  (forall key, afterKey props key s = s).
Proof.
  split; [|split; [|split; [|split]]].
  - intros Hv. rewrite afterClick_cases, Hv. simpl.
    now apply view_unminimized.
  - intros Hv. rewrite afterClick_cases, Hv. simpl.
    split; [reflexivity|]. now rewrite view_setIsFullscreen.
  - intros Hv. rewrite render_view, Hv. reflexivity.
  - intros Hv path. rewrite afterClick_cases. now destruct Hv as [-> | ->].
  - intros key. apply afterKey_same.
Qed.

(** C5 on a minimized state, on the normal view and on the loading view. *)
Lemma C5_view_transitions_witness :
  view (afterClick (mkProps None) [] minimizedState) = Normal /\
  isFullscreen
    (afterClick (mkProps None) fullscreenButton
       (settle sampleDate sampleNet (initialState 0))) = true /\
  afterClick (mkProps None) closeGlyph (initialState 0) = initialState 0.
Proof.
  split; [|split].
  - apply (C5_view_transitions_by_user (mkProps None) minimizedState).
    reflexivity.
  - destruct (C5_view_transitions_by_user (mkProps None)
                (settle sampleDate sampleNet (initialState 0)))
      as (_ & H & _).
    destruct (H eq_refl) as [-> _]. reflexivity.
  - destruct (C5_view_transitions_by_user (mkProps None) (initialState 0))
      as (_ & _ & _ & H & _).
    apply H. left. reflexivity.
Defined.

(** C5 as stated fails: while loading, and in the error view, no click and no
    key toggles fullscreen; and in the normal view no click and no key leads
    to the minimized view. *)
Lemma C5_counterexample_no_toggle_while_loading :
  view (initialState 0) = Loading /\
  ~ (exists path,
       isFullscreen (afterClick (mkProps None) path (initialState 0)) = true) /\
  ~ (exists key,
       isFullscreen (afterKey (mkProps None) key (initialState 0)) = true) /\
  view (settle sampleDate objectNet (initialState 0)) = Error /\
  ~ (exists path,
       isFullscreen
         (afterClick (mkProps None) path
            (settle sampleDate objectNet (initialState 0))) = true) /\
  view (settle sampleDate sampleNet (initialState 0)) = Normal /\
  ~ (exists path,
       view (afterClick (mkProps None) path
               (settle sampleDate sampleNet (initialState 0))) = Minimized) /\
  ~ (exists key,
       view (afterKey (mkProps None) key
               (settle sampleDate sampleNet (initialState 0))) = Minimized).
Proof.
  split; [reflexivity|]. split.
  { intros [path H]. rewrite afterClick_cases in H. discriminate. }
  split.
  { intros [key H]. rewrite afterKey_same in H. discriminate. }
  split; [reflexivity|]. split.
  { intros [path H]. rewrite afterClick_cases in H. discriminate. }
  split; [reflexivity|]. split.
  { intros [path H]. rewrite afterClick_cases in H.
    change (view (settle sampleDate sampleNet (initialState 0)))
      with Normal in H.
    simpl in H. case_decide; discriminate. }
  intros [key H]. rewrite afterKey_same in H. discriminate.
Qed.

Section Claims.
Variable env : Env.

Lemma called_userClick path w s :
  component w = Some s ->
  called (userClick env path w)
  = called w ++ invocations (click (render (props env) s) path).
Proof.
  intros Hs. unfold userClick. rewrite Hs, called_rerender. simpl.
  now rewrite called_setState.
Qed.

Lemma component_userClick path w s :
  component w = Some s ->
  renders (props env) (afterClick (props env) path s) = true ->
  component (userClick env path w) = Some (afterClick (props env) path s).
Proof.
  intros Hs Hr. rewrite (userClick_renderable env path w s Hs Hr).
  now apply component_handled.
Qed.

Lemma called_keyDown key w :
  keydown_listeners w = [EscapeListener (props env)] ->
  called (keyDown key w)
  = called w ++
    (if String.eqb key "Escape"
     then match onClose (props env) with Some f => [f] | None => [] end
     else []).
Proof.
  intros Hl. rewrite keyDown_calls, Hl. simpl. rewrite app_nil_r.
  now rewrite invocations_handleEscapeKey.
Qed.

Lemma called_keyDown_deaf key w :
  keydown_listeners w = [] -> called (keyDown key w) = called w.
Proof. intros Hl. rewrite keyDown_calls, Hl. simpl. apply app_nil_r. Qed.

(** The listeners of a world the mount has led to, the document having had
    none before: the one of the component while it is mounted, none once it
    is unmounted. *)
Lemma listeners_run t style events :
  keydown_listeners (run env events (mount env t style []))
  = match component (run env events (mount env t style [])) with
    | Some _ => [EscapeListener (props env)]
    | None => []
    end.
Proof.
  destruct (component (run env events (mount env t style []))) as [s|] eqn:Hs.
  - now destruct (static_inv_run env t style [] events s Hs)
      as (s0 & _ & _ & _ & _ & Hl).
  - destruct (left_behind_run env t style [] events Hs) as (_ & _ & Hl & _).
    rewrite Hl. simpl. now rewrite decide_True.
Qed.

(** C6, in the form that holds: with an [onClose] callback supplied and the
    component mounted, pressing Escape calls it exactly once in every view;
    a click on the close glyph and a click outside the panel each call it
    exactly once in the loading and the normal view, where the glyph and the
    outside-click handler are rendered.  Once a render has thrown and React
    has unmounted the component, Escape calls nothing. *)
Theorem C6_dismissal_calls_onClose_once f t style events :
  onClose (props env) = Some f ->
  (forall s,
     component (run env events (mount env t style [])) = Some s ->
     called (step env (run env events (mount env t style []))
               (KeyDown "Escape"))
       = called (run env events (mount env t style [])) ++ [f] /\
     (view s = Loading \/ view s = Normal ->
      node_at (render (props env) s) closeGlyph
        = Some (closeButton (props env)) /\
      called (step env (run env events (mount env t style []))
                (Click closeGlyph))
        = called (run env events (mount env t style [])) ++ [f] /\
      called (step env (run env events (mount env t style [])) (Click []))
        = called (run env events (mount env t style [])) ++ [f])) /\
  (component (run env events (mount env t style [])) = None ->
   called (step env (run env events (mount env t style []))
             (KeyDown "Escape"))
     = called (run env events (mount env t style []))).
Proof.
  intros Hf. pose proof (listeners_run t style events) as Hl. split.
  - intros s Hs. rewrite Hs in Hl. split.
    + rewrite step_KeyDown, (called_keyDown _ _ Hl), Hf. reflexivity.
    + intros Hv. split; [now apply node_at_closeGlyph|].
      rewrite !step_Click, !(called_userClick _ _ _ Hs), !invocations_click, Hf.
      destruct Hv as [-> | ->]; split; reflexivity.
  - intros Hs. rewrite Hs in Hl.
    now rewrite step_KeyDown, (called_keyDown_deaf _ _ Hl).
Qed.

(** C7: in every state the mounted component reaches, the [overflow] of the
    body style is [hidden] exactly while [isFullscreen], and it is [auto]
    once the component is unmounted, by the parent or by React after a
    render that threw; a click on the toggle in the normal view flips
    [isFullscreen] and [overflow] together; and no other entry of the body
    style changes, by any event or by unmounting. *)
Theorem C7_fullscreen_scroll_lock t style listeners events :
  body_style (run env events (mount env t style listeners)) !! "overflow"
    = Some match component (run env events (mount env t style listeners)) with
           | Some s => if isFullscreen s then "hidden" else "auto"
           | None => "auto"
           end /\
  (forall s,
     component (run env events (mount env t style listeners)) = Some s ->
     view s = Normal ->
     exists s',
       component (step env (run env events (mount env t style listeners))
                    (Click fullscreenButton)) = Some s' /\
       isFullscreen s' = negb (isFullscreen s) /\
       body_style (step env (run env events (mount env t style listeners))
                     (Click fullscreenButton)) !! "overflow"
         = Some (if isFullscreen s then "auto" else "hidden")) /\
  body_style (unmount env (run env events (mount env t style listeners)))
    !! "overflow" = Some "auto" /\
  (forall k, k <> "overflow" ->
     body_style (run env events (mount env t style listeners)) !! k
       = style !! k /\
     body_style (unmount env (run env events (mount env t style listeners)))
       !! k = style !! k).
Proof.
  pose proof (rendered_run env t style listeners events) as Hr.
  destruct (component (run env events (mount env t style listeners)))
    as [s|] eqn:Hs.
  - pose proof (static_inv_run env t style listeners events s Hs) as Hinv.
    pose proof Hinv as (s0 & Hs0 & Hm & Ho & Hfr & Hl).
    rewrite Hs in Hs0. injection Hs0 as <-.
    split; [exact Ho|]. split; [|split].
    + intros s1 [= <-] Hv.
      rewrite step_Click, (userClick_reached env style listeners _ _ Hinv Hr).
      destruct (static_inv_handled env style listeners fullscreenButton _ Hinv)
        as (s' & Hs' & _ & Ho' & _).
      exists s'. split; [exact Hs'|].
      rewrite (component_handled env _ _ _ Hs) in Hs'. injection Hs' as <-.
      rewrite afterClick_cases, Hv in Ho' |- *.
      simpl in Ho' |- *. split; [reflexivity|]. rewrite Ho'.
      now destruct (isFullscreen s).
    + unfold unmount. rewrite Hs. apply fullscreenCleanup_overflow.
    + intros k Hk. split; [now apply Hfr|].
      unfold unmount. rewrite Hs. simpl.
      rewrite fullscreenCleanup_frame by exact Hk. now apply Hfr.
  - destruct (left_behind_run env t style listeners events Hs)
      as (Ho & Hfr & _ & _).
    split; [exact Ho|]. split; [discriminate|].
    unfold unmount. rewrite Hs. auto.
Qed.

(** C8: on the simulated clock the cosmetic timer fires every 3000 ms after
    the mount for as long as the component is mounted, whatever the poll
    cycles have returned until then, however long they take, and whatever
    the user does meanwhile: [n] ms after the mount the blink indicator is
    on exactly when a firing lies at most 999 ms back, and the label shows
    the time of the last firing (the time of the mount before the first). *)
Theorem C8_blink_timer_cadence t style listeners events :
  now (run env events (mount env t style listeners)) = t + ticks events /\
  forall s,
    component (run env events (mount env t style listeners)) = Some s ->
    isBlinking s
      = (3000 <=? ticks events) && (ticks events mod 3000 <? 1000) /\
    lastUpdated s
      = (if ticks events <? 3000 then t
         else t + 3000 * (ticks events / 3000)).
Proof.
  pose proof (now_run env t style listeners events)
    as Hnow.
  split; [exact Hnow|]. intros s Hs.
  destruct (blink_inv_run env t style listeners events s Hs)
    as (k & s0 & Hk & Hs0 & Hrange & Hb & Hl & _).
  rewrite Hs in Hs0. injection Hs0 as <-.
  rewrite Hnow in Hrange, Hb.
  pose proof (ticks_nonneg events) as Hn.
  assert (Hdiv : ticks events / 3000 = k).
  { symmetry. apply (Z.div_unique _ _ _ (ticks events - 3000 * k)); lia. }
  assert (Hmod : ticks events mod 3000 = ticks events - 3000 * k).
  { rewrite Z.mod_eq by lia. rewrite Hdiv. lia. }
  rewrite Hb, Hl, Hdiv, Hmod.
  split; bool_arith.
Qed.

(** C10: in the error view no element has a click handler and none is a
    button, so no click calls [onClose] or changes the state; a key other
    than Escape calls nothing; Escape calls [onClose] once when it is
    supplied. *)
Theorem C10_error_view_only_escape_dismisses t style events s :
  component (run env events (mount env t style [])) = Some s ->
  view s = Error ->
  render (props env) s = errorView (default EmptyString (error s)) /\
  (forall path tag cls h d kids,
     node_at (render (props env) s) path = Some (Element tag cls h d kids) ->
     h = None /\ tag <> "button") /\
  (forall path,
     called (step env (run env events (mount env t style [])) (Click path))
       = called (run env events (mount env t style [])) /\
     component (step env (run env events (mount env t style []))
                  (Click path)) = Some s) /\
  (forall key, key <> "Escape" ->
     called (step env (run env events (mount env t style [])) (KeyDown key))
       = called (run env events (mount env t style []))) /\
  called (step env (run env events (mount env t style [])) (KeyDown "Escape"))
    = called (run env events (mount env t style [])) ++
      match onClose (props env) with Some f => [f] | None => [] end.
Proof.
  intros Hs Hv.
  pose proof (listeners_run t style events) as Hl. rewrite Hs in Hl.
  assert (Hr : render (props env) s = errorView (default EmptyString (error s)))
    by now rewrite render_view, Hv.
  split; [exact Hr|]. split; [|split; [|split]].
  - intros path tag cls h d kids. rewrite Hr. apply errorView_elements.
  - intros path. rewrite step_Click, (called_userClick _ _ _ Hs),
      (component_userClick _ _ _ Hs), invocations_click, afterClick_cases, Hv.
    + now rewrite app_nil_r.
    + now rewrite afterClick_cases, Hv, renders_view, Hv.
  - intros key Hkey. rewrite step_KeyDown, (called_keyDown _ _ Hl).
    destruct (String.eqb_spec key "Escape"); [contradiction|].
    now rewrite app_nil_r.
  - now rewrite step_KeyDown, (called_keyDown _ _ Hl).
Qed.
End Claims.

(** C9: the click-outside handler calls [onClose] only when the target of
    the click is the element the handler is attached to; it calls nothing for
    a click on another target and nothing when no callback is supplied.  In
    the rendered tree a click inside the panel calls [onClose] only on the
    close glyph, and then once. *)
Theorem C9_click_outside_only_on_backdrop props e :
  (forall f, In (Invoke f) (handleClickOutside props e) ->
     onClose props = Some f /\ target e = currentTarget e) /\
  (forall f, onClose props = Some f -> target e = currentTarget e ->
     handleClickOutside props e = [Invoke f]) /\
  (target e <> currentTarget e -> handleClickOutside props e = []) /\
  (onClose props = None -> handleClickOutside props e = []) /\
  (forall s path, path <> [] -> path <> closeGlyph ->
     invocations (click (render props s) path) = []) /\
  (forall s,
     (length (invocations (click (render props s) closeGlyph)) <= 1)%nat) /\
  (onClose props = None ->
   forall s path, invocations (click (render props s) path) = []).
Proof.
  unfold handleClickOutside.
  split; [|split; [|split; [|split; [|split; [|split]]]]].
  - intros f. destruct (onClose props) as [g|]; [|intros []].
    case_decide; [|intros []]. intros [[= ->]|[]]. auto.
  - intros f -> Heq. now rewrite decide_True.
  - intros Hne. destruct (onClose props); [|reflexivity].
    now rewrite decide_False.
  - now intros ->.
  - intros s path H1 H2. rewrite invocations_click.
    destruct (view s); try reflexivity; rewrite decide_False; tauto.
  - intros s. rewrite invocations_click.
    destruct (view s), (onClose props); simpl; lia.
  - intros Hnone s path. rewrite invocations_click, Hnone.
    destruct (view s); try reflexivity; case_decide; reflexivity.
Qed.

(** ** The sample worlds *)

Lemma normalWorld_component : component normalWorld = Some normalState.
Proof. vm_compute. reflexivity. Qed.

Lemma errorWorld_component : component errorWorld = Some errorState.
Proof. vm_compute. reflexivity. Qed.

Lemma crashedWorld_component : component crashedWorld = None.
Proof. vm_compute. reflexivity. Qed.

Lemma sample_run_component :
  component (run sampleEnv [Tick] (mount sampleEnv 0 ∅ [])) = Some normalState.
Proof. vm_compute. reflexivity. Qed.

Lemma object_message_run_component :
  component (run objectMessageEnv [Tick] (mount objectMessageEnv 0 ∅ []))
  = None.
Proof. vm_compute. reflexivity. Qed.

(** A commit whose message is an object: the render of the first list
    throws, and React leaves nothing of the component behind. *)
Example object_message_unmounts :
  showable <$> commits (settle sampleDate objectMessageNet (initialState 0))
    = [false] /\
  component crashedWorld = None /\
  keydown_listeners crashedWorld = [] /\
  body_style crashedWorld !! "overflow" = Some "auto" /\
  task <$> timers crashedWorld = [RefreshOff].
Proof. vm_compute. repeat split. Qed.

(** A commit whose [sha] has an own [toString]: its row cannot be
    created. *)
Example unconverted_key_fails_render :
  renders (mkProps None)
    (setLoading false
       (setCommits
          [mkCommit (Some (JObject [("toString", JNumber "1")]))
             (Some (JString "fix")) (Some (JString "a/x")) (Some 5)]
          (initialState 0)))
  = false.
Proof. reflexivity. Qed.

(** C6 right after the mount, in the loading view, and after a render that
    threw. *)
Lemma C6_dismissal_witness :
  called (step sampleEnv (mount sampleEnv 0 ∅ []) (KeyDown "Escape"))
    = [7%nat] /\
  called (step sampleEnv (mount sampleEnv 0 ∅ []) (Click closeGlyph))
    = [7%nat] /\
  called (step sampleEnv (mount sampleEnv 0 ∅ []) (Click [])) = [7%nat] /\
  called (step objectMessageEnv
            (run objectMessageEnv [Tick] (mount objectMessageEnv 0 ∅ []))
            (KeyDown "Escape"))
    = called (run objectMessageEnv [Tick] (mount objectMessageEnv 0 ∅ [])).
Proof.
  destruct (C6_dismissal_calls_onClose_once sampleEnv 7%nat 0 ∅ [] eq_refl)
    as [Hmounted _].
  destruct (Hmounted _ eq_refl) as [Hkey Hclick].
  destruct (Hclick (or_introl eq_refl)) as (_ & Hglyph & Hout).
  split; [exact Hkey|]. split; [exact Hglyph|]. split; [exact Hout|].
  destruct (C6_dismissal_calls_onClose_once objectMessageEnv 7%nat 0 ∅ [Tick]
              eq_refl)
    as [_ Hgone].
  exact (Hgone object_message_run_component).
Defined.

(** C6 as stated fails: in the error view a click outside the panel calls
    nothing, though [onClose] is supplied. *)
Lemma C6_counterexample_click_outside_error_view :
  onClose (props objectEnv) = Some 7%nat /\
  view <$> component errorWorld = Some Error /\
  called errorWorld = [] /\
  called (step objectEnv errorWorld (Click [])) = [].
Proof. vm_compute. repeat split. Qed.

(** C7 in the normal view: into fullscreen, then unmounted. *)
Lemma C7_scroll_lock_witness :
  body_style (run sampleEnv [Tick] (mount sampleEnv 0 ∅ [])) !! "overflow"
    = Some "auto" /\
  body_style
    (step sampleEnv (run sampleEnv [Tick] (mount sampleEnv 0 ∅ []))
       (Click fullscreenButton)) !! "overflow" = Some "hidden" /\
  body_style
    (unmount sampleEnv
       (run sampleEnv [Tick; Click fullscreenButton] (mount sampleEnv 0 ∅ [])))
    !! "overflow" = Some "auto".
Proof.
  destruct (C7_fullscreen_scroll_lock sampleEnv 0 ∅ [] [Tick])
    as (Ho & Hclick & _).
  destruct (Hclick _ sample_run_component eq_refl) as (s' & _ & _ & Ho').
  split; [|split; [exact Ho'|]].
  - rewrite Ho. now rewrite sample_run_component.
  - destruct (C7_fullscreen_scroll_lock sampleEnv 0 ∅ []
                [Tick; Click fullscreenButton])
      as (_ & _ & Hun & _).
    exact Hun.
Defined.

(** C8 one millisecond after the mount: the indicator is off and the label
    shows the time of the mount. *)
Lemma C8_blink_timer_witness :
  isBlinking normalState = false /\ lastUpdated normalState = 0.
Proof.
  exact (proj2 (C8_blink_timer_cadence sampleEnv 0 ∅ [] [Tick])
           normalState sample_run_component).
Defined.

(** The simulation at the first firing of the blink timer and a second
    later, once over an API that answers and once over one that does not. *)
Example blink_on_at_3000 :
  isBlinking <$> component (run sampleEnv (repeat Tick 3000)
                              (mount sampleEnv 0 ∅ []))
  = Some true.
Proof. vm_compute. reflexivity. Qed.

Example blink_off_at_4000 :
  (fun s => (isBlinking s, lastUpdated s))
    <$> component (run objectEnv (repeat Tick 4000) (mount objectEnv 0 ∅ []))
  = Some (false, 3000).
Proof. vm_compute. reflexivity. Qed.

(** C9 on a click inside, a click on the backdrop, and without callback. *)
Lemma C9_click_outside_witness :
  handleClickOutside (mkProps (Some 7%nat)) (mkMouseEvent [0%nat] []) = [] /\
  handleClickOutside (mkProps (Some 7%nat)) (mkMouseEvent [] [])
    = [Invoke 7%nat] /\
  handleClickOutside (mkProps None) (mkMouseEvent [] []) = [] /\
  invocations (click (render (mkProps (Some 7%nat)) normalState) [0%nat]) = [].
Proof.
  destruct (C9_click_outside_only_on_backdrop (mkProps (Some 7%nat))
              (mkMouseEvent [0%nat] []))
    as (_ & _ & Hinside & _ & Htree & _).
  destruct (C9_click_outside_only_on_backdrop (mkProps (Some 7%nat))
              (mkMouseEvent [] []))
    as (_ & Hbackdrop & _).
  destruct (C9_click_outside_only_on_backdrop (mkProps None)
              (mkMouseEvent [] []))
    as (_ & _ & _ & Hnone & _).
  split; [apply Hinside; discriminate|].
  split; [apply Hbackdrop; reflexivity|].
  split; [apply Hnone; reflexivity|].
  apply Htree; discriminate.
Defined.

(** C10 in the error view of the failed first cycle. *)
Lemma C10_error_view_witness :
  render (props objectEnv) errorState
    = errorView "Failed to load commit history" /\
  called (step objectEnv errorWorld (Click closeGlyph)) = [] /\
  called (step objectEnv errorWorld (Click [])) = [] /\
  called (step objectEnv errorWorld (KeyDown "Escape")) = [7%nat].
Proof.
  destruct (C10_error_view_only_escape_dismisses objectEnv 0 ∅ [Tick]
              errorState errorWorld_component eq_refl)
    as (Hview & _ & Hclick & _ & Hkey).
  split; [exact Hview|].
  split; [exact (proj1 (Hclick closeGlyph))|].
  split; [exact (proj1 (Hclick []))|exact Hkey].
Defined.

(** * Further properties of the component *)

(** ** Reading the payloads *)

Lemma get_prop_field v k :
  get_prop v k = if nullish v then Throw TypeError else Return (field k v).
Proof. destruct v as [[]|]; reflexivity. Qed.

Lemma mapM_throws {A B : Type} (f : A -> completion B) (l : list A) (x : A) :
  x ∈ l -> (exists e, f x = Throw e) -> exists e, mapM f l = Throw e.
Proof.
  intros Hx [e He]. induction Hx as [x l|x y l Hx IH]; simpl.
  - rewrite He. simpl. now eexists.
  - destruct (f y); simpl; [|now eexists].
    destruct (IH He) as [e' ->]. simpl. now eexists.
Qed.

Lemma mapM_returns_inv {A B : Type} (f : A -> completion B) (l : list A)
    (ys : list B) (y : B) :
  mapM f l = Return ys -> y ∈ ys -> exists x, x ∈ l /\ f x = Return y.
Proof.
  revert ys. induction l as [|x l IH]; simpl; intros ys H Hy.
  - injection H as <-. inversion Hy.
  - destruct (f x) as [b|] eqn:Hb; simpl in H; [|discriminate].
    destruct (mapM f l) as [bs|] eqn:Hbs; simpl in H; [|discriminate].
    injection H as <-. apply elem_of_cons in Hy as [-> | Hy].
    + exists x. split; [left|exact Hb].
    + destruct (IH bs eq_refl Hy) as (x' & Hx' & Hfx').
      exists x'. split; [now right|exact Hfx'].
Qed.

Lemma mapM_from_lookup {A B : Type} (f : nat -> A -> completion B) (k : nat)
    (l : list A) (ys : list B) (i : nat) (y : B) :
  mapM_from f k l = Return ys -> ys !! i = Some y ->
  exists x, l !! i = Some x /\ f (k + i)%nat x = Return y.
Proof.
  revert k ys i. induction l as [|x l IH]; simpl; intros k ys i H Hy.
  - injection H as <-. discriminate.
  - destruct (f k x) as [b|] eqn:Hb; simpl in H; [|discriminate].
    destruct (mapM_from f (S k) l) as [bs|] eqn:Hbs; simpl in H;
      [|discriminate].
    injection H as <-. destruct i as [|i]; simpl in Hy.
    + injection Hy as <-. exists x. split; [reflexivity|].
      now rewrite Nat.add_0_r.
    + destruct (IH (S k) bs i Hbs Hy) as (x' & Hx' & Hfx').
      exists x'. split; [exact Hx'|]. now rewrite Nat.add_succ_r.
Qed.

(** X1: when the repository-list call fails before its payload is looked at
    ([fetch] throws, the status is not a success, or the body is no JSON),
    the cycle takes its [catch] branch: the error message is set, [loading]
    is cleared, the commit list in the state is left as it was, and the
    error view is rendered. *)
Theorem enumeration_failure_is_fatal newDate net props s :
  enumeration_failed (reposCall net) ->
  (exists e, fetchCommits_try newDate net = Throw e) /\
  commits (settle newDate net s) = commits s /\
  loading (settle newDate net s) = false /\
  error (settle newDate net s) = Some "Failed to load commit history" /\
  render props (settle newDate net s)
    = errorView "Failed to load commit history".
Proof.
  intros Hf.
  assert (Hthrow : exists e, fetchCommits_try newDate net = Throw e).
  { unfold fetchCommits_try.
    destruct (reposCall net) as [response|e]; simpl in *; [|eauto].
    destruct Hf as [-> | [e He]]; simpl; [eauto|].
    destruct (ok response); simpl; [|eauto]. rewrite He. simpl. eauto. }
  destruct Hthrow as [e He]. rewrite (settle_failure _ _ _ _ He).
  split; [eauto|]. repeat split.
Qed.

Lemma enumeration_failure_witness :
  error (settle sampleDate unauthorizedNet (initialState 0))
  = Some "Failed to load commit history".
Proof.
  apply (enumeration_failure_is_fatal sampleDate unauthorizedNet
           (mkProps None) (initialState 0)).
  left. reflexivity.
Defined.

(** X2: a repository (an entry that is not [null], with a [full_name] that
    converts to a string) whose commits request is answered with a success
    but not with a readable list (the body is no JSON, the payload is no
    array, or one commit of the array cannot be read) contributes no commit
    at all, the readable ones included. *)
Theorem unreadable_commits_contribute_nothing newDate net i repo response :
  repository repo ->
  commitsCall net i (full_name repo) = Return response ->
  ok response = true ->
  unreadable newDate repo response ->
  fetchRepoCommits newDate net i repo = Return [].
Proof.
  intros [Hr Hp] Hc Hok Hu. unfold fetchRepoCommits.
  rewrite (get_full_name repo Hr). simpl. rewrite (to_primitive_ok _ Hp). simpl.
  rewrite Hc. simpl. rewrite Hok. simpl.
  destruct Hu
    as [[e ->]
       | [(payload & -> & Hshape) | (items & bad & e & -> & Hbad & He)]];
    simpl.
  - reflexivity.
  - destruct payload; try reflexivity. now destruct (Hshape items).
  - destruct (mapM_throws (toCommit newDate repo) items bad Hbad
                (ex_intro _ e He)) as [e' ->].
    reflexivity.
Qed.

Lemma unreadable_commits_witness :
  fetchRepoCommits sampleDate authorlessNet 0 (sampleRepo "a/x") = Return [] /\
  fetchCommits_try sampleDate authorlessNet = Return [].
Proof.
  split; [|reflexivity].
  eapply (unreadable_commits_contribute_nothing sampleDate authorlessNet 0
           (sampleRepo "a/x"));
    [split; [discriminate|reflexivity]|reflexivity|reflexivity|].
  right. right.
  exists [sampleCommit "c1" "fix" "2024-01-02T00:00:00Z"; authorlessCommit],
    authorlessCommit, TypeError.
  split; [reflexivity|]. split; [|reflexivity].
  apply elem_of_cons. right. apply elem_of_cons. now left.
Defined.

(** X3: reading a commit throws exactly when the commit is [null], or its
    [commit] is missing or [null], or the [author] of that is missing or
    [null], or the [date] of that does not convert to a primitive for [new
    Date]; otherwise it gives the record of what was read, where a missing
    [sha] or [message] is [undefined] and a missing [date] goes to
    [new Date] as [undefined]. *)
Theorem toCommit_reads_or_throws newDate repo c :
  repo <> JNull ->
  toCommit newDate repo c =
  if nullish (Some c)
     || nullish (field "commit" (Some c))
     || nullish (field "author" (field "commit" (Some c)))
     || negb (primitive_ok
                (field "date" (field "author" (field "commit" (Some c)))))
  then Throw TypeError
  else Return
         {| id := field "sha" (Some c);
            message := field "message" (field "commit" (Some c));
            repo := full_name repo;
            timestamp :=
              newDate (field "date" (field "author" (field "commit" (Some c))))
         |}.
Proof.
  intros Hr. unfold toCommit. rewrite (get_full_name repo Hr).
  rewrite (get_prop_field (Some c) "sha").
  destruct (nullish (Some c)) eqn:H1; cbn [bind orb]; [reflexivity|].
  rewrite (get_prop_field (Some c) "commit"), H1. cbn [bind].
  rewrite (get_prop_field (field "commit" (Some c)) "message").
  destruct (nullish (field "commit" (Some c))) eqn:H2; cbn [bind orb];
    [reflexivity|].
  rewrite (get_prop_field (field "commit" (Some c)) "author"), H2. cbn [bind].
  rewrite get_prop_field.
  destruct (nullish (field "author" (field "commit" (Some c))));
    cbn [bind orb]; [reflexivity|].
  unfold to_primitive.
  destruct (primitive_ok _); reflexivity.
Qed.

(** ** Where the displayed commits come from *)

Lemma fetchRepoCommits_nonempty_inv newDate net i r l c :
  fetchRepoCommits newDate net i r = Return l -> c ∈ l ->
  r <> JNull /\
  exists response payload,
    commitsCall net i (full_name r) = Return response /\
    ok response = true /\
    body response = Return (JArray payload) /\
    mapM (toCommit newDate r) payload = Return l.
Proof.
  intros H Hc.
  assert (Hr : r <> JNull) by (intros ->; discriminate).
  split; [exact Hr|]. revert H. unfold fetchRepoCommits.
  rewrite (get_full_name r Hr). simpl. unfold to_primitive.
  destruct (primitive_ok (full_name r)); simpl; [|discriminate].
  destruct (commitsCall net i (full_name r)) as [response|e]; simpl.
  2:{ intros [= Heq]. subst l. inversion Hc. }
  destruct (ok response) eqn:Hok; simpl.
  2:{ destruct (body response); simpl; intros [= Heq]; subst l; inversion Hc. }
  destruct (body response) as [payload|e] eqn:Hb; simpl.
  2:{ intros [= Heq]. subst l. inversion Hc. }
  destruct payload as [| | | |items|]; simpl;
    try (intros [= Heq]; subst l; inversion Hc).
  destruct (mapM (toCommit newDate r) items) as [cs|e] eqn:Hm; simpl.
  - intros [= Heq]. subst l. exists response, items. auto.
  - intros [= Heq]. subst l. inversion Hc.
Qed.

Lemma toCommit_repo newDate r j c :
  r <> JNull -> toCommit newDate r j = Return c -> repo c = full_name r.
Proof.
  intros Hr. unfold toCommit. rewrite (get_full_name r Hr).
  destruct (get_prop (Some j) "sha") as [sha|]; cbn [bind]; [|discriminate].
  destruct (get_prop (Some j) "commit") as [cm|]; cbn [bind]; [|discriminate].
  destruct (get_prop cm "message") as [m|]; cbn [bind]; [|discriminate].
  destruct (get_prop cm "author") as [au|]; cbn [bind]; [|discriminate].
  destruct (get_prop au "date") as [d|]; cbn [bind]; [|discriminate].
  destruct (to_primitive d); cbn [bind]; [|discriminate]. now intros [= <-].
Qed.

Lemma elem_of_concat {A : Type} (x : A) (ls : list (list A)) :
  x ∈ concat ls -> exists l, l ∈ ls /\ x ∈ l.
Proof.
  intros H%list_elem_of_In%in_concat. destruct H as (l & Hl & Hx).
  exists l. split; now apply list_elem_of_In.
Qed.

Lemma elem_of_flattenedCommits c allCommits :
  c ∈ flattenedCommits allCommits -> c ∈ concat allCommits.
Proof.
  unfold flattenedCommits. intros H.
  rewrite <- (js_sort_perm byTimestampDesc (concat allCommits)).
  rewrite <- (take_drop 25 (js_sort byTimestampDesc (concat allCommits))).
  apply elem_of_app. now left.
Qed.

(** X4: every commit handed to the display was read from the answer to the
    commits request of a repository of the list, and carries the
    [full_name] of that repository. *)
Theorem displayed_commits_were_fetched newDate net response items l c :
  reposCall net = Return response ->
  body response = Return (JArray items) ->
  fetchCommits_try newDate net = Return l ->
  c ∈ l ->
  exists i r answer payload j,
    items !! i = Some r /\
    commitsCall net i (full_name r) = Return answer /\
    ok answer = true /\
    body answer = Return (JArray payload) /\
    j ∈ payload /\
    toCommit newDate r j = Return c /\
    repo c = full_name r.
Proof.
  intros H1 H3 Hl Hc. revert Hl. unfold fetchCommits_try.
  rewrite H1. simpl. destruct (ok response); simpl; [|discriminate].
  rewrite H3. simpl.
  destruct (mapM_from (fetchRepoCommits newDate net) 0 items)
    as [allCommits|e] eqn:Hall; simpl; [|discriminate].
  intros [= <-].
  apply elem_of_flattenedCommits, elem_of_concat in Hc as (li & Hli & Hc).
  apply list_elem_of_lookup in Hli as [i Hi].
  destruct (mapM_from_lookup _ _ _ _ _ _ Hall Hi) as (r & Hr & Hfetch).
  simpl in Hfetch.
  destruct (fetchRepoCommits_nonempty_inv _ _ _ _ _ _ Hfetch Hc)
    as (Hnn & answer & payload & Hcall & Hok & Hbody & Hm).
  destruct (mapM_returns_inv _ _ _ _ Hm Hc) as (j & Hj & Hto).
  exists i, r, answer, payload, j.
  repeat split; auto. now apply (toCommit_repo newDate r j).
Qed.

Lemma displayed_commits_witness :
  exists i r,
    [sampleRepo "a/x"; sampleRepo "b/y"] !! i = Some r /\
    repo c2 = full_name r.
Proof.
  destruct (displayed_commits_were_fetched sampleDate sampleNet
              (mkResponse true 200
                 (Return (JArray [sampleRepo "a/x"; sampleRepo "b/y"])))
              [sampleRepo "a/x"; sampleRepo "b/y"] [c2; c1; c3] c2
              eq_refl eq_refl sample_cycle)
    as (i & r & _ & _ & _ & Hi & _ & _ & _ & _ & _ & Hrepo).
  - apply elem_of_cons. now left.
  - exists i, r. split; assumption.
Defined.

(** X5: the commits left out by the cut to 25 are as many as were fetched
    beyond 25 (none when at most 25 were fetched), together with the list
    displayed they are the fetched commits, and when all dates are valid
    none of them is more recent than a displayed one. *)
Theorem truncation_keeps_most_recent (allCommits : list (list Commit)) :
  exists rest,
    Permutation (flattenedCommits allCommits ++ rest) (concat allCommits) /\
    length rest = (length (concat allCommits) - 25)%nat /\
    (Forall valid_date (concat allCommits) ->
     forall kept dropped,
       kept ∈ flattenedCommits allCommits -> dropped ∈ rest ->
       not_older kept dropped).
Proof.
  exists (drop 25 (js_sort byTimestampDesc (concat allCommits))).
  unfold flattenedCommits. rewrite take_drop. split; [apply js_sort_perm|].
  split; [now rewrite length_drop, js_sort_length|].
  intros Hv kept dropped Hk Hd.
  apply (StronglySorted_app_1_elem_of not_older
           (take 25 (js_sort byTimestampDesc (concat allCommits)))
           (drop 25 (js_sort byTimestampDesc (concat allCommits)))); auto.
  rewrite take_drop.
  apply js_sort_ordered with (P := valid_date); auto.
  - apply not_older_trans.
  - apply comes_first_not_older.
  - apply comes_later_not_older.
Qed.

Lemma truncation_witness :
  exists rest,
    Permutation ([c2; c1; c3] ++ rest) [c1; c2; c3] /\ rest = [].
Proof.
  destruct (truncation_keeps_most_recent [[]; [c1; c2; c3]])
    as (rest & Hperm & Hlen & _).
  exists rest. split; [exact Hperm|]. now destruct rest.
Defined.

(** ** Ties *)

Lemma insert_sorted_at_time t x l :
  List.filter (at_time t) (insert_sorted byTimestampDesc x l)
  = List.filter (at_time t) (x :: l).
Proof.
  induction l as [|y l IH]; [reflexivity|].
  cbn [insert_sorted]. destruct (comes_first byTimestampDesc x y) eqn:Hxy;
    [reflexivity|].
  cbn [List.filter] in *. rewrite IH.
  destruct (at_time t x) eqn:Hx; [|reflexivity].
  destruct (at_time t y) eqn:Hy; [|reflexivity].
  exfalso. unfold at_time in Hx, Hy.
  apply bool_decide_eq_true in Hx, Hy.
  unfold comes_first, sort_compare, byTimestampDesc in Hxy.
  rewrite Hx, Hy in Hxy. apply Z.leb_gt in Hxy. lia.
Qed.

Lemma js_sort_at_time t l :
  List.filter (at_time t) (js_sort byTimestampDesc l)
  = List.filter (at_time t) l.
Proof.
  induction l as [|x l IH]; [reflexivity|].
  cbn [js_sort]. rewrite insert_sorted_at_time. cbn [List.filter].
  now rewrite IH.
Qed.

(** X6: when every fetched commit has a valid date, the commits of one
    timestamp are displayed in the order they were fetched in: the
    displayed ones of that timestamp are a prefix of the fetched ones. *)
Theorem equal_timestamps_keep_fetch_order (allCommits : list (list Commit))
    (t : Z) :
  Forall valid_date (concat allCommits) ->
  List.filter (at_time t) (flattenedCommits allCommits)
    `prefix_of` List.filter (at_time t) (concat allCommits).
Proof.
  intros _. unfold flattenedCommits.
  rewrite <- (js_sort_at_time t (concat allCommits)).
  rewrite <- (take_drop 25 (js_sort byTimestampDesc (concat allCommits))) at 2.
  rewrite List.filter_app. now eexists.
Qed.

(** X6 on the three commits of the sample repository, two of one
    timestamp. *)
Lemma equal_timestamps_witness :
  List.filter (at_time 1704153600000) (flattenedCommits [[c1; c2; c3]])
    `prefix_of` List.filter (at_time 1704153600000) (concat [[c1; c2; c3]]).
Proof.
  apply (equal_timestamps_keep_fetch_order [[c1; c2; c3]] 1704153600000).
  repeat constructor; eexists; reflexivity.
Defined.

(** ** Nothing fetched *)

Lemma mapM_from_all_failed newDate net items k :
  (forall i r, items !! i = Some r ->
     repository r /\ failed (commitsCall net (k + i)%nat (full_name r))) ->
  mapM_from (fetchRepoCommits newDate net) k items
  = Return (map (fun _ => []) items).
Proof.
  revert k. induction items as [|r items IH]; intros k H; [reflexivity|].
  simpl. destruct (H 0%nat r eq_refl) as [Hr Hf].
  rewrite Nat.add_0_r in Hf.
  rewrite (fetchRepoCommits_failed newDate net k r Hr Hf). simpl.
  rewrite (IH (S k)); [reflexivity|].
  intros i r' Hi. rewrite Nat.add_succ_l, <- Nat.add_succ_r. now apply H.
Qed.

Lemma concat_nils {A B : Type} (l : list B) :
  concat (map (fun _ => @nil A) l) = [].
Proof. induction l; simpl; auto. Qed.

(** X7: when the commits request fails for every repository of the list
    (an empty list included), the cycle succeeds with an empty list: the
    list displayed before is replaced by it, [loading] is cleared and the
    error state is not touched. *)
Theorem all_repositories_failing_gives_empty_list
    newDate net response items s :
  reposCall net = Return response -> ok response = true ->
  body response = Return (JArray items) ->
  all_failed net items ->
  fetchCommits_try newDate net = Return [] /\
  commits (settle newDate net s) = [] /\
  loading (settle newDate net s) = false /\
  error (settle newDate net s) = error s.
Proof.
  intros H1 H2 H3 Hall.
  assert (Hcycle : fetchCommits_try newDate net = Return []).
  { rewrite (fetchCommits_try_flattened newDate net response items
               (map (fun _ => []) items) H1 H2 H3).
    - unfold flattenedCommits. now rewrite concat_nils.
    - apply mapM_from_all_failed. intros i r Hi. now apply Hall. }
  rewrite (settle_success _ _ _ _ Hcycle). auto.
Qed.

Lemma all_repositories_failing_witness :
  commits (settle sampleDate deafNet
             (settle sampleDate sampleNet (initialState 0))) = [].
Proof.
  apply (all_repositories_failing_gives_empty_list sampleDate deafNet
           (mkResponse true 200
              (Return (JArray [sampleRepo "a/x"; sampleRepo "b/y"])))
           [sampleRepo "a/x"; sampleRepo "b/y"]); try reflexivity.
  intros [|[|i]] r Hi; simpl in Hi; try discriminate;
    injection Hi as <-; repeat split; discriminate.
Defined.

(** ** The fetch interval *)

Section Polling.
Variable env : Env.

Lemma poll_part_fire tm w :
  poll_part (fire env tm w) = fire_poll (poll_part w) tm.
Proof.
  unfold poll_part, fetchTimers, fire_poll.
  rewrite cycles_fire, timers_fire, !List.filter_app, filter_rearmed.
  destruct (task tm) eqn:Hk; simpl; rewrite ?app_nil_r; reflexivity.
Qed.

Lemma poll_part_fired ds w :
  poll_part (foldl (fun w tm => fire env tm w) w ds)
  = foldl fire_poll (poll_part w) ds.
Proof.
  revert w. induction ds as [|tm ds IH]; intros w; simpl; [reflexivity|].
  now rewrite IH, poll_part_fire.
Qed.

Lemma fire_poll_filter p ds :
  foldl fire_poll p ds
  = foldl fire_poll p (List.filter (fun tm => is_fetch_tick (task tm)) ds).
Proof.
  revert p. induction ds as [|tm ds IH]; intros p; simpl; [reflexivity|].
  destruct (is_fetch_tick (task tm)) eqn:Hk; simpl; [apply IH|].
  rewrite IH. unfold fire_poll at 2. now rewrite Hk.
Qed.

Lemma poll_part_elapse w :
  poll_part (elapse env w) =
  foldl fire_poll
    (cycles w,
     List.filter (fun tm => negb (due tm <=? now w + 1)) (fetchTimers w))
    (List.filter (fun tm => due tm <=? now w + 1) (fetchTimers w)).
Proof.
  unfold elapse. rewrite poll_part_fired, fire_poll_filter.
  unfold poll_part, fetchTimers. simpl. f_equal.
  - f_equal. apply filter_comm.
  - apply filter_comm.
Qed.

Lemma poll_inv_elapse t0 w : poll_inv t0 w -> poll_inv t0 (elapse env w).
Proof.
  intros (k & Hk & Hnow & Hc & Ht).
  pose proof (poll_part_elapse w) as H. rewrite Ht in H. simpl in H.
  unfold poll_part in H. unfold poll_inv. rewrite now_elapse.
  destruct (Z.leb_spec (t0 + 300000 * (k + 1)) (now w + 1)) as [Hd|Hd];
    simpl in H; unfold fire_poll, rearmed in H; simpl in H;
    injection H as Hc' Ht'.
  - exists (k + 1). rewrite Hc', Ht'.
    split; [lia|]. split; [lia|]. split; [lia|].
    repeat (f_equal; try lia).
  - exists k. rewrite Hc', Ht'. repeat split; auto; lia.
Qed.

Lemma poll_inv_ext t0 w w' :
  now w' = now w -> cycles w' = cycles w -> timers w' = timers w ->
  poll_inv t0 w -> poll_inv t0 w'.
Proof.
  intros Hn Hc Ht (k & H). exists k.
  unfold fetchTimers in *. now rewrite Hn, Hc, Ht.
Qed.

Lemma poll_inv_advance t0 e w :
  poll_inv t0 w -> poll_inv t0 (advance env w e).
Proof.
  destruct e as [|path|key];
    rewrite ?advance_Tick, ?advance_Click, ?advance_KeyDown; intros H.
  - now apply poll_inv_elapse.
  - unfold handled. destruct (component w) as [s|]; [|exact H].
    apply (poll_inv_ext t0 w); simpl;
      rewrite ?now_setState, ?cycles_setState, ?timers_setState; auto.
  - rewrite keyDown_calls. now apply (poll_inv_ext t0 w).
Qed.

Lemma poll_inv_mount t style ls0 : poll_inv t (mount env t style ls0).
Proof. exists 0. simpl. repeat split; lia. Qed.

Lemma poll_inv_run t style ls0 events s :
  component (run env events (mount env t style ls0)) = Some s ->
  poll_inv t (run env events (mount env t style ls0)).
Proof.
  apply mounted_run; [|apply poll_inv_mount].
  intros w e. apply poll_inv_advance.
Qed.

Lemma one_shot_fetchTimers w :
  Forall one_shot (timers w) -> fetchTimers w = [].
Proof.
  unfold fetchTimers. induction 1 as [|tm l [_ Hf] _ IH]; [reflexivity|].
  simpl. rewrite IH. destruct (task tm); try reflexivity. congruence.
Qed.

(** X8: for as long as the component is mounted, a poll cycle starts at
    the mount and then every 300000 ms on the simulated clock, however long
    the cycles take: [n] ms after the mount [1 + n / 300000] cycles were
    started, and the fetch interval is pending exactly once, due at the next
    multiple of 300000 ms.  Once React has unmounted the component the fetch
    interval is pending no more. *)
Theorem poll_cycle_every_five_minutes t style listeners events :
  (forall s,
     component (run env events (mount env t style listeners)) = Some s ->
     Z.of_nat (cycles (run env events (mount env t style listeners)))
       = 1 + ticks events / 300000 /\
     exists next,
       fetchTimers (run env events (mount env t style listeners))
         = [mkTimer next (Some 300000) FetchTick] /\
       next = t + 300000 * (ticks events / 300000 + 1)) /\
  (component (run env events (mount env t style listeners)) = None ->
   fetchTimers (run env events (mount env t style listeners)) = []).
Proof.
  split.
  - intros s Hs.
    destruct (poll_inv_run t style listeners events s Hs)
      as (k & Hk & Hrange & Hc & Ht).
    rewrite (now_run env t style listeners events) in Hrange.
    pose proof (ticks_nonneg events) as Hn.
    assert (Hdiv : ticks events / 300000 = k).
    { symmetry. apply (Z.div_unique _ _ _ (ticks events - 300000 * k)); lia. }
    rewrite Hdiv. split; [lia|]. eexists. split; [exact Ht|reflexivity].
  - intros Hs. apply one_shot_fetchTimers.
    now destruct (left_behind_run env t style listeners events Hs)
      as (_ & _ & _ & Ht).
Qed.

Lemma document_expire_None w tm :
  component w = None ->
  body_style (expire env w tm) = body_style w /\
  keydown_listeners (expire env w tm) = keydown_listeners w.
Proof.
  intros Hw. unfold expire. destruct (cleared w tm); [auto|].
  rewrite rerender_None by (now rewrite component_fire, Hw).
  now rewrite body_style_fire, listeners_fire.
Qed.

Lemma document_expired_None ds w :
  component w = None ->
  body_style (foldl (expire env) w ds) = body_style w /\
  keydown_listeners (foldl (expire env) w ds) = keydown_listeners w.
Proof.
  revert w. induction ds as [|tm ds IH]; intros w Hw; simpl; [auto|].
  destruct (document_expire_None w tm Hw) as [H1 H2].
  destruct (IH _ (expire_None env w tm Hw)) as [H3 H4].
  split; congruence.
Qed.

(** X9: the passing of a millisecond, with every timer and every settling
    cycle that falls due in it, calls no callback of the parent.  When the
    component is mounted after it, the body style and the listeners of the
    document are as before, and so are [isFullscreen] and [isMinimized];
    when a render threw in it, the document is as the cleanups leave it;
    and when the component was unmounted before, the document is as
    before. *)
Theorem time_passing_leaves_user_side_alone w :
  called (tick env w) = called w /\
  (forall s',
     component (tick env w) = Some s' ->
     body_style (tick env w) = body_style w /\
     keydown_listeners (tick env w) = keydown_listeners w /\
     (isFullscreen <$> component w) = Some (isFullscreen s') /\
     (isMinimized <$> component w) = Some (isMinimized s')) /\
  (forall s,
     component w = Some s -> component (tick env w) = None ->
     body_style (tick env w) = fullscreenCleanup (body_style w) /\
     keydown_listeners (tick env w)
       = remove_first (EscapeListener (props env)) (keydown_listeners w)) /\
  (component w = None ->
   body_style (tick env w) = body_style w /\
   keydown_listeners (tick env w) = keydown_listeners w).
Proof.
  split; [apply called_tick|]. split; [|split].
  - intros s' Hs'. pose proof (static_part_elapse env w) as H.
    rewrite <- (tick_elapse env w s' Hs') in H.
    unfold static_part in H. rewrite Hs' in H. simpl in H.
    injection H as Hc Hb Hl _.
    destruct (component w) as [s|]; [|discriminate].
    simpl in *. injection Hc as Hf Hm. repeat split; congruence.
  - intros s Hs Hnone.
    destruct (tick_unmounts env w s Hs Hnone) as (H1 & H2 & _). auto.
  - intros Hw. unfold tick.
    match goal with
    | |- context [foldl _ ?w0 ?ds] =>
        destruct (document_expired_None ds w0 Hw) as [H1 H2]
    end.
    auto.
Qed.
End Polling.

(** ** The lifetime of the component *)

Section Lifetime.
Variable env : Env.

(** *** After the unmount *)

Lemma unmounted_step w e :
  unmounted w ->
  unmounted (step env w e) /\
  called (step env w e) = called w /\
  cycles (step env w e) = cycles w /\
  body_style (step env w e) = body_style w.
Proof.
  intros (Hc & Hl & Ht). destruct e as [|path|key];
    rewrite ?step_Tick, ?step_Click, ?step_KeyDown.
  - destruct (tick_gone env w Hc Ht) as (H1 & H2 & H3 & H4 & H5).
    repeat split; auto; [congruence|apply called_tick].
  - unfold userClick. rewrite Hc. repeat split; auto.
  - rewrite keyDown_calls, Hl. simpl. rewrite app_nil_r.
    repeat split; auto.
Qed.

Lemma unmounted_run w events :
  unmounted w ->
  unmounted (run env events w) /\
  called (run env events w) = called w /\
  cycles (run env events w) = cycles w /\
  body_style (run env events w) = body_style w.
Proof.
  intros Hw. induction events as [|e events IH] using rev_ind.
  - auto.
  - rewrite run_snoc. destruct IH as (Hu & H1 & H2 & H3).
    destruct (unmounted_step (run env events w) e Hu)
      as (Hu' & H1' & H2' & H3').
    repeat split; try apply Hu'; congruence.
Qed.

(** Unmounting a component that React has unmounted already changes
    nothing: the cleanups have run. *)
Lemma unmount_reached t style events :
  unmounted (unmount env (run env events (mount env t style []))) /\
  body_style (unmount env (run env events (mount env t style [])))
    = fullscreenCleanup (body_style (run env events (mount env t style []))) /\
  called (unmount env (run env events (mount env t style [])))
    = called (run env events (mount env t style [])) /\
  cycles (unmount env (run env events (mount env t style [])))
    = cycles (run env events (mount env t style [])).
Proof.
  rewrite called_unmount, cycles_unmount.
  destruct (component (run env events (mount env t style []))) as [s|] eqn:Hs.
  - destruct (static_inv_run env t style [] events s Hs)
      as (s0 & _ & _ & _ & _ & Hl).
    split; [|split; [|auto]].
    + split; [|split].
      * unfold unmount. now rewrite Hs.
      * unfold unmount. rewrite Hs, Hl. simpl. now rewrite decide_True.
      * apply unmount_timers. now rewrite Hs.
    + unfold unmount. now rewrite Hs.
  - destruct (left_behind_run env t style [] events Hs) as (Ho & _ & Hl & Ht).
    unfold unmount. rewrite Hs. split; [|split; [|auto]].
    + split; [exact Hs|]. split; [|exact Ht].
      rewrite Hl. simpl. now rewrite decide_True.
    + symmetry. now apply insert_id.
Qed.

(** X10: after the unmount the component has no state, the document has
    no listener of it, [overflow] stays as the cleanup left it, neither
    interval is pending, and whatever timeouts and cycles in flight still
    fall due, whatever is clicked or pressed: no callback is called and no
    poll cycle starts. *)
Theorem nothing_happens_after_unmount t style events later :
  component
    (run env later (unmount env (run env events (mount env t style []))))
    = None /\
  called
    (run env later (unmount env (run env events (mount env t style []))))
    = called (run env events (mount env t style [])) /\
  cycles
    (run env later (unmount env (run env events (mount env t style []))))
    = cycles (run env events (mount env t style [])) /\
  body_style
    (run env later (unmount env (run env events (mount env t style []))))
    = fullscreenCleanup (body_style (run env events (mount env t style []))) /\
  keydown_listeners
    (run env later (unmount env (run env events (mount env t style []))))
    = [] /\
  Forall one_shot
    (timers
       (run env later (unmount env (run env events (mount env t style []))))).
Proof.
  destruct (unmount_reached t style events) as (Hu & Hb & Hc & Hn).
  destruct (unmounted_run _ later Hu) as ((H1 & H2 & H3) & H4 & H5 & H6).
  split; [exact H1|]. split; [congruence|]. split; [congruence|].
  split; [congruence|]. split; [exact H2|exact H3].
Qed.

(** *** Without [onClose] *)

Lemma called_step_without_onClose t style events e :
  onClose (props env) = None ->
  called (step env (run env events (mount env t style [])) e)
  = called (run env events (mount env t style [])).
Proof.
  intros Hnone. destruct e as [|path|key];
    rewrite ?step_Tick, ?step_Click, ?step_KeyDown.
  - apply called_tick.
  - destruct (component (run env events (mount env t style [])))
      as [s|] eqn:Hs.
    + rewrite (called_userClick env path _ s Hs), invocations_click, Hnone.
      destruct (view s); try case_decide; now rewrite app_nil_r.
    + unfold userClick. now rewrite Hs.
  - pose proof (listeners_run env t style events) as Hl.
    destruct (component (run env events (mount env t style []))).
    + rewrite (called_keyDown env key _ Hl), Hnone.
      destruct (String.eqb key "Escape"); now rewrite app_nil_r.
    + now apply called_keyDown_deaf.
Qed.

Lemma called_run_without_onClose t style events :
  onClose (props env) = None ->
  called (run env events (mount env t style [])) = [].
Proof.
  intros Hnone. induction events as [|e events IH] using rev_ind.
  - reflexivity.
  - now rewrite run_snoc, (called_step_without_onClose t style events e Hnone).
Qed.

(** *** What the fetch side never undoes *)

Lemma view_Error_iff s :
  view s = Error <-> loading s = false /\ truthy (error s) = true.
Proof.
  unfold view. destruct (loading s), (truthy (error s)), (isMinimized s);
    split; try intros [? ?]; try discriminate; auto.
Qed.

Lemma keeps_view_task_update t k : keeps_view (task_update env t k).
Proof.
  intros s. destruct k; simpl; try (split; auto; fail).
  unfold settle. destruct (fetchCommits_try _ _); simpl.
  - split; [auto|]. rewrite !view_Error_iff. simpl. tauto.
  - split; [auto|]. intros _. reflexivity.
Qed.

Lemma keeps_view_fired ds w :
  exists g, keeps_view g /\
    component (foldl (fun w tm => fire env tm w) w ds) = g <$> component w.
Proof.
  revert w. induction ds as [|tm ds IH]; intros w; simpl.
  - exists (fun s => s). split; [now intros s|]. now destruct (component w).
  - destruct (IH (fire env tm w)) as (g & Hg & Hc).
    exists (fun s => g (task_update env (now w) (task tm) s)). split.
    + intros s.
      destruct (keeps_view_task_update (now w) (task tm) s) as [H1 H2].
      destruct (Hg (task_update env (now w) (task tm) s)) as [H3 H4]. auto.
    + rewrite Hc, component_fire. now destruct (component w).
Qed.

Lemma keeps_view_advance w e s :
  component w = Some s ->
  exists s', component (advance env w e) = Some s' /\
    (loading s = false -> loading s' = false) /\
    (view s = Error -> view s' = Error).
Proof.
  intros Hs. destruct e as [|path|key];
    rewrite ?advance_Tick, ?advance_Click, ?advance_KeyDown.
  - unfold elapse.
    match goal with
    | |- context [foldl _ ?w0 ?ds] =>
        destruct (keeps_view_fired ds w0) as (g & Hg & Hc)
    end.
    exists (g s). split; [|apply Hg]. rewrite Hc. simpl. now rewrite Hs.
  - rewrite (component_handled env path w s Hs).
    eexists. split; [reflexivity|]. unfold afterClick.
    destruct (perform_view (click (render (props env) s) path) s)
      as (Hl & He & _).
    rewrite !view_Error_iff, Hl, He. auto.
  - rewrite keyDown_calls. simpl. eauto.
Qed.

(** The error view holds no value of the payload: no render of it throws,
    whatever the cycles bring. *)
Lemma error_view_step w e s :
  component w = Some s -> view s = Error ->
  step env w e = advance env w e.
Proof.
  intros Hs Hv. destruct e as [|path|key]; [| |reflexivity].
  - rewrite step_Tick, advance_Tick. unfold tick, elapse.
    apply (expired_while env (fun s => view s = Error) _ _ s); auto.
    + intros s0 Hs0. now rewrite renders_view, Hs0.
    + apply Forall_forall. intros tm _ t0 s0.
      apply keeps_view_task_update.
  - rewrite step_Click, advance_Click.
    apply (userClick_renderable env path w s Hs).
    now rewrite afterClick_cases, Hv, renders_view, Hv.
Qed.

(** X11: whatever happens after a state of the mounted component, for as
    long as the component is mounted: once [loading] is off it stays off,
    and once the error view is shown it stays shown.  From the error view
    on the component also stays mounted, since no render of the error view
    can throw. *)
Theorem loading_never_returns_error_never_leaves w later s :
  component w = Some s ->
  (forall s',
     component (run env later w) = Some s' ->
     (loading s = false -> loading s' = false) /\
     (view s = Error -> view s' = Error)) /\
  (view s = Error -> exists s', component (run env later w) = Some s').
Proof.
  intros Hs. split.
  - induction later as [|e later IH] using rev_ind; intros s' Hs'.
    + simpl in Hs'. rewrite Hs in Hs'. injection Hs' as <-. auto.
    + rewrite run_snoc in Hs'.
      destruct (component (run env later w)) as [s1|] eqn:Hs1.
      * destruct (IH s1 eq_refl) as [Hl1 Hv1].
        rewrite (step_advance env _ _ _ Hs') in Hs'.
        destruct (keeps_view_advance _ e s1 Hs1) as (s2 & Hs2 & Hl2 & Hv2).
        rewrite Hs2 in Hs'. injection Hs' as <-. auto.
      * rewrite (step_None env _ e Hs1) in Hs'. discriminate.
  - intros Hv.
    assert (H : exists s', component (run env later w) = Some s'
                           /\ view s' = Error);
      [|destruct H as (s' & H1 & _); eauto].
    induction later as [|e later IH] using rev_ind.
    + exists s. auto.
    + destruct IH as (s1 & Hs1 & Hv1).
      rewrite run_snoc, (error_view_step _ e s1 Hs1 Hv1).
      destruct (keeps_view_advance _ e s1 Hs1) as (s2 & Hs2 & _ & Hv2).
      exists s2. auto.
Qed.

(** *** What unmounts the component *)

Lemma showable_task_update t k s :
  (forall n l, fetchCommits_try (newDate env) (api env n) = Return l ->
     forallb showable l = true) ->
  forallb showable (commits s) = true ->
  forallb showable (commits (task_update env t k s)) = true.
Proof.
  intros Hapi Hs. destruct k; simpl; auto.
  unfold settle.
  destruct (fetchCommits_try (newDate env) (api env cycle)) as [l|e] eqn:Hl;
    simpl; [|exact Hs].
  now apply (Hapi cycle).
Qed.

Lemma renders_showable s :
  forallb showable (commits s) = true -> renders (props env) s = true.
Proof. intros Hs. rewrite renders_view. now destruct (view s). Qed.

Lemma showable_fired ds w s :
  (forall n l, fetchCommits_try (newDate env) (api env n) = Return l ->
     forallb showable l = true) ->
  component w = Some s -> forallb showable (commits s) = true ->
  exists s',
    component (foldl (fun w tm => fire env tm w) w ds) = Some s' /\
    forallb showable (commits s') = true.
Proof.
  intros Hapi. revert w s.
  induction ds as [|tm ds IH]; intros w s Hs Hq; simpl; [eauto|].
  apply (IH _ (task_update env (now w) (task tm) s)).
  - now rewrite component_fire, Hs.
  - now apply showable_task_update.
Qed.

Lemma showable_step w e s :
  (forall n l, fetchCommits_try (newDate env) (api env n) = Return l ->
     forallb showable l = true) ->
  component w = Some s -> forallb showable (commits s) = true ->
  exists s',
    component (step env w e) = Some s' /\
    forallb showable (commits s') = true.
Proof.
  intros Hapi Hs Hq. destruct e as [|path|key].
  - rewrite step_Tick. unfold tick.
    rewrite (expired_while env
               (fun s => forallb showable (commits s) = true) _ _ s);
      auto using renders_showable.
    + now apply showable_fired with (s := s).
    + apply Forall_forall. intros tm _ t0 s0.
      now apply showable_task_update.
  - assert (Hc : commits (afterClick (props env) path s) = commits s)
      by apply perform_view.
    rewrite step_Click, (userClick_renderable env path w s Hs).
    + rewrite (component_handled env path w s Hs).
      eexists. split; [reflexivity|]. now rewrite Hc.
    + apply renders_showable. now rewrite Hc.
  - rewrite step_KeyDown, keyDown_calls. simpl. eauto.
Qed.

(** X17: React unmounts the component only over a commit it cannot show.
    While every list that the poll cycles bring holds only commits whose
    key converts to a string and whose repository name and message are no
    objects, the component stays mounted, whatever the events, and the
    commits it holds can be shown. *)
Theorem component_stays_mounted_while_commits_show t style listeners events :
  (forall n l, fetchCommits_try (newDate env) (api env n) = Return l ->
     forallb showable l = true) ->
  exists s,
    component (run env events (mount env t style listeners)) = Some s /\
    forallb showable (commits s) = true.
Proof.
  intros Hapi. induction events as [|e events IH] using rev_ind.
  - simpl. eauto.
  - destruct IH as (s & Hs & Hq). rewrite run_snoc.
    now apply (showable_step _ e s).
Qed.

(** *** Fullscreen on and off *)

Lemma setIsFullscreen_back s :
  setIsFullscreen (isFullscreen s) (setIsFullscreen (negb (isFullscreen s)) s)
  = s.
Proof. now destruct s. Qed.

(** X12: in the normal view two clicks on the fullscreen toggle bring back
    the world as it was: the state, the body style, the timers and the
    record of calls. *)
Theorem fullscreen_twice_restores_the_world t style listeners events s :
  component (run env events (mount env t style listeners)) = Some s ->
  view s = Normal ->
  step env
    (step env (run env events (mount env t style listeners))
       (Click fullscreenButton))
    (Click fullscreenButton)
  = run env events (mount env t style listeners).
Proof.
  intros Hs Hv.
  pose proof (static_inv_run env t style listeners events s Hs) as Hinv.
  pose proof (rendered_run env t style listeners events) as Hr.
  pose proof Hinv as (s0 & Hs0 & _ & Ho & _).
  rewrite Hs in Hs0. injection Hs0 as <-.
  rewrite !step_Click.
  rewrite (userClick_reached env style listeners _ _ Hinv Hr).
  rewrite (userClick_reached env style listeners fullscreenButton
             (handled env fullscreenButton _)).
  2: now apply static_inv_handled.
  2: { intros s1 Hs1. rewrite (component_handled env _ _ s Hs) in Hs1.
       injection Hs1 as <-. rewrite renders_afterClick; [now apply Hr|].
       destruct Hinv as (s0 & Hs0 & Hm & _). congruence. }
  remember (run env events (mount env t style listeners)) as w eqn:Hw.
  clear Hw Hinv Hr. destruct w as [n c b ls tms cy cl]. simpl in Hs, Ho.
  subst c.
  unfold handled at 2. simpl.
  rewrite click_render, Hv. simpl.
  unfold handled, setState. simpl.
  rewrite click_render.
  change (view (setIsFullscreen (negb (isFullscreen s)) s)) with (view s).
  rewrite Hv. simpl. rewrite Bool.negb_involutive.
  unfold record_calls. simpl. rewrite !app_nil_r.
  destruct s as [cs l e r bl lu fs m]; simpl in *.
  f_equal. destruct fs; simpl;
    unfold fullscreenEffect, fullscreenCleanup;
    rewrite !insert_insert_eq; now apply insert_id.
Qed.
End Lifetime.

(** X13: as [Content] mounts it, without [onClose], the widget calls no
    callback, whatever is clicked or pressed and however long it runs. *)
Theorem content_widget_cannot_be_dismissed nd api lat t style events :
  called (run (mkEnv nd api lat contentProps) events
            (mount (mkEnv nd api lat contentProps) t style [])) = [].
Proof. now apply called_run_without_onClose. Qed.

(** *** Where commit rows are rendered *)

Lemma titleLabel_has_no_commit_row s path c :
  node_at (titleLabel s) path <> Some (commitRow c).
Proof. unfold titleLabel, commitRow, div, span. walk; congruence. Qed.

Lemma skeletonRow_has_no_commit_row path c :
  node_at skeletonRow path <> Some (commitRow c).
Proof. unfold skeletonRow, commitRow, div, span. walk; congruence. Qed.

Lemma minimizedView_has_no_commit_row path c :
  node_at minimizedView path <> Some (commitRow c).
Proof. unfold minimizedView, commitRow, div, span. walk; congruence. Qed.

Lemma commitRow_inside c' path c :
  path <> [] -> node_at (commitRow c') path <> Some (commitRow c).
Proof.
  intros Hp. unfold commitRow, div, span. walk; congruence.
Qed.

Lemma lookup_repeat {A : Type} (x y : A) (n i : nat) :
  repeat x n !! i = Some y -> y = x.
Proof.
  revert i. induction n as [|n IH]; intros [|i]; simpl; try discriminate.
  - now intros [= <-].
  - apply IH.
Qed.

Lemma skeleton_has_no_commit_row path c :
  node_at (div (repeat skeletonRow 10)) path <> Some (commitRow c).
Proof.
  destruct path as [|i path].
  - unfold commitRow, div, span. simpl. congruence.
  - unfold div at 1. cbn [node_at].
    destruct (repeat skeletonRow 10 !! i) as [row|] eqn:Hrow; [|discriminate].
    apply lookup_repeat in Hrow as ->. apply skeletonRow_has_no_commit_row.
Qed.

Lemma rows_commit_row cs path c :
  node_at (div (map commitRow cs)) path = Some (commitRow c) ->
  exists i c', path = [i] /\ cs !! i = Some c' /\ commitRow c' = commitRow c.
Proof.
  destruct path as [|i path].
  - unfold commitRow, div, span. simpl.
    destruct cs as [|c0 [|c1 [|c2 cs]]]; simpl; discriminate.
  - unfold div at 1. cbn [node_at]. rewrite list_lookup_fmap.
    destruct (cs !! i) as [c'|] eqn:Hc'; simpl; [|discriminate].
    destruct path as [|j path].
    + cbn [node_at]. intros H. exists i, c'.
      split; [reflexivity|]. split; [exact Hc'|]. congruence.
    + intros H. now apply commitRow_inside in H.
Qed.

Ltac mismatch :=
  unfold commitRow, div, span; simpl;
  let H := fresh in intros H; discriminate H.

Lemma layout_commit_row props cls label h dis glyph content path c :
  (forall p, node_at label p <> Some (commitRow c)) ->
  node_at (layout props cls label h dis glyph content) path
    = Some (commitRow c) ->
  exists p, path = (0 :: 1 :: p)%nat /\ node_at content p = Some (commitRow c).
Proof.
  intros Hlabel. unfold layout, closeButton.
  destruct path as [|[|?] p1]; [mismatch| |discriminate].
  destruct p1 as [|[|[|?]] p2]; [mismatch| | |discriminate].
  - destruct p2 as [|[|[|?]] p3]; [mismatch| | |discriminate].
    + cbn [node_at lookup list_lookup div]. intros H. now apply Hlabel in H.
    + unfold commitRow, div, span. intros H.
      cbn [node_at lookup list_lookup] in H. walk; discriminate H.
  - cbn [node_at lookup list_lookup]. intros H. exists p2. auto.
Qed.

(** X14: a commit row is rendered only in the normal view, and there only
    as the [i]-th child of the content area for the [i]-th commit of the
    state: the loading, the error and the minimized view contain none. *)
Theorem commit_rows_only_in_normal_view props s path c :
  node_at (render props s) path = Some (commitRow c) <->
  view s = Normal /\
  exists i c',
    path = [0; 1; i]%nat /\ commits s !! i = Some c' /\
    commitRow c' = commitRow c.
Proof.
  rewrite render_view. split.
  - destruct (view s) eqn:Hv.
    + rewrite loadingView_layout. intros H.
      apply layout_commit_row in H as (p & _ & H);
        [|intros p'; apply titleLabel_has_no_commit_row].
      now apply skeleton_has_no_commit_row in H.
    + intros H. now apply errorView_has_no_commit_row in H.
    + intros H. now apply minimizedView_has_no_commit_row in H.
    + rewrite normalView_layout. intros H.
      apply layout_commit_row in H as (p & -> & H);
        [|intros p'; apply titleLabel_has_no_commit_row].
      apply rows_commit_row in H as (i & c' & -> & Hc & Heq).
      split; [reflexivity|]. exists i, c'. auto.
  - intros (-> & i & c' & -> & Hc & <-).
    unfold normalView, div. cbn [node_at lookup list_lookup].
    now rewrite list_lookup_fmap, Hc.
Qed.

Lemma filter_nil_Forall {A : Type} (f : A -> bool) (l : list A) :
  List.filter f l = [] -> Forall (fun x => f x = false) l.
Proof.
  induction l as [|x l IH]; simpl; [constructor|].
  destruct (f x) eqn:Hx; [discriminate|]. intros H. constructor; auto.
Qed.

Lemma fetched_settle nd net s s' :
  fetched s = fetched s' ->
  fetched (settle nd net s) = fetched (settle nd net s').
Proof.
  unfold fetched, settle. intros [= Hl Hc He].
  destruct (fetchCommits_try nd net); simpl; congruence.
Qed.

(** ** The first cycle *)

Section InFlight.
Variable env : Env.

Lemma fetched_task_update t k s :
  is_settle k = false -> fetched (task_update env t k s) = fetched s.
Proof. destruct k; simpl; try reflexivity. discriminate. Qed.

Lemma settleTimers_fire tm w :
  is_fetch_tick (task tm) = false ->
  every tm = None \/ is_settle (task tm) = false ->
  settleTimers (fire env tm w) = settleTimers w.
Proof.
  intros Hf He. unfold settleTimers.
  rewrite timers_fire, !List.filter_app, filter_rearmed.
  assert (Hr : (if is_settle (task tm) then rearmed tm else []) = []).
  { destruct He as [He|He]; [|now rewrite He].
    unfold rearmed. rewrite He. now destruct (is_settle (task tm)). }
  rewrite Hr. destruct (task tm); simpl in *; try discriminate;
    now rewrite ?app_nil_r.
Qed.

Lemma bystanders_fired ds w :
  Forall bystander ds ->
  (fetched <$> component (foldl (fun w tm => fire env tm w) w ds))
    = (fetched <$> component w) /\
  settleTimers (foldl (fun w tm => fire env tm w) w ds) = settleTimers w.
Proof.
  intros Hds. revert w. induction Hds as [|tm ds [Hs Hf] _ IH]; intros w; simpl.
  - auto.
  - destruct (IH (fire env tm w)) as [H1 H2]. rewrite H1, H2. split.
    + rewrite component_fire. destruct (component w); simpl; [|reflexivity].
      now rewrite fetched_task_update.
    + apply settleTimers_fire; auto.
Qed.

Lemma no_settle_fired ds w :
  Forall (fun tm => is_settle (task tm) = false) ds ->
  (fetched <$> component (foldl (fun w tm => fire env tm w) w ds))
    = (fetched <$> component w).
Proof.
  intros Hds. revert w. induction Hds as [|tm ds Hs _ IH]; intros w; simpl.
  - auto.
  - rewrite IH, component_fire. destruct (component w); simpl; [|reflexivity].
    now rewrite fetched_task_update.
Qed.

Lemma settle_once_fired ds w s n T :
  List.filter (fun tm => is_settle (task tm)) ds = [T] ->
  task T = FetchSettled n -> every T = None ->
  Forall (fun tm => is_fetch_tick (task tm) = false) ds ->
  component w = Some s ->
  exists s',
    component (foldl (fun w tm => fire env tm w) w ds) = Some s' /\
    fetched s' = fetched (settle (newDate env) (api env n) s) /\
    settleTimers (foldl (fun w tm => fire env tm w) w ds) = settleTimers w.
Proof.
  intros Hfil HT HeT Hft. revert w s.
  induction Hft as [|tm ds Hf Hft IH]; intros w s Hs; simpl in *.
  - discriminate.
  - destruct (is_settle (task tm)) eqn:Htm.
    + injection Hfil as -> Hnil.
      assert (Hby : Forall bystander ds).
      { apply filter_nil_Forall in Hnil.
        apply Forall_forall. intros x Hx. split.
        - now apply (proj1 (Forall_forall _ _) Hnil).
        - now apply (proj1 (Forall_forall _ _) Hft). }
      destruct (bystanders_fired ds (fire env T w) Hby) as [H1 H2].
      rewrite component_fire, Hs, HT in H1. simpl in H1.
      destruct (component (foldl _ (fire env T w) ds)) as [s'|];
        [|discriminate].
      exists s'. split; [reflexivity|].
      split; [simpl in H1; congruence|].
      rewrite H2. apply settleTimers_fire; auto.
    + destruct (IH Hfil (fire env tm w) (task_update env (now w) (task tm) s))
        as (s' & H1 & H2 & H3).
      { now rewrite component_fire, Hs. }
      exists s'. split; [exact H1|]. split.
      * rewrite H2. apply fetched_settle. now apply fetched_task_update.
      * rewrite H3. apply settleTimers_fire; auto.
Qed.

Lemma due_fetchTimers_tick w :
  List.filter (fun tm => is_fetch_tick (task tm))
    (List.filter (fun tm => due tm <=? now w + 1) (timers w))
  = List.filter (fun tm => due tm <=? now w + 1) (fetchTimers w).
Proof. apply filter_comm. Qed.

Lemma due_settleTimers_tick w :
  List.filter (fun tm => is_settle (task tm))
    (List.filter (fun tm => due tm <=? now w + 1) (timers w))
  = List.filter (fun tm => due tm <=? now w + 1) (settleTimers w).
Proof. apply filter_comm. Qed.

Lemma later_settleTimers_tick w :
  List.filter (fun tm => is_settle (task tm))
    (List.filter (fun tm => negb (due tm <=? now w + 1)) (timers w))
  = List.filter (fun tm => negb (due tm <=? now w + 1)) (settleTimers w).
Proof. apply filter_comm. Qed.
End InFlight.

Section FirstSettle.
Variable env : Env.
Hypothesis quick : Z.of_nat (latency env 0) < 300000.

Lemma first_cycle_inv_elapse t0 w :
  poll_inv t0 w ->
  first_cycle_inv env t0 (first_settle env) w ->
  first_cycle_inv env t0 (first_settle env) (elapse env w).
Proof.
  intros (k & Hk & Hrange & _ & Hft) (s & Hs & P1 & P2 & P3 & P4).
  destruct (keeps_view_advance env w Tick s Hs) as (s' & Hs' & Hl' & _).
  rewrite advance_Tick in Hs'. exists s'. split; [exact Hs'|].
  rewrite now_elapse. unfold first_settle in *.
  assert (Hfetch :
    Forall (fun tm => is_fetch_tick (task tm) = false)
      (List.filter (fun tm => due tm <=? now w + 1) (timers w)) \/
    t0 + 300000 <= now w + 1).
  { destruct (Z.le_gt_cases (t0 + 300000) (now w + 1)) as [H|H]; [now right|].
    left. apply filter_nil_Forall. rewrite due_fetchTimers_tick, Hft. simpl.
    destruct (Z.leb_spec (t0 + 300000 * (k + 1)) (now w + 1));
      [lia|reflexivity]. }
  unfold elapse in Hs'.
  destruct (Z.lt_ge_cases (now w) (t0 + Z.max 1 (Z.of_nat (latency env 0))))
    as [Hbefore|Hafter].
  - destruct (P1 Hbefore) as [Hf Hst].
    destruct Hfetch as [Hfetch|Hlate]; [|lia].
    destruct (Z.lt_ge_cases (now w + 1)
                (t0 + Z.max 1 (Z.of_nat (latency env 0)))) as [Hstill|Hflip].
    + (* the first cycle is still in flight *)
      match type of Hs' with
      | component (foldl _ ?w0 ?ds) = _ =>
          destruct (bystanders_fired env ds w0) as [H1 H2]
      end.
      { apply Forall_forall. intros tm Htm. split.
        - revert tm Htm. apply Forall_forall, filter_nil_Forall.
          rewrite due_settleTimers_tick, Hst. simpl.
          destruct (Z.leb_spec (t0 + Z.of_nat (latency env 0)) (now w + 1));
            [lia|reflexivity].
        - now apply (proj1 (Forall_forall _ _) Hfetch). }
      rewrite Hs' in H1. simpl in H1. rewrite Hs in H1. simpl in H1.
      split; [|split; [|split]]; try (intros; lia).
      intros _. split; [congruence|].
      unfold elapse. rewrite H2. unfold settleTimers at 1. simpl.
      rewrite later_settleTimers_tick, Hst. simpl.
      destruct (Z.leb_spec (t0 + Z.of_nat (latency env 0)) (now w + 1));
        [lia|reflexivity].
    + (* the first cycle settles *)
      match type of Hs' with
      | component (foldl _ ?w0 ?ds) = _ =>
          destruct (settle_once_fired env ds w0 s 0%nat
                      (mkTimer (t0 + Z.of_nat (latency env 0)) None
                         (FetchSettled 0)))
            as (s2 & Hs2 & Hf2 & Hst2)
      end; auto.
      { rewrite due_settleTimers_tick, Hst. simpl.
        destruct (Z.leb_spec (t0 + Z.of_nat (latency env 0)) (now w + 1));
          [reflexivity|lia]. }
      rewrite Hs' in Hs2. injection Hs2 as <-.
      assert (Hinit : fetched s'
                      = fetched (settle (newDate env) (api env 0)
                                   (initialState t0))).
      { rewrite Hf2. apply fetched_settle. rewrite Hf. reflexivity. }
      split; [intros; lia|]. split; [|split].
      * intros _.
        replace (loading s')
          with (loading (settle (newDate env) (api env 0) (initialState t0)))
          by (unfold fetched in Hinit; congruence).
        unfold settle. now destruct (fetchCommits_try _ _).
      * intros _. unfold elapse. rewrite Hst2. unfold settleTimers at 1. simpl.
        rewrite later_settleTimers_tick, Hst. simpl.
        destruct (Z.leb_spec (t0 + Z.of_nat (latency env 0)) (now w + 1));
          [reflexivity|lia].
      * intros _. exact Hinit.
  - specialize (P2 Hafter). split; [intros; lia|].
    split; [auto|]. split.
    + intros Hnow. destruct Hfetch as [Hfetch|Hlate]; [|lia].
      match type of Hs' with
      | component (foldl _ ?w0 ?ds) = _ =>
          destruct (bystanders_fired env ds w0) as [_ H2]
      end.
      { apply Forall_forall. intros tm Htm. split.
        - revert tm Htm. apply Forall_forall, filter_nil_Forall.
          rewrite due_settleTimers_tick, P3 by lia. reflexivity.
        - now apply (proj1 (Forall_forall _ _) Hfetch). }
      unfold elapse. rewrite H2. unfold settleTimers at 1. simpl.
      rewrite later_settleTimers_tick, P3 by lia. reflexivity.
    + intros Hnow.
      match type of Hs' with
      | component (foldl _ ?w0 ?ds) = _ =>
          pose proof (no_settle_fired env ds w0) as H1
      end.
      rewrite Hs' in H1. simpl in H1. rewrite Hs in H1. simpl in H1.
      rewrite <- P4 by lia.
      assert (Hsame : Some (fetched s') = Some (fetched s)); [|congruence].
      apply H1. apply filter_nil_Forall.
      rewrite due_settleTimers_tick, P3 by lia. reflexivity.
Qed.

Lemma first_cycle_inv_ext t0 n0 w w' s s' :
  component w = Some s -> component w' = Some s' ->
  fetched s' = fetched s -> now w' = now w -> timers w' = timers w ->
  first_cycle_inv env t0 n0 w -> first_cycle_inv env t0 n0 w'.
Proof.
  intros Hs Hs' Hf Hn Ht (s0 & Hs0 & P1 & P2 & P3 & P4).
  rewrite Hs in Hs0. injection Hs0 as <-.
  exists s'. split; [exact Hs'|].
  unfold settleTimers in *. rewrite Hn, Ht, Hf.
  repeat split; auto.
  - now apply P1.
  - now apply P1.
  - intros H. specialize (P2 H). unfold fetched in Hf. congruence.
Qed.

Lemma fetched_perform actions s : fetched (perform actions s) = fetched s.
Proof.
  unfold fetched. destruct (perform_view actions s) as (-> & -> & ->).
  reflexivity.
Qed.

Lemma first_cycle_inv_advance t0 w e :
  poll_inv t0 w ->
  first_cycle_inv env t0 (first_settle env) w ->
  first_cycle_inv env t0 (first_settle env) (advance env w e).
Proof.
  intros Hp Hinv. destruct e as [|path|key];
    rewrite ?advance_Tick, ?advance_Click, ?advance_KeyDown.
  - now apply first_cycle_inv_elapse.
  - pose proof Hinv as (s & Hs & _).
    apply (first_cycle_inv_ext t0 _ w _ s (afterClick (props env) path s));
      auto.
    + now apply component_handled.
    + apply fetched_perform.
    + unfold handled. rewrite Hs. simpl. now rewrite now_setState.
    + unfold handled. rewrite Hs. simpl. now rewrite timers_setState.
  - pose proof Hinv as (s & Hs & _). rewrite keyDown_calls.
    apply (first_cycle_inv_ext t0 _ w _ s s); auto.
Qed.

Lemma first_cycle_inv_mount t style ls0 :
  first_cycle_inv env t (first_settle env) (mount env t style ls0).
Proof.
  exists (setIsRefreshing true (initialState t)). simpl.
  unfold first_settle. repeat split; auto; intros; lia.
Qed.

Lemma first_cycle_inv_run t style ls0 events s :
  component (run env events (mount env t style ls0)) = Some s ->
  first_cycle_inv env t (first_settle env)
    (run env events (mount env t style ls0)).
Proof.
  intros Hs.
  apply (mounted_run env
           (fun w => poll_inv t w /\
                     first_cycle_inv env t (first_settle env) w)
           events _ s); [| |exact Hs].
  - intros w e [Hp Hf]. split.
    + now apply poll_inv_advance.
    + now apply first_cycle_inv_advance.
  - split; [apply poll_inv_mount|apply first_cycle_inv_mount].
Qed.

(** While the skeleton is shown no render throws: it holds no value of the
    payload. *)
Lemma loading_step w e s :
  component w = Some s -> loading s = true ->
  (e = Tick ->
   Forall (fun tm => is_settle (task tm) = false)
     (List.filter (fun tm => due tm <=? now w + 1) (timers w))) ->
  step env w e = advance env w e.
Proof.
  intros Hs Hl Hds.
  assert (Hview : forall s0, loading s0 = true ->
                    renders (props env) s0 = true).
  { intros s0 Hs0. rewrite renders_view. unfold view. now rewrite Hs0. }
  destruct e as [|path|key]; [| |reflexivity].
  - rewrite step_Tick, advance_Tick. unfold tick, elapse.
    apply (expired_while env (fun s => loading s = true) _ _ s); auto.
    apply Forall_forall. intros tm Htm t0 s0 Hs0.
    pose proof (fetched_task_update env t0 (task tm) s0
                  (proj1 (Forall_forall _ _) (Hds eq_refl) tm Htm)) as Hf.
    unfold fetched in Hf. congruence.
  - rewrite step_Click, advance_Click.
    apply (userClick_renderable env path w s Hs).
    rewrite afterClick_cases. unfold view at 1. rewrite Hl. now apply Hview.
Qed.

Lemma mounted_before_first_settle t style ls0 events :
  ticks events < first_settle env ->
  exists s, component (run env events (mount env t style ls0)) = Some s.
Proof.
  induction events as [|e events IH] using rev_ind; intros Hlt.
  - simpl. eauto.
  - rewrite ticks_snoc in Hlt. pose proof (ticks_nonneg events) as Hn.
    destruct IH as (s & Hs); [destruct e; lia|].
    destruct (first_cycle_inv_run t style ls0 events s Hs)
      as (s0 & Hs0 & P1 & _).
    rewrite Hs in Hs0. injection Hs0 as <-.
    rewrite (now_run env t style ls0 events) in P1.
    destruct P1 as [Hf Hst]; [destruct e; lia|].
    rewrite run_snoc, (loading_step _ e s Hs).
    + destruct (keeps_view_advance env _ e s Hs) as (s' & Hs' & _). eauto.
    + unfold fetched in Hf. congruence.
    + intros ->. apply filter_nil_Forall.
      rewrite due_settleTimers_tick, Hst.
      rewrite (now_run env t style ls0 events). simpl.
      unfold first_settle in Hlt.
      destruct (Z.leb_spec (t + Z.of_nat (latency env 0))
                  (t + ticks events + 1)); [lia|reflexivity].
Qed.

Lemma renders_fetched props s s' :
  fetched s = fetched s' -> isMinimized s = isMinimized s' ->
  renders props s = renders props s'.
Proof.
  unfold fetched. intros [= Hl Hc He] Hm. rewrite !renders_view.
  unfold view. now rewrite Hl, Hc, He, Hm.
Qed.

Lemma settle_twice nd net s :
  fetched (settle nd net (settle nd net s)) = fetched (settle nd net s).
Proof. unfold settle, fetched. now destruct (fetchCommits_try nd net). Qed.

(** What the first cycle gave cannot be rendered: the component is gone
    from the moment the cycle settles. *)
Lemma unmounted_after_first_settle t style ls0 events :
  first_settle env <= ticks events ->
  renders (props env) (settle (newDate env) (api env 0) (initialState t))
    = false ->
  component (run env events (mount env t style ls0)) = None.
Proof.
  intros Hge Hbad. induction events as [|e events IH] using rev_ind.
  - simpl in Hge. unfold first_settle in Hge. lia.
  - destruct (component (run env (events ++ [e]) (mount env t style ls0)))
      as [s|] eqn:Hs; [|reflexivity].
    exfalso.
    pose proof (rendered_run env t style ls0 (events ++ [e]) s Hs) as Hr.
    destruct (static_inv_run env t style ls0 (events ++ [e]) s Hs)
      as (s0 & Hs0 & Hm & _).
    destruct (first_cycle_inv_run t style ls0 (events ++ [e]) s Hs)
      as (s1 & Hs1 & _ & _ & _ & P4).
    rewrite Hs in Hs0, Hs1. injection Hs0 as <-. injection Hs1 as <-.
    rewrite (now_run env t style ls0 (events ++ [e])) in P4.
    destruct (Z.le_gt_cases (ticks (events ++ [e])) 300000) as [Hle|Hgt].
    + rewrite (renders_fetched _ s
                 (settle (newDate env) (api env 0) (initialState t))) in Hr.
      * congruence.
      * apply P4. lia.
      * now rewrite settle_minimized.
    + rewrite ticks_snoc in Hge, Hgt. rewrite run_snoc in Hs.
      rewrite (step_None env _ e) in Hs; [discriminate|].
      apply IH. unfold first_settle. destruct e; lia.
Qed.

(** What the first cycle gave can be rendered: the component is mounted
    until the second cycle can settle. *)
Lemma mounted_while_first_shown t style ls0 events :
  ticks events <= 300000 ->
  renders (props env) (settle (newDate env) (api env 0) (initialState t))
    = true ->
  exists s, component (run env events (mount env t style ls0)) = Some s.
Proof.
  intros Hle Hgood. induction events as [|e events IH] using rev_ind.
  - simpl. eauto.
  - rewrite ticks_snoc in Hle. pose proof (ticks_nonneg events) as Hn.
    destruct IH as (s & Hs); [destruct e; lia|].
    pose proof (static_inv_run env t style ls0 events s Hs) as Hinv.
    pose proof (rendered_run env t style ls0 events) as Hr.
    destruct (first_cycle_inv_run t style ls0 events s Hs)
      as (s0 & Hs0 & P1 & _ & P3 & P4).
    rewrite Hs in Hs0. injection Hs0 as <-.
    rewrite (now_run env t style ls0 events) in P1, P3, P4.
    assert (Hstep : step env (run env events (mount env t style ls0)) e
                    = advance env (run env events (mount env t style ls0)) e).
    { destruct e as [|path|key]; [| |reflexivity].
      2: apply (userClick_reached env style ls0 _ _ Hinv Hr).
      rewrite step_Tick, advance_Tick. unfold tick, elapse.
      destruct Hinv as (s0 & Hs0 & Hm & _).
      rewrite Hs in Hs0. injection Hs0 as <-.
      apply (expired_while env
               (fun s =>
                  isMinimized s = false /\
                  (fetched s = (true, [], None) \/
                   fetched s
                   = fetched (settle (newDate env) (api env 0)
                                (initialState t)))) _ _ s); auto.
      - intros s0 [Hm0 [Hf|Hf]].
        + rewrite renders_view. unfold view.
          unfold fetched in Hf. injection Hf as -> _ _. reflexivity.
        + rewrite <- Hgood. apply renders_fetched; [exact Hf|].
          now rewrite settle_minimized.
      - apply Forall_forall. intros tm Htm t0 s0 [Hm0 Hf].
        split; [now rewrite task_update_minimized|].
        destruct (is_settle (task tm)) eqn:Hk.
        + assert (Hin : In tm
                    (List.filter (fun tm => due tm <=? t + ticks events + 1)
                       (settleTimers
                          (run env events (mount env t style ls0))))).
          { rewrite <- (now_run env t style ls0 events).
            rewrite <- due_settleTimers_tick. apply filter_In.
            split; [now apply list_elem_of_In|exact Hk]. }
          destruct (Z.lt_ge_cases (ticks events) (first_settle env))
            as [Hbefore|Hafter].
          * destruct P1 as [_ Hst]; [lia|]. rewrite Hst in Hin.
            simpl in Hin.
            destruct (_ <=? _); [|destruct Hin].
            destruct Hin as [<-|[]]. simpl. right.
            destruct Hf as [Hf|Hf].
            -- apply fetched_settle. now rewrite Hf.
            -- rewrite <- (settle_twice (newDate env) (api env 0)
                             (initialState t)).
               now apply fetched_settle.
          * rewrite P3 in Hin by (simpl in Hle; lia). destruct Hin.
        + now rewrite fetched_task_update.
      - split; [exact Hm|].
        destruct (Z.lt_ge_cases (ticks events) (first_settle env))
          as [Hbefore|Hafter].
        + left. apply P1. lia.
        + right. apply P4. simpl in Hle. lia. }
    rewrite run_snoc, Hstep.
    destruct (keeps_view_advance env _ e s Hs) as (s' & Hs' & _). eauto.
Qed.

(** X15: when the first poll cycle settles within five minutes, the
    skeleton is shown, with no commit and no error, until it settles; from
    then on, for as long as the component is mounted, [loading] is off, and
    until the next cycle can settle the commit list and the error are what
    the first cycle made of the initial state.  When that can be rendered
    the component is mounted throughout these five minutes; when it
    cannot, the component is unmounted from the moment the cycle settles. *)
Theorem first_cycle_decides_first_view t style listeners events :
  (ticks events < first_settle env ->
   exists s,
     component (run env events (mount env t style listeners)) = Some s /\
     view s = Loading /\ commits s = [] /\ error s = None) /\
  (forall s,
     component (run env events (mount env t style listeners)) = Some s ->
     (first_settle env <= ticks events -> loading s = false) /\
     (first_settle env <= ticks events <= 300000 ->
      commits s
        = commits (settle (newDate env) (api env 0) (initialState t)) /\
      error s = error (settle (newDate env) (api env 0) (initialState t)))) /\
  (ticks events <= 300000 ->
   renders (props env) (settle (newDate env) (api env 0) (initialState t))
     = true ->
   exists s,
     component (run env events (mount env t style listeners)) = Some s) /\
  (first_settle env <= ticks events ->
   renders (props env) (settle (newDate env) (api env 0) (initialState t))
     = false ->
   component (run env events (mount env t style listeners)) = None).
Proof.
  split; [|split; [|split]].
  - intros Hlt.
    destruct (mounted_before_first_settle t style listeners events Hlt)
      as (s & Hs).
    destruct (first_cycle_inv_run t style listeners events s Hs)
      as (s0 & Hs0 & P1 & _).
    rewrite Hs in Hs0. injection Hs0 as <-.
    rewrite (now_run env t style listeners events) in P1.
    exists s. split; [exact Hs|].
    destruct P1 as [[= Hl Hc He] _]; [lia|].
    unfold view. rewrite Hl. auto.
  - intros s Hs.
    destruct (first_cycle_inv_run t style listeners events s Hs)
      as (s0 & Hs0 & _ & P2 & _ & P4).
    rewrite Hs in Hs0. injection Hs0 as <-.
    rewrite (now_run env t style listeners events) in P2, P4.
    split.
    + intros H. apply P2. lia.
    + intros H. assert (Hf := P4 ltac:(lia)). injection Hf as _ Hc He. auto.
  - apply mounted_while_first_shown.
  - apply unmounted_after_first_settle.
Qed.
End FirstSettle.

(** ** The blink timers *)

(** X16: while the component is mounted the blink interval is pending
    exactly once, and at most one timeout that switches the indicator off
    is pending with it: the blink timers do not pile up.  Once React has
    unmounted the component the blink interval is pending no more. *)
Theorem blink_timers_never_pile_up env t style listeners events :
  (forall s,
     component (run env events (mount env t style listeners)) = Some s ->
     exists next rest,
       blinkTimers (run env events (mount env t style listeners))
         = mkTimer next (Some 3000) BlinkTick :: rest /\
       (length rest <= 1)%nat /\
       Forall (fun tm => task tm = BlinkOff /\ every tm = None) rest) /\
  (component (run env events (mount env t style listeners)) = None ->
   Forall (fun tm => task tm = BlinkOff)
     (blinkTimers (run env events (mount env t style listeners)))).
Proof.
  split.
  - intros s Hs.
    destruct (blink_inv_run env t style listeners events s Hs)
      as (k & s0 & _ & _ & _ & _ & _ & Ht).
    eexists _, _. split; [exact Ht|].
    destruct (isBlinking s0); simpl; split; auto; repeat constructor.
  - intros Hs.
    destruct (left_behind_run env t style listeners events Hs)
      as (_ & _ & _ & Ht).
    unfold blinkTimers.
    induction Ht as [|tm l [Hb _] _ IH]; simpl; [constructor|].
    destruct (task tm) eqn:Hk; simpl; try exact IH.
    + congruence.
    + constructor; auto.
Qed.

(** ** The further properties on the samples *)

(** X3 on a commit of the sample API and on one without author. *)
Lemma toCommit_witness :
  toCommit sampleDate (sampleRepo "b/y")
    (sampleCommit "c1" "fix" "2024-01-02T00:00:00Z") = Return c1 /\
  toCommit sampleDate (sampleRepo "a/x") authorlessCommit = Throw TypeError.
Proof.
  split.
  - rewrite (toCommit_reads_or_throws sampleDate (sampleRepo "b/y")
               (sampleCommit "c1" "fix" "2024-01-02T00:00:00Z"))
      by discriminate.
    reflexivity.
  - rewrite (toCommit_reads_or_throws sampleDate (sampleRepo "a/x")
               authorlessCommit) by discriminate.
    reflexivity.
Defined.

(** X8 a millisecond after the mount, and after a render that threw. *)
Lemma poll_cycle_witness :
  Z.of_nat (cycles (run sampleEnv [Tick] (mount sampleEnv 0 ∅ [])))
    = 1 + ticks [Tick] / 300000 /\
  fetchTimers (run objectMessageEnv [Tick] (mount objectMessageEnv 0 ∅ []))
    = [].
Proof.
  split.
  - destruct (poll_cycle_every_five_minutes sampleEnv 0 ∅ [] [Tick])
      as [Hmounted _].
    destruct (Hmounted _ sample_run_component) as [Hc _]. exact Hc.
  - destruct (poll_cycle_every_five_minutes objectMessageEnv 0 ∅ [] [Tick])
      as [_ Hgone].
    exact (Hgone object_message_run_component).
Defined.

Lemma sample_tick_component :
  component (tick sampleEnv (mount sampleEnv 0 ∅ [])) = Some normalState.
Proof. vm_compute. reflexivity. Qed.

Lemma object_message_tick_component :
  component (tick objectMessageEnv (mount objectMessageEnv 0 ∅ [])) = None.
Proof. vm_compute. reflexivity. Qed.

(** X9 on the first millisecond: the first cycle settles into the normal
    view, or into a row that React refuses. *)
Lemma time_passing_witness :
  body_style (tick sampleEnv (mount sampleEnv 0 ∅ []))
    = body_style (mount sampleEnv 0 ∅ []) /\
  body_style (tick objectMessageEnv (mount objectMessageEnv 0 ∅ []))
    = fullscreenCleanup (body_style (mount objectMessageEnv 0 ∅ [])).
Proof.
  split.
  - destruct (time_passing_leaves_user_side_alone sampleEnv
                (mount sampleEnv 0 ∅ []))
      as (_ & H & _).
    destruct (H _ sample_tick_component) as [Hb _]. exact Hb.
  - destruct (time_passing_leaves_user_side_alone objectMessageEnv
                (mount objectMessageEnv 0 ∅ []))
      as (_ & _ & H & _).
    destruct (H _ eq_refl object_message_tick_component) as [Hb _]. exact Hb.
Defined.

(** X11 from the error view of the failed first cycle. *)
Lemma view_monotone_witness :
  exists s',
    component
      (run objectEnv [Tick; Click closeGlyph; KeyDown "Escape"] errorWorld)
      = Some s' /\
    view s' = Error.
Proof.
  destruct (loading_never_returns_error_never_leaves objectEnv errorWorld
              [Tick; Click closeGlyph; KeyDown "Escape"] errorState
              errorWorld_component)
    as [Hkeep Hstay].
  destruct (Hstay eq_refl) as [s' Hs'].
  exists s'. split; [exact Hs'|]. now apply (Hkeep s' Hs').
Defined.

(** X12 in the normal view of the sample world. *)
Lemma fullscreen_twice_witness :
  step sampleEnv (step sampleEnv normalWorld (Click fullscreenButton))
    (Click fullscreenButton)
  = normalWorld.
Proof.
  apply (fullscreen_twice_restores_the_world sampleEnv 0 ∅ [] [Tick]
           normalState normalWorld_component).
  reflexivity.
Defined.

(** X14 on the first row of the sample world. *)
Lemma commit_rows_witness :
  node_at (render (mkProps None) normalState) [0; 1; 0]%nat
  = Some (commitRow c2).
Proof.
  apply (commit_rows_only_in_normal_view (mkProps None) normalState
           [0; 1; 0]%nat c2).
  split; [reflexivity|]. exists 0%nat, c2. repeat split.
Defined.

(** X15 on the sample world, whose first cycle settles in a millisecond,
    and on the world whose first list cannot be rendered. *)
Lemma first_cycle_witness :
  (exists s,
     component (run sampleEnv [] (mount sampleEnv 0 ∅ [])) = Some s /\
     view s = Loading /\ commits s = [] /\ error s = None) /\
  loading normalState = false /\
  commits normalState
    = commits (settle (newDate sampleEnv) (api sampleEnv 0) (initialState 0)) /\
  component (run objectMessageEnv [Tick] (mount objectMessageEnv 0 ∅ []))
    = None.
Proof.
  split; [|split; [|split]].
  - destruct (first_cycle_decides_first_view sampleEnv ltac:(reflexivity)
                0 ∅ [] [])
      as [Hbefore _].
    apply Hbefore. reflexivity.
  - destruct (first_cycle_decides_first_view sampleEnv ltac:(reflexivity)
                0 ∅ [] [Tick])
      as (_ & Hafter & _).
    destruct (Hafter _ sample_run_component) as [Hl _].
    apply Hl. discriminate.
  - destruct (first_cycle_decides_first_view sampleEnv ltac:(reflexivity)
                0 ∅ [] [Tick])
      as (_ & Hafter & _).
    destruct (Hafter _ sample_run_component) as [_ Hc].
    apply Hc. split; discriminate.
  - destruct (first_cycle_decides_first_view objectMessageEnv
                ltac:(reflexivity) 0 ∅ [] [Tick])
      as (_ & _ & _ & Hgone).
    apply Hgone; [discriminate|reflexivity].
Defined.

(** X17 on the sample world. *)
Lemma stays_mounted_witness :
  exists s,
    component
      (run sampleEnv [Tick; Click fullscreenButton; Tick]
         (mount sampleEnv 0 ∅ [])) = Some s /\
    forallb showable (commits s) = true.
Proof.
  apply (component_stays_mounted_while_commits_show sampleEnv 0 ∅ []
           [Tick; Click fullscreenButton; Tick]).
  intros n l Hl. simpl in Hl. rewrite sample_cycle in Hl.
  injection Hl as <-. reflexivity.
Defined.

(** X16 a millisecond after the mount, and after a render that threw. *)
Lemma blink_timers_witness :
  (exists next rest,
     blinkTimers (run sampleEnv [Tick] (mount sampleEnv 0 ∅ []))
       = mkTimer next (Some 3000) BlinkTick :: rest /\
     (length rest <= 1)%nat /\
     Forall (fun tm => task tm = BlinkOff /\ every tm = None) rest) /\
  Forall (fun tm => task tm = BlinkOff)
    (blinkTimers
       (run objectMessageEnv [Tick] (mount objectMessageEnv 0 ∅ []))).
Proof.
  split.
  - destruct (blink_timers_never_pile_up sampleEnv 0 ∅ [] [Tick])
      as [Hmounted _].
    exact (Hmounted _ sample_run_component).
  - destruct (blink_timers_never_pile_up objectMessageEnv 0 ∅ [] [Tick])
      as [_ Hgone].
    exact (Hgone object_message_run_component).
Defined.
